(** * The M/M/c queue simulator of [tema7-queue-simulator/queue_simulator.py]

    A shallow embedding of [pct], [exp_time], [Client], [SimResult] and
    [simulate_queue], together with the part of Python's [heapq] that the
    simulator calls ([heappush], [heappop] and their two sift routines).

    Modelling choices:
    - Python floats are rationals ([Q], compared with [==], [<=], [<]);
      rounding, NaN and overflow are outside that model.  [float("inf")] is
      the extra point [Inf] of [xtime].  Where rounding or NaN decides what
      the program does, the module [Float64] has the same translation of
      [exp_time] and [simulate_queue] on binary64 numbers.
    - Python ints are [Z]; list positions inside [heapq] are [nat].
    - [random.expovariate] is an oracle: the value returned by the [n]-th
      call of a run, given the rate it is called with.  The number of calls
      made so far is the only global state, threaded by the monad [M].
    - A raised exception is a [Raise] outcome; loops run on fuel and give
      [Timeout] when it is exhausted (shown never to happen).
    - The two nested [while] loops are one step function on a control point
      ([LoopHead], [AssignHead]) and the local variables ([State]).
    - [viz_print] only prints and reads the wall clock; it is left out. *)

From Stdlib Require Import QArith Qround Lqa Lia ZArith String ZifyNat Sorted.
From Stdlib Require PrimFloat Uint63Axioms.
From stdpp Require Import base relations list gmap.

Set Warnings "-inexact-float".

Open Scope Z_scope.
Open Scope Q_scope.

Ltac Zify.zify_post_hook ::= Z.div_mod_to_equations.

(** ** Outcomes and the two monads *)

Inductive exn : Type :=
| ValueError (msg : string)
| IndexError.

Inductive result (A : Type) : Type :=
| Ok (a : A)
| Raise (e : exn)
| Timeout.
Arguments Ok {A} a.
Arguments Raise {A} e.
Arguments Timeout {A}.

Definition rbind {A B} (c : result A) (k : A -> result B) : result B :=
  match c with
  | Ok a => k a
  | Raise e => Raise e
  | Timeout => Timeout
  end.

Notation "'let?' x := c 'in' k" := (rbind c (fun x => k))
  (at level 10, x pattern, c at level 100, k at level 200).

(** [M A]: a computation that may call the random source.  The state is the
    number of variates drawn so far; it survives an exception. *)
Definition M (A : Type) : Type := nat -> result A * nat.

Definition ret {A} (a : A) : M A := fun n => (Ok a, n).
Definition raise {A} (e : exn) : M A := fun n => (Raise e, n).
Definition timeout {A} : M A := fun n => (Timeout, n).
Definition lift {A} (r : result A) : M A := fun n => (r, n).
Definition bind {A B} (c : M A) (k : A -> M B) : M B :=
  fun n => match c n with
           | (Ok a, n') => k a n'
           | (Raise e, n') => (Raise e, n')
           | (Timeout, n') => (Timeout, n')
           end.

Notation "'let*' x := c 'in' k" := (bind c (fun x => k))
  (at level 10, x pattern, c at level 100, k at level 200).

(** ** Python lists *)

Section PyList.
Context {A : Type}.

(** [l[i]] for a position that is never negative. *)
Definition getitem (l : list A) (i : nat) : result A :=
  match l !! i with
  | Some x => Ok x
  | None => Raise IndexError
  end.

(** [l[i] = x]. *)
Definition setitem (l : list A) (i : nat) (x : A) : result (list A) :=
  if (i <? length l)%nat then Ok (<[i:=x]> l) else Raise IndexError.

(** [l[i]] for a Python int: a negative [i] counts from the end. *)
Definition getitem_Z (l : list A) (i : Z) : result A :=
  let n := Z.of_nat (length l) in
  if (0 <=? i)%Z then getitem l (Z.to_nat i)
  else if (- n <=? i)%Z then getitem l (Z.to_nat (n + i))
  else Raise IndexError.

(** [l.pop()]: the last element and the list without it. *)
Fixpoint list_pop (l : list A) : result (list A * A) :=
  match l with
  | [] => Raise IndexError
  | x :: l' =>
      match l' with
      | [] => Ok ([], x)
      | _ :: _ => let? (r, y) := list_pop l' in Ok (x :: r, y)
      end
  end.

(** [l.pop(0)]. *)
Definition list_pop0 (l : list A) : result (A * list A) :=
  match l with
  | [] => Raise IndexError
  | x :: l' => Ok (x, l')
  end.

(** Truth value of a list: [if l:]. *)
Definition truthy (l : list A) : bool :=
  match l with [] => false | _ :: _ => true end.
End PyList.

(** ** [heapq] on a list, for an element type with a [<]

    The routines [simulate_queue] calls, as they are written in CPython's
    [Lib/heapq.py]: the heap is a list, the children of position [k] are at
    [2k+1] and [2k+2]. *)

Section Heapq.
Context {A : Type} (lt : A -> A -> bool).

(** The [while pos > startpos] loop of [_siftdown]. *)
Fixpoint siftdown_loop (fuel : nat) (heap : list A) (startpos pos : nat)
    (newitem : A) : result (list A) :=
  if (startpos <? pos)%nat then
    match fuel with
    | O => Timeout
    | S fuel' =>
        let parentpos := ((pos - 1) / 2)%nat in
        let? parent := getitem heap parentpos in
        if lt newitem parent then
          let? heap := setitem heap pos parent in
          siftdown_loop fuel' heap startpos parentpos newitem
        else setitem heap pos newitem
    end
  else setitem heap pos newitem.

Definition _siftdown (heap : list A) (startpos pos : nat) : result (list A) :=
  let? newitem := getitem heap pos in
  siftdown_loop pos heap startpos pos newitem.

(** The [while childpos < endpos] loop of [_siftup]; gives the heap and
    the leaf position reached. *)
Fixpoint siftup_loop (fuel : nat) (heap : list A) (endpos pos : nat)
    : result (list A * nat) :=
  let childpos := (2 * pos + 1)%nat in
  if (childpos <? endpos)%nat then
    match fuel with
    | O => Timeout
    | S fuel' =>
        let rightpos := (childpos + 1)%nat in
        let? childpos :=
          (if (rightpos <? endpos)%nat then
             let? l := getitem heap childpos in
             let? r := getitem heap rightpos in
             Ok (if negb (lt l r) then rightpos else childpos)
           else Ok childpos) in
        let? c := getitem heap childpos in
        let? heap := setitem heap pos c in
        siftup_loop fuel' heap endpos childpos
    end
  else Ok (heap, pos).

Definition _siftup (heap : list A) (pos : nat) : result (list A) :=
  let endpos := length heap in
  let startpos := pos in
  let? newitem := getitem heap pos in
  let? (heap, pos) := siftup_loop endpos heap endpos pos in
  let? heap := setitem heap pos newitem in
  _siftdown heap startpos pos.

Definition heappush (heap : list A) (item : A) : result (list A) :=
  let heap := heap ++ [item] in
  _siftdown heap 0 (length heap - 1).

(** Gives the popped item and the heap that is left. *)
Definition heappop (heap : list A) : result (A * list A) :=
  let? (heap, lastelt) := list_pop heap in
  if truthy heap then
    let? returnitem := getitem heap 0 in
    let? heap := setitem heap 0 lastelt in
    let? heap := _siftup heap 0 in
    Ok (returnitem, heap)
  else Ok (lastelt, heap).
End Heapq.

(** ** Floats and tuples of the simulator *)

Definition Qlt_bool (a b : Q) : bool := negb (Qle_bool b a).

(** [float("inf")] and the finite times. *)
Inductive xtime : Type :=
| Fin (q : Q)
| Inf.

Definition xle_bool (a b : xtime) : bool :=
  match a, b with
  | _, Inf => true
  | Inf, Fin _ => false
  | Fin x, Fin y => Qle_bool x y
  end.

(** [(a, i) < (b, j)] on [(float, int)] tuples: the first component that
    differs decides. *)
Definition tuple_lt (x y : Q * Z) : bool :=
  if negb (Qeq_bool (fst x) (fst y)) then Qlt_bool (fst x) (fst y)
  else if negb (snd x =? snd y)%Z then (snd x <? snd y)%Z
  else false.

Fixpoint Qsum (l : list Q) : Q :=
  match l with
  | [] => 0
  | x :: l' => x + Qsum l'
  end.

(** [statistics.mean] of a non-empty list. *)
Definition mean (l : list Q) : Q := Qsum l / inject_Z (Z.of_nat (length l)).

(** [list(range(n))]. *)
Definition range (n : Z) : list Z := map Z.of_nat (seq 0 (Z.to_nat n)).

(** ** [pct] *)

Fixpoint insert_sorted (x : Q) (l : list Q) : list Q :=
  match l with
  | [] => [x]
  | y :: l' => if Qle_bool x y then x :: l else y :: insert_sorted x l'
  end.

(** [sorted(values)]: ascending, and stable (of two equal values the one
    that comes first in [values] comes first). *)
Definition sorted (values : list Q) : list Q :=
  foldr (fun x acc => insert_sorted x acc) [] values.

Definition pct (values : list Q) (p : Q) : result Q :=
  if negb (truthy values) then Ok 0
  else
    let s := sorted values in
    let k := (p / 100) * inject_Z (Z.of_nat (length s) - 1) in
    let lo := Qfloor k in
    let hi := Qceiling k in
    if (lo =? hi)%Z then getitem_Z s lo
    else
      let? slo := getitem_Z s lo in
      let? shi := getitem_Z s hi in
      Ok (slo + (shi - slo) * (k - inject_Z lo)).

(** ** The simulation model *)

(** [cid] is the field [id] of the source. *)
Record Client : Type := mkClient {
  cid : Z;
  arrival : Q;
  service_start : Q;
  service_end : Q
}.

Definition wait (c : Client) : Q := service_start c - arrival c.
Definition system_time (c : Client) : Q := service_end c - arrival c.

Module SimResult.
Record SimResult : Type := mk {
  counters : Z;
  clients : Z;
  arrival_rate : Q;
  service_rate : Q;
  total_time : Q;
  avg_wait : Q;
  max_queue : Z;
  served : Z;
  utilization : Q;
  waits : list Q;
  queue_max_times : list (Q * Z)
}.
End SimResult.
Abbreviation SimResult := SimResult.SimResult.

(** The local variables of [simulate_queue].  [assigned] is a ghost field:
    the [Client] objects as they are after line 171, in the order of their
    assignment (the source keeps no reference to them). *)
Record State : Type := mkState {
  t : Q;
  next_arrival : Q;
  queue : list Client;
  busy_heap : list (Q * Z);
  free_servers : list Z;
  served : Z;
  client_id : Z;
  waits : list Q;
  max_queue : Z;
  queue_max_times : list (Q * Z);
  busy_time_sum : Q;
  assigned : list Client
}.

(** Where control is: at the head of the outer [while served < clients], or
    at the head of the inner [while free_servers and queue]. *)
Inductive point : Type :=
| LoopHead
| AssignHead.

Section Simulation.
(** [expovariate n rate]: what the [n]-th call of [random.expovariate]
    gives when called with [rate]. *)
Variable expovariate : nat -> Q -> Q.
Variables (clients : Z) (arrival_rate service_rate : Q) (counters : Z).

Definition exp_time (rate : Q) : M Q :=
  if Qle_bool rate 0 then raise (ValueError "Rate must be > 0")
  else fun n => (Ok (expovariate n rate), S n).

(** [busy_heap[0][0] if busy_heap else float("inf")]. *)
Definition next_completion (s : State) : xtime :=
  match busy_heap s with
  | [] => Inf
  | x :: _ => Fin (fst x)
  end.

(** The test of line 141. *)
Definition is_arrival (s : State) : bool :=
  xle_bool (Fin (next_arrival s)) (next_completion s)
  && (client_id s <? clients)%Z.

(** Lines 143-156. *)
Definition arrival_event (s : State) : M State :=
  let t' := next_arrival s in
  let client_id' := (client_id s + 1)%Z in
  let c := mkClient client_id' t' 0 0 in
  let queue' := queue s ++ [c] in
  let len := Z.of_nat (length queue') in
  let new_max := (max_queue s <? len)%Z in
  let max_queue' := if new_max then len else max_queue s in
  let queue_max_times' :=
    if new_max then queue_max_times s ++ [(t', max_queue')]
    else queue_max_times s in
  let* d := exp_time arrival_rate in
  ret (mkState t' (t' + d) queue' (busy_heap s) (free_servers s)
         (served s) client_id' (waits s) max_queue' queue_max_times'
         (busy_time_sum s) (assigned s)).

(** Lines 160-162. *)
Definition completion_event (s : State) : M State :=
  let* ((t', server_idx), busy_heap') := lift (heappop tuple_lt (busy_heap s)) in
  ret (mkState t' (next_arrival s) (queue s) busy_heap'
         (free_servers s ++ [server_idx])
         (served s + 1)%Z (client_id s) (waits s) (max_queue s)
         (queue_max_times s) (busy_time_sum s) (assigned s)).

(** Lines 138-163: one event. *)
Definition event (s : State) : M State :=
  if is_arrival s then arrival_event s else completion_event s.

(** Lines 167-176: the body of the inner loop. *)
Definition assign (s : State) : M State :=
  let* (free_servers', server_idx) := lift (list_pop (free_servers s)) in
  let* (c, queue') := lift (list_pop0 (queue s)) in
  let* service_time := exp_time service_rate in
  let c' := mkClient (cid c) (arrival c) (t s) (t s + service_time) in
  let* busy_heap' := lift (heappush tuple_lt (busy_heap s) (service_end c', server_idx)) in
  ret (mkState (t s) (next_arrival s) queue' busy_heap' free_servers'
         (served s) (client_id s) (waits s ++ [wait c']) (max_queue s)
         (queue_max_times s) (busy_time_sum s + service_time)
         (assigned s ++ [c'])).

(** One step of control: [None] when the outer loop is left. *)
Definition step (cfg : point * State) : M (option (point * State)) :=
  let '(pc, s) := cfg in
  match pc with
  | LoopHead =>
      if (served s <? clients)%Z then
        let* s' := event s in ret (Some (AssignHead, s'))
      else ret None
  | AssignHead =>
      if truthy (free_servers s) && truthy (queue s) then
        let* s' := assign s in ret (Some (AssignHead, s'))
      else ret (Some (LoopHead, s))
  end.

Fixpoint run (fuel : nat) (cfg : point * State) : M State :=
  match fuel with
  | O => timeout
  | S fuel' =>
      let* o := step cfg in
      match o with
      | None => ret (snd cfg)
      | Some cfg' => run fuel' cfg'
      end
  end.

(** Lines 99-116. *)
Definition initial_state (first_arrival : Q) : State :=
  mkState 0 first_arrival [] [] (range counters) 0 0 [] 0 [] 0 [].

(** Lines 180-196. *)
Definition make_result (s : State) : SimResult :=
  let total_time := t s in
  let avg_wait := if truthy (waits s) then mean (waits s) else 0 in
  let utilization :=
    if Qlt_bool 0 total_time
    then busy_time_sum s / (inject_Z counters * total_time)
    else 0 in
  SimResult.mk counters clients arrival_rate service_rate total_time
    avg_wait (max_queue s) (served s) utilization (waits s)
    (queue_max_times s).

(** Steps that a run can take at most: see [run_fuel_enough]. *)
Definition loop_fuel : nat := S (Z.to_nat (5 * clients)).

(** The state in which the loop is left. *)
Definition final_state : M State :=
  if (counters <? 1)%Z then raise (ValueError "counters must be >= 1")
  else if (clients <? 1)%Z then raise (ValueError "clients must be >= 1")
  else if Qle_bool arrival_rate 0 || Qle_bool service_rate 0
  then raise (ValueError "rates must be > 0")
  else
    let* d := exp_time arrival_rate in
    run loop_fuel (LoopHead, initial_state d).

Definition simulate_queue : M SimResult :=
  let* s := final_state in ret (make_result s).
End Simulation.

(** ** The callers: [format_result] and [compare_scenarios]

    Of [format_result] the numbers of lines 214-218 are modelled, of
    [compare_scenarios] the runs and the rows it prints and writes; the
    formatting of floats into text and the report file are left out. *)

(** The loop of [max(l)] from the running maximum [x]: a later item
    replaces it only when it is greater. *)
Fixpoint max_from (x : Q) (l : list Q) : Q :=
  match l with
  | [] => x
  | y :: l' => max_from (if Qlt_bool x y then y else x) l'
  end.

(** [max(l)]. *)
Definition py_max (l : list Q) : result Q :=
  match l with
  | [] => Raise (ValueError "max() arg is an empty sequence")
  | x :: l' => Ok (max_from x l')
  end.

(** Lines 212-218 of [format_result]: [max], [p50], [p90], [p95], [p99] of
    the waits, in the order they are computed; [None] when the block is
    skipped. *)
Definition format_result_stats (res : SimResult)
    : result (option (Q * Q * Q * Q * Q)) :=
  if truthy (SimResult.waits res) then
    let? mx := py_max (SimResult.waits res) in
    let? p50 := pct (SimResult.waits res) 50 in
    let? p90 := pct (SimResult.waits res) 90 in
    let? p95 := pct (SimResult.waits res) 95 in
    let? p99 := pct (SimResult.waits res) 99 in
    Ok (Some (mx, p50, p90, p95, p99))
  else Ok None.

Section Compare.
Variable expovariate : nat -> Q -> Q.
Variables (clients : Z) (arrival_rate service_rate : Q).

(** Lines 235-237: the first loop of [compare_scenarios], from the dict
    [results] built so far. *)
Fixpoint run_scenarios (counters_list : list Z) (results : gmap Z SimResult)
    : M (gmap Z SimResult) :=
  match counters_list with
  | [] => ret results
  | c :: rest =>
      let* r := simulate_queue expovariate clients arrival_rate service_rate c in
      run_scenarios rest (<[c:=r]> results)
  end.

(** Lines 240-242 (and 249-251): [r = results[c]] for each [c] of the list.
    [None]: a key is missing, which is a [KeyError]. *)
Fixpoint scenario_rows (counters_list : list Z) (results : gmap Z SimResult)
    : option (list (Z * SimResult)) :=
  match counters_list with
  | [] => Some []
  | c :: rest =>
      match results !! c with
      | Some r =>
          match scenario_rows rest results with
          | Some rows => Some ((c, r) :: rows)
          | None => None
          end
      | None => None
      end
  end.

(** The rows that [compare_scenarios] prints and writes. *)
Definition compare_scenarios (counters_list : list Z)
    : M (option (list (Z * SimResult))) :=
  let* results := run_scenarios counters_list ∅ in
  ret (scenario_rows counters_list results).
End Compare.

(** ** The simulator on binary64 numbers

    Python's [float] is an IEEE 754 binary64 number, and so is Rocq's
    primitive [float]: [+], [-], [*], [/] round to nearest, ties to even,
    and [<=?], [<?], [=?] are false on NaN, as in Python.  This module is
    the translation of [exp_time] and [simulate_queue] above with [float]
    in the place of [Q], line for line, so that a run can be evaluated with
    the rounding of the program.  Left out: [avg_wait]
    ([statistics.mean] sums the waits exactly and rounds once) and the
    ghost field [assigned]. *)

Module Float64.
Import PrimFloat.
Local Open Scope float_scope.

(** An [int] operand of a float operation.  Exact up to [2^53] and rounded
    to nearest beyond, as Python does; meant for [|z| < 2^63], which
    [counters] is whenever line 105 has built [list(range(counters))]. *)
Definition float_of_int (z : Z) : float :=
  if (0 <=? z)%Z then of_uint63 (Uint63Axioms.of_Z z)
  else - of_uint63 (Uint63Axioms.of_Z (- z)).

(** [(a, i) < (b, j)]: the first component that differs decides; a NaN
    differs from everything and is less than nothing.  (Python takes two
    references to one object as equal without comparing; the tuples of
    [busy_heap] never share their float, each being a fresh [t + ...].) *)
Definition tuple_lt (x y : float * Z) : bool :=
  if negb (fst x =? fst y) then fst x <? fst y
  else if negb (snd x =? snd y)%Z then (snd x <? snd y)%Z
  else false.

Record Client : Type := mkClient {
  cid : Z;
  arrival : float;
  service_start : float;
  service_end : float
}.

Definition wait (c : Client) : float := service_start c - arrival c.
Definition system_time (c : Client) : float := service_end c - arrival c.

(** [SimResult] without [avg_wait]. *)
Module SimResult.
Record SimResult : Type := mk {
  counters : Z;
  clients : Z;
  arrival_rate : float;
  service_rate : float;
  total_time : float;
  max_queue : Z;
  served : Z;
  utilization : float;
  waits : list float;
  queue_max_times : list (float * Z)
}.
End SimResult.
Abbreviation SimResult := SimResult.SimResult.

Record State : Type := mkState {
  t : float;
  next_arrival : float;
  queue : list Client;
  busy_heap : list (float * Z);
  free_servers : list Z;
  served : Z;
  client_id : Z;
  waits : list float;
  max_queue : Z;
  queue_max_times : list (float * Z);
  busy_time_sum : float
}.

(** A random source that gives the numbers of [l] in turn, then [d]. *)
Definition fixed_variates (l : list float) (d : float) : nat -> float -> float :=
  fun n _ => nth n l d.

Section Simulation.
Variable expovariate : nat -> float -> float.
Variables (clients : Z) (arrival_rate service_rate : float) (counters : Z).

Definition exp_time (rate : float) : M float :=
  if rate <=? 0 then raise (ValueError "Rate must be > 0")
  else fun n => (Ok (expovariate n rate), S n).

(** [busy_heap[0][0] if busy_heap else float("inf")]. *)
Definition next_completion (s : State) : float :=
  match busy_heap s with
  | [] => infinity
  | x :: _ => fst x
  end.

(** The test of line 141. *)
Definition is_arrival (s : State) : bool :=
  (next_arrival s <=? next_completion s) && (client_id s <? clients)%Z.

(** Lines 143-156. *)
Definition arrival_event (s : State) : M State :=
  let t' := next_arrival s in
  let client_id' := (client_id s + 1)%Z in
  let c := mkClient client_id' t' 0 0 in
  let queue' := queue s ++ [c] in
  let len := Z.of_nat (length queue') in
  let new_max := (max_queue s <? len)%Z in
  let max_queue' := if new_max then len else max_queue s in
  let queue_max_times' :=
    if new_max then queue_max_times s ++ [(t', max_queue')]
    else queue_max_times s in
  let* d := exp_time arrival_rate in
  ret (mkState t' (t' + d) queue' (busy_heap s) (free_servers s)
         (served s) client_id' (waits s) max_queue' queue_max_times'
         (busy_time_sum s)).

(** Lines 160-162. *)
Definition completion_event (s : State) : M State :=
  let* ((t', server_idx), busy_heap') := lift (heappop tuple_lt (busy_heap s)) in
  ret (mkState t' (next_arrival s) (queue s) busy_heap'
         (free_servers s ++ [server_idx])
         (served s + 1)%Z (client_id s) (waits s) (max_queue s)
         (queue_max_times s) (busy_time_sum s)).

(** Lines 138-163: one event. *)
Definition event (s : State) : M State :=
  if is_arrival s then arrival_event s else completion_event s.

(** Lines 167-176: the body of the inner loop. *)
Definition assign (s : State) : M State :=
  let* (free_servers', server_idx) := lift (list_pop (free_servers s)) in
  let* (c, queue') := lift (list_pop0 (queue s)) in
  let* service_time := exp_time service_rate in
  let c' := mkClient (cid c) (arrival c) (t s) (t s + service_time) in
  let* busy_heap' := lift (heappush tuple_lt (busy_heap s) (service_end c', server_idx)) in
  ret (mkState (t s) (next_arrival s) queue' busy_heap' free_servers'
         (served s) (client_id s) (waits s ++ [wait c']) (max_queue s)
         (queue_max_times s) (busy_time_sum s + service_time)).

(** One step of control: [None] when the outer loop is left. *)
Definition step (cfg : point * State) : M (option (point * State)) :=
  let '(pc, s) := cfg in
  match pc with
  | LoopHead =>
      if (served s <? clients)%Z then
        let* s' := event s in ret (Some (AssignHead, s'))
      else ret None
  | AssignHead =>
      if truthy (free_servers s) && truthy (queue s) then
        let* s' := assign s in ret (Some (AssignHead, s'))
      else ret (Some (LoopHead, s))
  end.

Fixpoint run (fuel : nat) (cfg : point * State) : M State :=
  match fuel with
  | O => timeout
  | S fuel' =>
      let* o := step cfg in
      match o with
      | None => ret (snd cfg)
      | Some cfg' => run fuel' cfg'
      end
  end.

(** Lines 99-116. *)
Definition initial_state (first_arrival : float) : State :=
  mkState 0 first_arrival [] [] (range counters) 0 0 [] 0 [] 0.

(** Lines 180-196, without [avg_wait].  The division is reached with
    [total_time > 0] and [counters >= 1] only, so its divisor is not zero
    and Python's [ZeroDivisionError] does not arise. *)
Definition make_result (s : State) : SimResult :=
  let total_time := t s in
  let utilization :=
    if 0 <? total_time
    then busy_time_sum s / (float_of_int counters * total_time)
    else 0 in
  SimResult.mk counters clients arrival_rate service_rate total_time
    (max_queue s) (served s) utilization (waits s) (queue_max_times s).

(** The state in which the loop is left.  The fuel is that of the model
    above: the bound counts arrivals, completions and assignments, whatever
    the times are. *)
Definition final_state : M State :=
  if (counters <? 1)%Z then raise (ValueError "counters must be >= 1")
  else if (clients <? 1)%Z then raise (ValueError "clients must be >= 1")
  else if (arrival_rate <=? 0) || (service_rate <=? 0)
  then raise (ValueError "rates must be > 0")
  else
    let* d := exp_time arrival_rate in
    run (loop_fuel clients) (LoopHead, initial_state d).

Definition simulate_queue : M SimResult :=
  let* s := final_state in ret (make_result s).
End Simulation.
End Float64.

(** * Vocabulary of the specification *)

(** ** Heaps *)

(** The position above [i] in the implicit tree of [heapq]. *)
Definition parent (i : nat) : nat := ((i - 1) / 2)%nat.

Section HeapOrder.
Context {A : Type} (lt : A -> A -> bool).
Local Open Scope nat_scope.

(** [heapq]'s invariant: no item is less than its parent. *)
Definition heap_ordered (h : list A) : Prop :=
  forall i x p, 0 < i -> h !! i = Some x -> h !! parent i = Some p -> lt x p = false.

(** The invariant for every item but the one at [pos]. *)
Definition heap_ordered_but (pos : nat) (h : list A) : Prop :=
  forall i x p, 0 < i -> i <> pos ->
    h !! i = Some x -> h !! parent i = Some p -> lt x p = false.
End HeapOrder.

(** [x < y] on tuples, as a proposition. *)
Definition tuple_less (x y : Q * Z) : Prop :=
  fst x < fst y \/ (fst x == fst y /\ (snd x < snd y)%Z).

(** The event horizon is a heap of tuples. *)
Definition horizon_ok (h : list (Q * Z)) : Prop := heap_ordered tuple_lt h.

(** Consecutive items of [l] are related by [R]. *)
Definition increasing {A} (R : A -> A -> Prop) (l : list A) : Prop :=
  forall i a b, l !! i = Some a -> l !! S i = Some b -> R a b.

(** ** States of the loop *)

(** The state after an arrival whose next inter-arrival draw is [d]. *)
Definition arrival_state (s : State) (d : Q) : State :=
  let t' := next_arrival s in
  let queue' := queue s ++ [mkClient (client_id s + 1) t' 0 0] in
  let len := Z.of_nat (length queue') in
  mkState t' (t' + d) queue' (busy_heap s) (free_servers s) (served s)
    (client_id s + 1) (waits s)
    (if (max_queue s <? len)%Z then len else max_queue s)
    (if (max_queue s <? len)%Z
     then queue_max_times s ++ [(t', if (max_queue s <? len)%Z then len else max_queue s)]
     else queue_max_times s)
    (busy_time_sum s) (assigned s).

(** The state after the completion [m] has been popped, [h'] being left. *)
Definition completion_state (s : State) (m : Q * Z) (h' : list (Q * Z)) : State :=
  mkState (fst m) (next_arrival s) (queue s) h' (free_servers s ++ [snd m])
    (served s + 1) (client_id s) (waits s) (max_queue s) (queue_max_times s)
    (busy_time_sum s) (assigned s).

(** The client [c] once it is given a server at time [now] for [d]. *)
Definition start_service (c : Client) (now d : Q) : Client :=
  mkClient (cid c) (arrival c) now (now + d).

(** The state after the head [c] of the queue got server [idx] for a
    service time [d], [h'] being the event horizon with its completion. *)
Definition assign_state (s : State) (fs : list Z) (c : Client) (q : list Client)
    (d : Q) (h' : list (Q * Z)) : State :=
  mkState (t s) (next_arrival s) q h' fs (served s) (client_id s)
    (waits s ++ [wait (start_service c (t s) d)]) (max_queue s)
    (queue_max_times s) (busy_time_sum s + d)
    (assigned s ++ [start_service c (t s) d]).

(** The number of free servers, as a float. *)
Definition idle (s : State) : Q := inject_Z (Z.of_nat (length (free_servers s))).

(** The service time a client was given. *)
Definition service_time (c : Client) : Q := service_end c - service_start c.

(** The milestone times are related by [R], and to the next arrival. *)
Definition miles_inv (R : Q -> Q -> Prop) (s : State) : Prop :=
  Forall (fun m => R (fst m) (next_arrival s)) (queue_max_times s) /\
  increasing (fun a b => R (fst a) (fst b)) (queue_max_times s).

(** [s] without its ghost field. *)
Definition forget (s : State) : State :=
  mkState (t s) (next_arrival s) (queue s) (busy_heap s) (free_servers s)
    (served s) (client_id s) (waits s) (max_queue s) (queue_max_times s)
    (busy_time_sum s) [].

(** Outcomes of [step] and of [run], without the ghost field. *)
Definition forget_step (r : result (option (point * State)) * nat)
    : result (option (point * State)) * nat :=
  match r with
  | (Ok (Some (pc, s)), n) => (Ok (Some (pc, forget s)), n)
  | _ => r
  end.

Definition forget_run (r : result State * nat) : result State * nat :=
  match r with
  | (Ok s, n) => (Ok (forget s), n)
  | _ => r
  end.

(** ** Runs *)

Section Run.
Variable expovariate : nat -> Q -> Q.
Variables (clients : Z) (arrival_rate service_rate : Q) (counters : Z).

(** What the loop keeps true whatever the variates are. *)
Record loop_inv (pc : point) (s : State) : Prop := {
  inv_servers : map snd (busy_heap s) ++ free_servers s ≡ₚ range counters;
  inv_heap : horizon_ok (busy_heap s);
  inv_count :
    client_id s
    = (served s + Z.of_nat (length (busy_heap s)) + Z.of_nat (length (queue s)))%Z;
  inv_served : (0 <= served s)%Z;
  inv_client : (client_id s <= clients)%Z;
  inv_idle : pc = LoopHead -> free_servers s = [] \/ queue s = [];
  inv_waits : waits s = map wait (assigned s);
  inv_assigned :
    Z.of_nat (length (assigned s)) = (served s + Z.of_nat (length (busy_heap s)))%Z;
  inv_peak : Forall (fun m => (snd m <= max_queue s)%Z) (queue_max_times s);
  inv_peaks : increasing (fun a b => (snd a < snd b)%Z) (queue_max_times s)
}.

(** The four moves of control, with the variate counter. *)
Inductive transition : point * State * nat -> point * State * nat -> Prop :=
| t_arrival s n :
    (served s < clients)%Z -> (client_id s < clients)%Z ->
    xle_bool (Fin (next_arrival s)) (next_completion s) = true ->
    transition (LoopHead, s, n)
      (AssignHead, arrival_state s (expovariate n arrival_rate), S n)
| t_completion s n m h' :
    (served s < clients)%Z -> is_arrival clients s = false ->
    heappop tuple_lt (busy_heap s) = Ok (m, h') ->
    busy_heap s !! 0%nat = Some m -> busy_heap s ≡ₚ m :: h' -> horizon_ok h' ->
    transition (LoopHead, s, n) (AssignHead, completion_state s m h', n)
| t_assign s n fs idx c q h' :
    free_servers s = fs ++ [idx] -> queue s = c :: q ->
    heappush tuple_lt (busy_heap s) (t s + expovariate n service_rate, idx) = Ok h' ->
    h' ≡ₚ (t s + expovariate n service_rate, idx) :: busy_heap s -> horizon_ok h' ->
    transition (AssignHead, s, n)
      (AssignHead, assign_state s fs c q (expovariate n service_rate) h', S n)
| t_exit s n :
    free_servers s = [] \/ queue s = [] ->
    transition (AssignHead, s, n) (LoopHead, s, n).

(** What is left to do: it goes down with every move. *)
Definition measure (x : point * State * nat) : nat :=
  let '(pc, s, _) := x in
  (3 * Z.to_nat (clients - client_id s) + 2 * Z.to_nat (clients - served s)
   + length (queue s) + match pc with LoopHead => 0 | AssignHead => 1 end)%nat.

(** One run of [step] from [x] lands in [y]. *)
Definition step_to (x y : point * State * nat) : Prop :=
  step expovariate clients arrival_rate service_rate (fst x) (snd x)
  = (Ok (Some (fst y)), snd y).

(** Control at the first test of the outer loop, after the draw of line 100
    made as draw number [n0]. *)
Definition initial_config (n0 : nat) : point * State * nat :=
  (LoopHead, initial_state counters (expovariate n0 arrival_rate), S n0).

(** The configurations a run that starts at draw [n0] goes through. *)
Definition reachable (n0 : nat) (x : point * State * nat) : Prop :=
  rtc step_to (initial_config n0) x.

(** What the loop keeps true of the simulated times. *)
Record time_inv (s : State) : Prop := {
  tinv_t : 0 <= t s;
  tinv_heap : Forall (fun e => t s <= fst e) (busy_heap s);
  tinv_next : (client_id s < clients)%Z -> t s <= next_arrival s;
  tinv_queue : Forall (fun c => arrival c <= t s) (queue s);
  tinv_assigned :
    Forall (fun c => arrival c <= service_start c /\ service_start c <= service_end c)
      (assigned s);
  tinv_busy : busy_time_sum s <= idle s * t s + Qsum (map fst (busy_heap s));
  tinv_busy_sum : busy_time_sum s == Qsum (map service_time (assigned s))
}.
End Run.

Arguments inv_servers {clients counters pc s} _.
Arguments inv_heap {clients counters pc s} _.
Arguments inv_count {clients counters pc s} _.
Arguments inv_served {clients counters pc s} _.
Arguments inv_client {clients counters pc s} _.
Arguments inv_idle {clients counters pc s} _ _.
Arguments inv_waits {clients counters pc s} _.
Arguments inv_assigned {clients counters pc s} _.
Arguments inv_peak {clients counters pc s} _.
Arguments inv_peaks {clients counters pc s} _.
Arguments tinv_t {clients s} _.
Arguments tinv_heap {clients s} _.
Arguments tinv_next {clients s} _ _.
Arguments tinv_queue {clients s} _.
Arguments tinv_assigned {clients s} _.
Arguments tinv_busy {clients s} _.
Arguments tinv_busy_sum {clients s} _.

(** [k] steps of the code from [x], when none of them raises or leaves the
    loop. *)
Fixpoint advance (expovariate : nat -> Q -> Q) (clients : Z)
    (arrival_rate service_rate : Q) (k : nat) (x : point * State * nat)
    : option (point * State * nat) :=
  match k with
  | O => Some x
  | S k' =>
      match step expovariate clients arrival_rate service_rate (fst x) (snd x) with
      | (Ok (Some c), n') =>
          advance expovariate clients arrival_rate service_rate k' (c, n')
      | _ => None
      end
  end.

(** ** Inputs *)

(** The inputs [simulate_queue] accepts. *)
Definition valid_input (clients : Z) (arrival_rate service_rate : Q) (counters : Z) : Prop :=
  (1 <= clients)%Z /\ 0 < arrival_rate /\ 0 < service_rate /\ (1 <= counters)%Z.

(** The inputs it rejects. *)
Definition invalid_input (clients : Z) (arrival_rate service_rate : Q) (counters : Z) : Prop :=
  (clients < 1)%Z \/ (counters < 1)%Z \/ arrival_rate <= 0 \/ service_rate <= 0.

(** [random.expovariate] gives no negative duration for a positive rate. *)
Definition nonneg_variates (expovariate : nat -> Q -> Q) : Prop :=
  forall n rate, 0 < rate -> 0 <= expovariate n rate.

(** A deterministic variate stream: the durations of [l] in turn, then [d]
    for ever. *)
Definition fixed_variates (l : list Q) (d : Q) : nat -> Q -> Q :=
  fun n _ => nth n l d.

(** A configuration with two completions pending at the same time: three
    servers, two clients arrived at time 1 and served until time 3. *)
Definition two_pending : State :=
  mkState 1 1 [] [(3, 1%Z); (3, 2%Z)] [0%Z] 0 2 [0; 0] 1 [(1, 1%Z)] 4
    [mkClient 1 1 1 3; mkClient 2 1 1 3].

(** ** More about runs *)

(** The variates one run draws. *)
Definition draws_per_run (clients : Z) : nat := (2 * Z.to_nat clients + 1)%nat.

(** The customer ids [1 .. k]. *)
Definition ids (k : Z) : list Z := map Z.of_nat (seq 1 (Z.to_nat k)).

(** The draws made so far: one before the loop, one for each arrival and
    one for each assignment. *)
Definition draws_inv (n0 : nat) (x : point * State * nat) : Prop :=
  Z.of_nat (snd x)
  = (Z.of_nat n0 + 1 + client_id (snd (fst x))
     + Z.of_nat (length (waits (snd (fst x)))))%Z.

(** The clients that were given a server, then those that wait, are the
    clients generated so far, in the order of their ids. *)
Definition fcfs_inv (s : State) : Prop :=
  (0 <= client_id s)%Z /\
  map cid (assigned s ++ queue s) = ids (client_id s).

(** Arrival times and service starts follow the order of the ids. *)
Definition order_inv (s : State) : Prop :=
  increasing Qle (map arrival (assigned s ++ queue s)) /\
  Forall (fun c => arrival c <= t s) (assigned s ++ queue s) /\
  increasing Qle (map service_start (assigned s)) /\
  Forall (fun c => service_start c <= t s) (assigned s).

(** The milestones are the queue lengths [1 .. max_queue], the first one at
    the first arrival [d0]. *)
Definition peak_inv (d0 : Q) (s : State) : Prop :=
  map snd (queue_max_times s) = ids (max_queue s) /\
  (Z.of_nat (length (queue s)) <= max_queue s)%Z /\
  (0 <= max_queue s <= client_id s)%Z /\
  (client_id s = 0%Z -> next_arrival s = d0) /\
  (1 <= client_id s ->
   (1 <= max_queue s)%Z /\ head (queue_max_times s) = Some (d0, 1%Z))%Z.

(** With a server for every client nobody waits. *)
Definition plenty_inv (pc : point) (s : State) : Prop :=
  (pc = LoopHead -> queue s = []) /\
  (queue s = [] \/
   exists c, queue s = [c] /\ arrival c = t s /\ free_servers s <> []) /\
  Forall (fun w => w == 0) (waits s) /\
  (max_queue s <= 1)%Z.

(** Every service end is either past or a pending completion, every
    pending completion is a service end, and once all are served the clock
    stands at one of them. *)
Definition ends_inv (clients : Z) (s : State) : Prop :=
  Forall (fun c => service_end c <= t s \/ In (service_end c) (map fst (busy_heap s)))
    (assigned s) /\
  Forall (fun e => exists c, In c (assigned s) /\ service_end c = fst e) (busy_heap s) /\
  ((clients <= served s)%Z -> exists c, In c (assigned s) /\ service_end c = t s).

(** With one server a service starts after the previous one has ended. *)
Definition serial_inv (s : State) : Prop :=
  increasing (fun a b => service_end a <= service_start b) (assigned s) /\
  (free_servers s <> [] -> Forall (fun c => service_end c <= t s) (assigned s)).


(** * Theorems *)
(** * Python lists: basic facts *)

Section PyListFacts.
Context {A : Type}.
Implicit Types (l : list A) (i : nat) (x : A).
Local Open Scope nat_scope.

Lemma getitem_Some l i x : l !! i = Some x -> getitem l i = Ok x.
Proof. unfold getitem. now intros ->. Qed.

Lemma getitem_Ok l i x : getitem l i = Ok x -> l !! i = Some x.
Proof. unfold getitem. destruct (l !! i); now inversion 1. Qed.

Lemma setitem_lt l i x : i < length l -> setitem l i x = Ok (<[i:=x]> l).
Proof.
  intros Hi. unfold setitem.
  destruct (Nat.ltb_spec i (length l)); [reflexivity | lia].
Qed.

Lemma list_pop_snoc l x : list_pop (l ++ [x]) = Ok (l, x).
Proof.
  induction l as [|y l IH]; [reflexivity|].
  cbn [app list_pop]. rewrite IH.
  destruct l; reflexivity.
Qed.

Lemma list_pop_Ok l r x : list_pop l = Ok (r, x) -> l = r ++ [x].
Proof.
  destruct (decide (l = [])) as [->|Hne]; [inversion 1|].
  destruct (exists_last Hne) as (r' & x' & ->).
  rewrite list_pop_snoc. now inversion 1.
Qed.

Lemma list_pop_nonempty l : l <> [] -> exists r x, l = r ++ [x] /\ list_pop l = Ok (r, x).
Proof.
  intros Hne. destruct (exists_last Hne) as (r & x & ->).
  exists r, x. split; [reflexivity | apply list_pop_snoc].
Qed.

Lemma truthy_true l : truthy l = true <-> l <> [].
Proof. destruct l; cbn; split; congruence. Qed.

Lemma truthy_false l : truthy l = false <-> l = [].
Proof. destruct l; cbn; split; congruence. Qed.
End PyListFacts.

(** * [heapq]: the heap invariant is kept and the root is least *)

Section HeapqTheory.
Context {A : Type} (lt : A -> A -> bool).
Implicit Types (heap h : list A) (i pos : nat) (x p : A).
Local Open Scope nat_scope.
Local Abbreviation heap_ordered := (heap_ordered lt).
Local Abbreviation heap_ordered_but := (heap_ordered_but lt).

(** [lt] is a strict weak order: asymmetric, and [not (y < x)] is
    transitive. *)
Hypothesis lt_asym : forall x y, lt x y = true -> lt y x = false.
Hypothesis nlt_trans : forall x y z, lt y x = false -> lt z y = false -> lt z x = false.

Lemma lt_irrefl x : lt x x = false.
Proof. destruct (lt x x) eqn:E; [|reflexivity]. now rewrite (lt_asym _ _ E) in E. Qed.

Lemma heap_ordered_nil : heap_ordered [].
Proof. intros i x p _ H. now rewrite lookup_nil in H. Qed.

Lemma heap_ordered_prefix h r : heap_ordered (h ++ r) -> heap_ordered h.
Proof.
  intros Hh i x p Hi Hx Hp.
  apply (Hh i x p Hi); now apply lookup_app_l_Some.
Qed.

(** The root is not above any item. *)
Lemma heap_root_least h m :
  heap_ordered h -> h !! 0 = Some m -> forall i x, h !! i = Some x -> lt x m = false.
Proof.
  intros Hh Hm i. induction i as [i IH] using lt_wf_ind. intros x Hx.
  destruct (decide (i = 0)) as [->|Hi].
  - rewrite Hm in Hx. inversion Hx; subst. apply lt_irrefl.
  - assert (Hpi : parent i < i) by (unfold parent; lia).
    destruct (lookup_lt_is_Some_2 h (parent i)) as [p Hp].
    { apply lookup_lt_Some in Hx. lia. }
    apply (nlt_trans m p x).
    + apply (IH (parent i) Hpi _ Hp).
    + apply (Hh i x p); [lia | assumption | assumption].
Qed.
(** Writing [newitem] into the hole at [pos] gives a heap when the items
    below the hole are not less than it and it is not less than the item
    above. *)
Lemma place_ordered heap pos newitem :
  heap_ordered_but pos heap ->
  (forall c x, 0 < c -> parent c = pos -> heap !! c = Some x -> lt x newitem = false) ->
  (0 < pos -> forall g, heap !! parent pos = Some g -> lt newitem g = false) ->
  heap_ordered (<[pos:=newitem]> heap).
Proof.
  intros Hbut Hbelow Habove i x p Hi Hx Hp.
  apply list_lookup_insert_Some in Hx, Hp.
  destruct Hx as [(<- & <- & _) | (Hne & Hx)].
  - destruct Hp as [(Hpp & _) | (_ & Hp)].
    + unfold parent in Hpp. lia.
    + now apply Habove.
  - destruct Hp as [(Hpp & <- & _) | (Hpne & Hp)].
    + apply (Hbelow i x); auto.
    + apply (Hbut i x p); auto.
Qed.

(** The loop of [_siftdown] towards the root: [heap] is a heap but for the
    hole at [pos], the items below the hole are not less than [newitem] nor
    than the item above the hole. *)
Lemma siftdown_loop_ok fuel heap pos newitem :
  pos <= fuel -> pos < length heap ->
  heap_ordered_but pos heap ->
  (forall c x, 0 < c -> parent c = pos -> heap !! c = Some x ->
     lt x newitem = false /\
     (0 < pos -> forall g, heap !! parent pos = Some g -> lt x g = false)) ->
  exists heap',
    siftdown_loop lt fuel heap 0 pos newitem = Ok heap' /\
    heap_ordered heap' /\ heap' ≡ₚ <[pos:=newitem]> heap.
Proof.
  revert heap pos.
  induction fuel as [|fuel IH]; intros heap pos Hfuel Hlen Hbut Hbelow;
    cbn [siftdown_loop]; destruct (Nat.ltb_spec 0 pos) as [Hpos|Hpos]; try lia.
  - rewrite setitem_lt by assumption. eexists; split; [reflexivity|]. split; [|reflexivity].
    apply place_ordered; [assumption | | lia].
    intros c x Hc Hpc Hx. now apply (proj1 (Hbelow c x Hc Hpc Hx)).
  - assert (Hpp : parent pos < pos) by (unfold parent; lia).
    destruct (lookup_lt_is_Some_2 heap (parent pos)) as [par Hpar]; [lia|].
    fold (parent pos). rewrite (getitem_Some _ _ _ Hpar). cbn [rbind].
    destruct (lt newitem par) eqn:Hlt.
    + rewrite setitem_lt by assumption. cbn [rbind].
      destruct (IH (<[pos:=par]> heap) (parent pos)) as (heap' & Hrun & Hord & Hperm).
      * lia.
      * rewrite length_insert. lia.
      * intros i x p Hi Hne Hx Hp.
        apply list_lookup_insert_Some in Hx, Hp.
        destruct Hx as [(<- & <- & _) | (Hne' & Hx)].
        -- destruct Hp as [(Hpe & _) | (_ & Hp)]; [lia|].
           rewrite Hpar in Hp. inversion Hp; subst. apply lt_irrefl.
        -- destruct Hp as [(Hpe & <- & _) | (Hpne & Hp)].
           ++ destruct (Hbelow i x Hi (eq_sym Hpe) Hx) as [_ Hg]. now apply Hg.
           ++ apply (Hbut i x p); auto.
      * intros c x Hc Hpc Hx.
        apply list_lookup_insert_Some in Hx.
        assert (Hxpar : lt x par = false).
        { destruct Hx as [(<- & <- & _) | (Hne & Hx)]; [apply lt_irrefl|].
          apply (Hbut c x par); auto. now rewrite Hpc. }
        split.
        -- apply (nlt_trans newitem par x); [now apply lt_asym | assumption].
        -- intros Hgp g Hg.
           rewrite list_lookup_insert_ne in Hg by (unfold parent in *; lia).
           apply (nlt_trans g par x); [|assumption].
           apply (Hbut (parent pos) par g); auto; lia.
      * exists heap'. split; [assumption|]. split; [assumption|].
        rewrite Hperm.
        assert (E : <[pos:=par]> (<[parent pos:=newitem]> (<[pos:=newitem]> heap))
                    = <[parent pos:=newitem]> (<[pos:=par]> heap)).
        { rewrite (list_insert_insert_ne heap (parent pos) pos newitem newitem) by lia.
          rewrite list_insert_insert_eq.
          now rewrite (list_insert_insert_ne heap pos (parent pos)) by lia. }
        rewrite <- E. apply Permutation_insert_swap.
        -- rewrite list_lookup_insert_ne by lia. assumption.
        -- now apply list_lookup_insert_eq.
    + rewrite setitem_lt by assumption. eexists; split; [reflexivity|]. split; [|reflexivity].
      apply place_ordered; [assumption | |].
      * intros c x Hc Hpc Hx. now apply (proj1 (Hbelow c x Hc Hpc Hx)).
      * intros _ g Hg. rewrite Hpar in Hg. now inversion Hg; subst.
  - rewrite setitem_lt by assumption. eexists; split; [reflexivity|]. split; [|reflexivity].
    apply place_ordered; [assumption | | lia].
    intros c x Hc Hpc Hx. now apply (proj1 (Hbelow c x Hc Hpc Hx)).
Qed.
(** The child that [_siftup] moves up is not above its sibling. *)
Lemma smaller_child heap pos :
  2 * pos + 1 < length heap ->
  exists c hc,
    (if 2 * pos + 1 + 1 <? length heap then
       let? l := getitem heap (2 * pos + 1) in
       let? r := getitem heap (2 * pos + 1 + 1) in
       Ok (if negb (lt l r) then 2 * pos + 1 + 1 else 2 * pos + 1)
     else Ok (2 * pos + 1)) = Ok c /\
    heap !! c = Some hc /\ pos < c /\ parent c = pos /\
    forall s hs, 0 < s -> parent s = pos -> heap !! s = Some hs -> lt hs hc = false.
Proof.
  intros Hleft.
  destruct (lookup_lt_is_Some_2 heap (2 * pos + 1) Hleft) as [l Hl].
  assert (Hsib : forall s, 0 < s -> parent s = pos -> s = 2 * pos + 1 \/ s = 2 * pos + 1 + 1)
    by (unfold parent; lia).
  destruct (Nat.ltb_spec (2 * pos + 1 + 1) (length heap)) as [Hright|Hright].
  - destruct (lookup_lt_is_Some_2 heap (2 * pos + 1 + 1) Hright) as [r Hr].
    rewrite (getitem_Some _ _ _ Hl), (getitem_Some _ _ _ Hr). cbn [rbind].
    destruct (lt l r) eqn:Hlr; cbn [negb].
    + exists (2 * pos + 1), l. repeat split; [assumption | lia | unfold parent; lia |].
      intros s hs Hs Hps Hhs. destruct (Hsib s Hs Hps) as [-> | ->].
      * rewrite Hl in Hhs. inversion Hhs; subst. apply lt_irrefl.
      * rewrite Hr in Hhs. inversion Hhs; subst. now apply lt_asym.
    + exists (2 * pos + 1 + 1), r. repeat split; [assumption | lia | unfold parent; lia |].
      intros s hs Hs Hps Hhs. destruct (Hsib s Hs Hps) as [-> | ->].
      * rewrite Hl in Hhs. inversion Hhs; subst. assumption.
      * rewrite Hr in Hhs. inversion Hhs; subst. apply lt_irrefl.
  - exists (2 * pos + 1), l. repeat split; [assumption | lia | unfold parent; lia |].
    intros s hs Hs Hps Hhs. destruct (Hsib s Hs Hps) as [-> | ->].
    + rewrite Hl in Hhs. inversion Hhs; subst. apply lt_irrefl.
    + apply lookup_lt_Some in Hhs. lia.
Qed.

(** The loop of [_siftup] towards a leaf: [heap] is a heap but for the pairs
    that involve the hole at [pos], and the items below the hole are not
    less than the item above it. *)
Lemma siftup_loop_ok fuel heap pos :
  length heap <= fuel + pos -> pos < length heap ->
  (forall i x p, 0 < i -> i <> pos -> parent i <> pos ->
     heap !! i = Some x -> heap !! parent i = Some p -> lt x p = false) ->
  (0 < pos -> forall c x g, 0 < c -> parent c = pos ->
     heap !! c = Some x -> heap !! parent pos = Some g -> lt x g = false) ->
  exists heap' pos',
    siftup_loop lt fuel heap (length heap) pos = Ok (heap', pos') /\
    length heap' = length heap /\ pos' < length heap /\
    length heap <= 2 * pos' + 1 /\
    heap_ordered_but pos' heap' /\
    forall v, <[pos':=v]> heap' ≡ₚ <[pos:=v]> heap.
Proof.
  revert heap pos.
  induction fuel as [|fuel IH]; intros heap pos Hfuel Hlen Hrest Hgrand;
    cbn [siftup_loop]; destruct (Nat.ltb_spec (2 * pos + 1) (length heap)) as [Hchild|Hleaf];
    try lia.
  2: exists heap, pos; repeat split; try assumption; try reflexivity;
    intros i x p Hi Hne Hx Hp; apply (Hrest i x p); auto;
    intros Hpi; apply lookup_lt_Some in Hx; unfold parent in Hpi; lia.
  destruct (smaller_child heap pos Hchild) as (c & hc & -> & Hc & Hposc & Hpc & Hsib).
  cbn [rbind]. rewrite (getitem_Some _ _ _ Hc). cbn [rbind].
  rewrite setitem_lt by assumption. cbn [rbind].
  assert (Hclen : c < length heap) by (now apply lookup_lt_Some in Hc).
  destruct (IH (<[pos:=hc]> heap) c) as (heap' & pos' & Hrun & Hlen' & Hpos' & Hleaf' & Hbut & Hperm).
  - rewrite length_insert. lia.
  - now rewrite length_insert.
  - intros i x p Hi Hic Hpic Hx Hp.
    apply list_lookup_insert_Some in Hx, Hp.
    destruct Hx as [(<- & <- & _) | (Hne & Hx)].
    + destruct Hp as [(Hpe & _) | (_ & Hp)]; [unfold parent in Hpe; lia|].
      apply (Hgrand Hi c hc p); auto; lia.
    + destruct Hp as [(Hpe & <- & _) | (Hpne & Hp)].
      * apply (Hsib i x); auto.
      * apply (Hrest i x p); auto.
  - intros _ d x g Hd Hpd Hx Hg.
    rewrite Hpc in Hg. rewrite list_lookup_insert_eq in Hg by assumption.
    inversion Hg; subst g.
    assert (Hdpos : d <> pos) by (unfold parent in Hpd; lia).
    rewrite list_lookup_insert_ne in Hx by auto.
    assert (Hpdpos : parent d <> pos) by (rewrite Hpd; lia).
    apply (Hrest d x hc Hd Hdpos Hpdpos Hx). now rewrite Hpd.
  - rewrite length_insert in Hrun, Hlen', Hpos', Hleaf'.
    exists heap', pos'. repeat split; try assumption.
    intros v. rewrite Hperm.
    rewrite <- (list_insert_insert_eq heap pos hc v).
    apply Permutation_insert_swap.
    + now apply list_lookup_insert_eq.
    + rewrite list_lookup_insert_ne by lia. assumption.
Qed.
(** [_siftdown(heap, 0, pos)] when the only item out of place is the leaf
    at [pos]. *)
Lemma siftdown_ok heap pos :
  pos < length heap -> length heap <= 2 * pos + 1 ->
  heap_ordered_but pos heap ->
  exists heap', _siftdown lt heap 0 pos = Ok heap' /\ heap_ordered heap' /\ heap' ≡ₚ heap.
Proof.
  intros Hlen Hleaf Hbut. unfold _siftdown.
  destruct (lookup_lt_is_Some_2 heap pos Hlen) as [newitem Hnew].
  rewrite (getitem_Some _ _ _ Hnew). cbn [rbind].
  destruct (siftdown_loop_ok pos heap pos newitem) as (heap' & Hrun & Hord & Hperm);
    [lia | assumption | assumption | |].
  - intros c x Hc Hpc Hx. apply lookup_lt_Some in Hx. unfold parent in Hpc. lia.
  - exists heap'. rewrite (list_insert_id _ _ _ Hnew) in Hperm. auto.
Qed.

(** [_siftup(heap, 0)] when the only item out of place is the root. *)
Lemma siftup_ok heap :
  0 < length heap ->
  (forall i x p, 0 < i -> parent i <> 0 ->
     heap !! i = Some x -> heap !! parent i = Some p -> lt x p = false) ->
  exists heap', _siftup lt heap 0 = Ok heap' /\ heap_ordered heap' /\ heap' ≡ₚ heap.
Proof.
  intros Hlen Hrest. unfold _siftup.
  destruct (lookup_lt_is_Some_2 heap 0 Hlen) as [newitem Hnew].
  rewrite (getitem_Some _ _ _ Hnew). cbn [rbind].
  destruct (siftup_loop_ok (length heap) heap 0)
    as (heap2 & pos2 & -> & Hlen2 & Hpos2 & Hleaf2 & Hbut2 & Hperm2);
    [lia | assumption | | lia |].
  { intros i x p Hi _ Hpi. now apply Hrest. }
  cbn [rbind]. rewrite setitem_lt by lia. cbn [rbind].
  destruct (siftdown_ok (<[pos2:=newitem]> heap2) pos2) as (heap' & Hrun & Hord & Hperm).
  - rewrite length_insert. lia.
  - rewrite length_insert. lia.
  - intros i x p Hi Hne Hx Hp.
    rewrite list_lookup_insert_ne in Hx by auto.
    apply list_lookup_insert_Some in Hp.
    destruct Hp as [(Hpe & _) | (_ & Hp)].
    + apply lookup_lt_Some in Hx. unfold parent in Hpe. lia.
    + apply (Hbut2 i x p); auto.
  - exists heap'. split; [assumption|]. split; [assumption|].
    rewrite Hperm, Hperm2. now rewrite (list_insert_id _ _ _ Hnew).
Qed.

Lemma heappush_ok h x :
  heap_ordered h ->
  exists h', heappush lt h x = Ok h' /\ heap_ordered h' /\ h' ≡ₚ x :: h.
Proof.
  intros Hh. unfold heappush.
  replace (length (h ++ [x]) - 1) with (length h) by (rewrite length_app; cbn; lia).
  destruct (siftdown_ok (h ++ [x]) (length h)) as (h' & Hrun & Hord & Hperm).
  - rewrite length_app. cbn. lia.
  - rewrite length_app. cbn. lia.
  - intros i y p Hi Hne Hy Hp.
    apply lookup_snoc_Some in Hy. destruct Hy as [(Hlt & Hy) | (-> & _)]; [|lia].
    rewrite lookup_app_l in Hp by (unfold parent; lia).
    apply (Hh i y p); auto.
  - exists h'. split; [assumption|]. split; [assumption|].
    rewrite Hperm. symmetry. apply Permutation_cons_append.
Qed.

Lemma heappop_ok h :
  heap_ordered h -> h <> [] ->
  exists m h',
    heappop lt h = Ok (m, h') /\ h !! 0 = Some m /\ heap_ordered h' /\ h ≡ₚ m :: h'.
Proof.
  intros Hh Hne. unfold heappop.
  destruct (list_pop_nonempty h Hne) as (r & lastelt & -> & ->). cbn [rbind].
  destruct r as [|m r]; cbn [truthy].
  - exists lastelt, []. repeat split; auto using heap_ordered_nil.
  - cbn [getitem lookup list_lookup rbind].
    rewrite setitem_lt by (cbn; lia). cbn [rbind].
    apply heap_ordered_prefix in Hh.
    destruct (siftup_ok (<[0:=lastelt]> (m :: r))) as (h' & -> & Hord & Hperm).
    + cbn. lia.
    + intros i x p Hi Hpi Hx Hp.
      rewrite list_lookup_insert_ne in Hx by lia.
      rewrite list_lookup_insert_ne in Hp by auto.
      apply (Hh i x p); auto.
    + cbn [rbind]. exists m, h'. repeat split; [assumption|].
      rewrite Hperm. cbn. apply perm_skip. symmetry. apply Permutation_cons_append.
Qed.

Lemma heappop_nil : heappop lt [] = Raise IndexError.
Proof. reflexivity. Qed.
End HeapqTheory.

(** * Comparisons of floats and of [(time, server)] tuples *)

Lemma Qlt_bool_iff (a b : Q) : Qlt_bool a b = true <-> a < b.
Proof.
  unfold Qlt_bool. rewrite negb_true_iff.
  destruct (Qle_bool b a) eqn:E.
  - apply Qle_bool_iff in E. split; [discriminate | lra].
  - split; [intros _ | reflexivity].
    destruct (Qlt_le_dec a b) as [H|H]; [assumption|].
    apply Qle_bool_iff in H. congruence.
Qed.

Lemma Qlt_bool_false (a b : Q) : Qlt_bool a b = false <-> b <= a.
Proof.
  unfold Qlt_bool. rewrite negb_false_iff. apply Qle_bool_iff.
Qed.

Lemma Qle_bool_false (a b : Q) : Qle_bool a b = false <-> b < a.
Proof.
  rewrite <- Qlt_bool_iff. unfold Qlt_bool. now rewrite negb_true_iff.
Qed.

Lemma tuple_lt_iff (x y : Q * Z) : tuple_lt x y = true <-> tuple_less x y.
Proof.
  unfold tuple_lt, tuple_less.
  destruct (Qeq_bool (fst x) (fst y)) eqn:E; cbn [negb].
  - apply Qeq_bool_iff in E.
    destruct (Z.eqb_spec (snd x) (snd y)) as [Hz|Hz]; cbn [negb].
    + split; [discriminate|]. intros [H|[_ H]]; [lra | lia].
    + rewrite Z.ltb_lt. split; [auto|]. intros [H|[_ H]]; [lra | assumption].
  - apply Qeq_bool_neq in E. rewrite Qlt_bool_iff.
    split; [auto|]. intros [H|[H _]]; [assumption | contradiction].
Qed.

Lemma tuple_lt_false (x y : Q * Z) :
  tuple_lt x y = false <-> fst y < fst x \/ (fst y == fst x /\ (snd y <= snd x)%Z).
Proof.
  rewrite <- not_true_iff_false, tuple_lt_iff. unfold tuple_less.
  destruct (Qlt_le_dec (fst y) (fst x)) as [H|H].
  - split; [auto|]. intros _ [H'|[H' _]]; lra.
  - destruct (Qlt_le_dec (fst x) (fst y)) as [H'|H'].
    + split; [intros Hn; exfalso; auto | intros [H1|[H1 _]]; lra].
    + assert (E : fst y == fst x) by lra.
      split.
      * intros Hn. right. split; [assumption|].
        destruct (Z.le_gt_cases (snd y) (snd x)) as [Hz|Hz]; [assumption|].
        exfalso. apply Hn. right. split; [lra | lia].
      * intros [H1|[_ H1]] [H2|[_ H2]]; try lra; lia.
Qed.

Lemma tuple_lt_asym (x y : Q * Z) : tuple_lt x y = true -> tuple_lt y x = false.
Proof.
  rewrite tuple_lt_iff, tuple_lt_false. unfold tuple_less.
  intros [H|[H1 H2]]; [left; assumption | right; split; [assumption | lia]].
Qed.

Lemma tuple_nlt_trans (x y z : Q * Z) :
  tuple_lt y x = false -> tuple_lt z y = false -> tuple_lt z x = false.
Proof.
  rewrite !tuple_lt_false.
  intros [H1|[H1 H1']] [H2|[H2 H2']]; try (left; lra).
  right. split; [lra | lia].
Qed.

Lemma horizon_push h x :
  horizon_ok h ->
  exists h', heappush tuple_lt h x = Ok h' /\ horizon_ok h' /\ h' ≡ₚ x :: h.
Proof. apply heappush_ok; [apply tuple_lt_asym | apply tuple_nlt_trans]. Qed.

Lemma horizon_pop h :
  horizon_ok h -> h <> [] ->
  exists m h',
    heappop tuple_lt h = Ok (m, h') /\ h !! 0%nat = Some m /\ horizon_ok h' /\ h ≡ₚ m :: h'.
Proof. apply heappop_ok; [apply tuple_lt_asym | apply tuple_nlt_trans]. Qed.

(** The root of the event horizon has the least time and, among the
    entries with that time, the least server index. *)
Lemma horizon_root_least h m :
  horizon_ok h -> h !! 0%nat = Some m ->
  forall x, In x h -> fst m <= fst x /\ (fst x == fst m -> (snd m <= snd x)%Z).
Proof.
  intros Hh Hm x Hx.
  apply list_elem_of_In, list_elem_of_lookup in Hx. destruct Hx as [i Hi].
  pose proof (heap_root_least tuple_lt tuple_lt_asym tuple_nlt_trans h m Hh Hm i x Hi) as H.
  apply tuple_lt_false in H. destruct H as [H|[H H']].
  - split; [lra | intros E; lra].
  - split; [lra | intros _; assumption].
Qed.

(** * [pct] *)

Lemma insert_sorted_perm x l : insert_sorted x l ≡ₚ x :: l.
Proof.
  induction l as [|y l IH]; cbn [insert_sorted]; [reflexivity|].
  destruct (Qle_bool x y); [reflexivity|].
  rewrite IH. apply perm_swap.
Qed.

Lemma sorted_perm values : sorted values ≡ₚ values.
Proof.
  induction values as [|x l IH]; [reflexivity|].
  cbn [sorted foldr]. fold (sorted l). now rewrite insert_sorted_perm, IH.
Qed.

Lemma sorted_length values : length (sorted values) = length values.
Proof. apply Permutation_length, sorted_perm. Qed.

Lemma insert_sorted_Sorted x l : Sorted Qle l -> Sorted Qle (insert_sorted x l).
Proof.
  induction 1 as [|y l Hs IH Hhd]; cbn [insert_sorted].
  - repeat constructor.
  - destruct (Qle_bool x y) eqn:E.
    + apply Qle_bool_iff in E. constructor; [now constructor|].
      now constructor.
    + apply Qle_bool_false in E. constructor; [assumption|].
      destruct Hhd as [|z l' Hyz]; cbn [insert_sorted].
      * constructor. lra.
      * destruct (Qle_bool x z); constructor; [lra | assumption].
Qed.

Lemma sorted_Sorted values : Sorted Qle (sorted values).
Proof.
  induction values as [|x l IH]; [constructor|].
  cbn [sorted foldr]. now apply insert_sorted_Sorted.
Qed.

Lemma getitem_Z_nonneg {A} (l : list A) (i : Z) :
  (0 <= i)%Z -> getitem_Z l i = getitem l (Z.to_nat i).
Proof.
  intros Hi. unfold getitem_Z.
  destruct (Z.leb_spec 0 i); [reflexivity | lia].
Qed.

(** The rank position of [pct] lies inside the sample. *)
Lemma rank_bounds (p : Q) (n : nat) :
  0 <= p <= 100 -> (0 < n)%nat ->
  let k := (p / 100) * inject_Z (Z.of_nat n - 1) in
  (0 <= Qfloor k)%Z /\ (Qfloor k <= Qceiling k)%Z /\ (Qceiling k < Z.of_nat n)%Z.
Proof.
  intros [Hp0 Hp1] Hn k.
  set (m := (Z.of_nat n - 1)%Z) in *.
  assert (Hm : 0 <= inject_Z m).
  { change 0 with (inject_Z 0). rewrite <- Zle_Qle. lia. }
  assert (Hk0 : 0 <= k).
  { unfold k. apply Qmult_le_0_compat; [|assumption].
    apply Qle_shift_div_l; lra. }
  assert (Hk1 : k <= inject_Z m).
  { unfold k. rewrite <- (Qmult_1_l (inject_Z m)) at 2.
    apply Qmult_le_compat_r; [|assumption].
    apply Qle_shift_div_r; lra. }
  split; [|split].
  - change 0%Z with (Qfloor 0). now apply Qfloor_resp_le.
  - rewrite Zle_Qle. apply Qle_floor_ceiling.
  - apply Qceiling_resp_le in Hk1. rewrite Qceiling_Z in Hk1. lia.
Qed.

(** C4.  For a non-empty sample and [p] in [[0, 100]], [pct] returns
    [s[floor k] + (s[ceil k] - s[floor k]) * (k - floor k)] with
    [k = (p / 100) * (len - 1)], where [s] is the sample sorted (a sorted
    permutation of it); [pct([1,2,3,4], 50)] is [2.5], [pct([5], p)] is [5]
    and [pct([], p)] is [0] for every [p]. *)
Theorem pct_interpolates :
  (forall (values : list Q) (p : Q),
     values <> [] -> 0 <= p <= 100 ->
     let s := sorted values in
     let k := (p / 100) * inject_Z (Z.of_nat (length values) - 1) in
     s ≡ₚ values /\ Sorted Qle s /\
     exists v slo shi,
       pct values p = Ok v /\
       s !! Z.to_nat (Qfloor k) = Some slo /\
       s !! Z.to_nat (Qceiling k) = Some shi /\
       v == slo + (shi - slo) * (k - inject_Z (Qfloor k))) /\
  (exists v, pct [1; 2; 3; 4] 50 = Ok v /\ v == 5 # 2) /\
  (forall p, pct [5] p = Ok 5) /\
  (forall p, pct [] p = Ok 0).
Proof.
  split; [|split; [|split]].
  - intros values p Hne Hp s k.
    split; [apply sorted_perm|]. split; [apply sorted_Sorted|].
    assert (Hlen : (0 < length values)%nat) by (destruct values; [congruence | cbn; lia]).
    destruct (rank_bounds p (length values) Hp Hlen) as (Hlo & Hlohi & Hhi).
    fold k in Hlo, Hlohi, Hhi.
    destruct (lookup_lt_is_Some_2 s (Z.to_nat (Qfloor k))) as [slo Hslo].
    { unfold s. rewrite sorted_length. lia. }
    destruct (lookup_lt_is_Some_2 s (Z.to_nat (Qceiling k))) as [shi Hshi].
    { unfold s. rewrite sorted_length. lia. }
    unfold pct. rewrite (proj2 (truthy_true values) Hne). cbn [negb].
    rewrite sorted_length. fold s. fold k.
    rewrite !getitem_Z_nonneg by lia.
    rewrite (getitem_Some _ _ _ Hslo), (getitem_Some _ _ _ Hshi).
    destruct (Z.eqb_spec (Qfloor k) (Qceiling k)) as [E|E].
    + exists slo, slo, shi. repeat split; try assumption.
      rewrite <- E in Hshi. rewrite Hslo in Hshi. inversion Hshi; subst. ring.
    + cbn [rbind]. eexists _, slo, shi. repeat split; try assumption.
  - eexists. split; [vm_compute; reflexivity | reflexivity].
  - intros p. unfold pct. cbn [truthy negb sorted foldr insert_sorted length].
    assert (E : p / 100 * inject_Z (Z.of_nat 1 - 1) == 0) by apply Qmult_0_r.
    rewrite (Qfloor_comp _ _ E), (Qceiling_comp _ _ E). reflexivity.
  - reflexivity.
Qed.

Lemma pct_interpolates_witness :
  exists v, pct [3; 1; 2] 25 = Ok v /\ v == 3 # 2.
Proof.
  destruct pct_interpolates as [H _].
  destruct (H [3; 1; 2] 25) as (_ & _ & v & slo & shi & Hv & Hslo & Hshi & E).
  - discriminate.
  - split; [discriminate | discriminate].
  - exists v. split; [assumption|].
    vm_compute in Hslo, Hshi. inversion Hslo; inversion Hshi; subst.
    rewrite E. reflexivity.
Defined.

(** * The event loop *)

Lemma Qsum_app l1 l2 : Qsum (l1 ++ l2) == Qsum l1 + Qsum l2.
Proof.
  induction l1 as [|x l1 IH]; cbn [app Qsum]; [ring | rewrite IH; ring].
Qed.

Lemma Qsum_perm l1 l2 : l1 ≡ₚ l2 -> Qsum l1 == Qsum l2.
Proof.
  induction 1 as [|x l1 l2 _ IH|x y l|l1 l2 l3 _ IH1 _ IH2]; cbn [Qsum].
  - reflexivity.
  - now rewrite IH.
  - ring.
  - now rewrite IH1.
Qed.

Lemma increasing_nil {A} (R : A -> A -> Prop) : increasing R [].
Proof. intros i a b H. now rewrite lookup_nil in H. Qed.

Lemma increasing_snoc {A} (R : A -> A -> Prop) (l : list A) (x : A) :
  increasing R l -> Forall (fun a => R a x) l -> increasing R (l ++ [x]).
Proof.
  intros Hl Hx i a b Ha Hb.
  apply lookup_snoc_Some in Hb. destruct Hb as [(Hi & Hb) | (Hi & <-)].
  - rewrite lookup_app_l in Ha by lia. now apply (Hl i).
  - rewrite lookup_app_l in Ha by lia.
    apply (Forall_lookup_1 _ _ i a Hx Ha).
Qed.

Section EventLoop.
Variable expovariate : nat -> Q -> Q.
Variables (clients : Z) (arrival_rate service_rate : Q) (counters : Z).

Local Abbreviation exp_time_ := (exp_time expovariate).
Local Abbreviation arrival_event_ := (arrival_event expovariate arrival_rate).
Local Abbreviation assign_ := (assign expovariate service_rate).
Local Abbreviation event_ := (event expovariate clients arrival_rate).
Local Abbreviation step_ := (step expovariate clients arrival_rate service_rate).
Local Abbreviation run_ := (run expovariate clients arrival_rate service_rate).
Local Abbreviation loop_inv := (loop_inv clients counters).
Local Abbreviation time_inv := (time_inv clients).
Local Abbreviation transition := (transition expovariate clients arrival_rate service_rate).
Local Abbreviation measure := (measure clients).
Local Abbreviation step_to := (step_to expovariate clients arrival_rate service_rate).
Local Abbreviation initial_config := (initial_config expovariate arrival_rate counters).
Local Abbreviation reachable :=
  (reachable expovariate clients arrival_rate service_rate counters).

Lemma exp_time_pos rate n :
  0 < rate -> exp_time_ rate n = (Ok (expovariate n rate), S n).
Proof.
  intros Hr. unfold exp_time.
  now rewrite (proj2 (Qle_bool_false rate 0) Hr).
Qed.

Lemma arrival_event_eq s n :
  0 < arrival_rate ->
  arrival_event_ s n = (Ok (arrival_state s (expovariate n arrival_rate)), S n).
Proof.
  intros Hr. unfold arrival_event, bind. now rewrite exp_time_pos.
Qed.

Lemma completion_event_eq s n m h' :
  heappop tuple_lt (busy_heap s) = Ok (m, h') ->
  completion_event s n = (Ok (completion_state s m h'), n).
Proof.
  intros Hpop. unfold completion_event, bind, lift. rewrite Hpop.
  now destruct m.
Qed.

Lemma assign_eq s n fs idx c q h' :
  0 < service_rate ->
  free_servers s = fs ++ [idx] -> queue s = c :: q ->
  heappush tuple_lt (busy_heap s)
    (t s + expovariate n service_rate, idx) = Ok h' ->
  assign_ s n = (Ok (assign_state s fs c q (expovariate n service_rate) h'), S n).
Proof.
  intros Hr Hfree Hqueue Hpush. unfold assign, bind, lift.
  rewrite Hfree, list_pop_snoc, Hqueue. cbn [list_pop0].
  rewrite exp_time_pos by assumption. cbn [service_end].
  now rewrite Hpush.
Qed.
Hypothesis counters_valid : (1 <= counters)%Z.
Hypothesis clients_valid : (1 <= clients)%Z.
Hypothesis arrival_rate_valid : 0 < arrival_rate.
Hypothesis service_rate_valid : 0 < service_rate.

Lemma range_length n : length (range n) = Z.to_nat n.
Proof. unfold range. now rewrite length_map, length_seq. Qed.

Lemma initial_inv d : loop_inv LoopHead (initial_state counters d).
Proof.
  constructor; cbn; auto using heap_ordered_nil, increasing_nil; try lia.
  apply heap_ordered_nil.
Qed.

Lemma transition_inv x y :
  transition x y -> loop_inv (fst (fst x)) (snd (fst x)) ->
  loop_inv (fst (fst y)) (snd (fst y)).
Proof.
  intros Htr. destruct Htr as [s n Hserved Hid Hle | s n m h' Hserved Harr Hpop Hroot Hperm Hh'
    | s n fs idx c q h' Hfree Hqueue Hpush Hperm Hh' | s n Hidle]; cbn [fst snd]; intros Hinv;
    destruct Hinv as [Hsrv Hheap Hcount Hs0 Hcl Hid' Hwaits Hass Hpeak Hpeaks].
  - constructor; cbn; try assumption; try discriminate.
    + rewrite length_app. cbn. lia.
    + lia.
    + destruct (Z.ltb_spec (max_queue s) (Z.of_nat (length (queue s ++ [mkClient (client_id s + 1) (next_arrival s) 0 0])))) as [Hlt|Hge].
      * apply Forall_app. split; [|repeat constructor; cbn; lia].
        eapply Forall_impl; [exact Hpeak|]. cbn. intros; lia.
      * assumption.
    + destruct (Z.ltb_spec (max_queue s) (Z.of_nat (length (queue s ++ [mkClient (client_id s + 1) (next_arrival s) 0 0])))) as [Hlt|Hge].
      * apply increasing_snoc; [assumption|].
        eapply Forall_impl; [exact Hpeak|]. cbn. intros; lia.
      * assumption.
  - constructor; cbn; try assumption; try discriminate.
    + rewrite <- Hsrv, Hperm. cbn [map].
      rewrite (assoc_L app), <- Permutation_cons_append. reflexivity.
    + apply Permutation_length in Hperm. cbn in Hperm. lia.
    + lia.
    + apply Permutation_length in Hperm. cbn in Hperm. lia.
  - constructor; cbn; try assumption; try discriminate.
    + rewrite <- Hsrv, Hperm, Hfree. cbn [map snd].
      rewrite (assoc_L app), <- Permutation_cons_append. reflexivity.
    + apply Permutation_length in Hperm. rewrite Hqueue in Hcount. cbn in Hperm, Hcount. lia.
    + now rewrite map_app, Hwaits.
    + apply Permutation_length in Hperm. rewrite length_app. cbn in Hperm |- *. lia.
  - constructor; cbn; try assumption. auto.
Qed.

Lemma transition_measure x y : transition x y -> (measure y < measure x)%nat.
Proof.
  intros Htr. destruct Htr as [s n Hserved Hid Hle | s n m h' Hserved Harr Hpop Hroot Hperm Hh'
    | s n fs idx c q h' Hfree Hqueue Hpush Hperm Hh' | s n Hidle]; cbn.
  - rewrite length_app. cbn. lia.
  - lia.
  - rewrite Hqueue. cbn. lia.
  - lia.
Qed.
Lemma range_nonempty : range counters <> [].
Proof.
  intros E. apply (f_equal length) in E. rewrite range_length in E. cbn in E. lia.
Qed.

(** Under the invariant a step never raises: it leaves the loop with all
    clients served, or it is one of the four moves. *)
Lemma step_transition pc s n :
  loop_inv pc s ->
  (step_ (pc, s) n = (Ok None, n) /\ pc = LoopHead /\ (clients <= served s)%Z) \/
  (exists y, step_ (pc, s) n = (Ok (Some (fst y)), snd y) /\ transition (pc, s, n) y).
Proof.
  intros Hinv. destruct pc; unfold step.
  - destruct (Z.ltb_spec (served s) clients) as [Hserved|Hserved]; [right | left; auto].
    unfold bind, event. destruct (is_arrival clients s) eqn:Harr.
    + rewrite arrival_event_eq by assumption.
      eexists (_, _, _). split; [reflexivity|].
      unfold is_arrival in Harr. apply andb_true_iff in Harr. destruct Harr as [Hle Hid].
      apply t_arrival; [assumption | lia | assumption].
    + assert (Hne : busy_heap s <> []).
      { intros Hnil. unfold is_arrival, next_completion in Harr.
        rewrite Hnil in Harr. cbn [xle_bool andb] in Harr.
        apply Z.ltb_ge in Harr.
        pose proof (inv_servers Hinv) as Hsrv.
        pose proof (inv_count Hinv) as Hcount.
        rewrite Hnil in Hsrv, Hcount. cbn in Hsrv, Hcount.
        destruct (inv_idle Hinv eq_refl) as [Hfree|Hqueue].
        - rewrite Hfree in Hsrv. apply Permutation_nil_l in Hsrv.
          now apply range_nonempty.
        - rewrite Hqueue in Hcount. cbn in Hcount. lia. }
      destruct (horizon_pop _ (inv_heap Hinv) Hne) as (m & h' & Hpop & Hroot & Hh' & Hperm).
      rewrite (completion_event_eq s n m h' Hpop).
      eexists (_, _, _). split; [reflexivity|].
      now apply t_completion.
  - right. destruct (truthy (free_servers s)) eqn:Hfree; cbn [andb].
    + destruct (truthy (queue s)) eqn:Hqueue.
      * apply truthy_true in Hfree, Hqueue.
        destruct (exists_last Hfree) as (fs & idx & Hfs).
        destruct (queue s) as [|c q] eqn:Hq; [congruence|].
        destruct (horizon_push (busy_heap s) (t s + expovariate n service_rate, idx)
                    (inv_heap Hinv)) as (h' & Hpush & Hh' & Hperm).
        unfold bind. rewrite (assign_eq s n fs idx c q h') by assumption.
        eexists (_, _, _). split; [reflexivity|].
        now apply (t_assign _ _ _ _ s n fs idx c q h').
      * apply truthy_false in Hqueue.
        eexists (_, _, _). split; [reflexivity|]. apply t_exit. auto.
    + apply truthy_false in Hfree.
      eexists (_, _, _). split; [reflexivity|]. apply t_exit. auto.
Qed.

Lemma step_to_transition x y :
  loop_inv (fst (fst x)) (snd (fst x)) -> step_to x y -> transition x y.
Proof.
  destruct x as [[pc s] n]. cbn [fst snd]. intros Hinv Hstep.
  red in Hstep. cbn [fst snd] in Hstep.
  destruct (step_transition pc s n Hinv) as [(Hnone & _) | (y' & Hsome & Htr)].
  - rewrite Hnone in Hstep. discriminate.
  - rewrite Hsome in Hstep. inversion Hstep as [[E1 E2]].
    destruct y as [cy ny], y' as [cy' ny']. cbn [fst snd] in *. now subst.
Qed.

Lemma reachable_inv n0 x : reachable n0 x -> loop_inv (fst (fst x)) (snd (fst x)).
Proof.
  intros Hreach.
  apply (rtc_ind_r (R:=step_to) (fun x => loop_inv (fst (fst x)) (snd (fst x))) (initial_config n0));
    [| |exact Hreach].
  - apply initial_inv.
  - intros y z Hxy Hyz IH.
    apply (transition_inv y z); [|assumption]. now apply step_to_transition.
Qed.

(** With more fuel than [measure], [run] leaves the loop, through
    configurations linked by [step_to], with all clients served. *)
Lemma run_ok fuel pc s n :
  loop_inv pc s -> (measure (pc, s, n) < fuel)%nat ->
  exists s' n',
    run_ fuel (pc, s) n = (Ok s', n') /\
    rtc step_to (pc, s, n) (LoopHead, s', n') /\ (clients <= served s')%Z.
Proof.
  revert pc s n. induction fuel as [|fuel IH]; intros pc s n Hinv Hfuel; [lia|].
  cbn [run]. unfold bind.
  destruct (step_transition pc s n Hinv) as [(-> & -> & Hdone) | ([[pc' s'] n'] & Hstep & Htr)].
  - exists s, n. cbn. split; [reflexivity|]. split; [apply rtc_refl | assumption].
  - rewrite Hstep. cbn [fst snd].
    destruct (IH pc' s' n') as (s'' & n'' & Hrun & Hsteps & Hdone).
    + apply (transition_inv _ _ Htr Hinv).
    + apply transition_measure in Htr. lia.
    + exists s'', n''. split; [assumption|]. split; [|assumption].
      eapply rtc_l; [|exact Hsteps]. exact Hstep.
Qed.
(** ** Times, under non-negative variates *)

Lemma inject_nat_nonneg (n : nat) : 0 <= inject_Z (Z.of_nat n).
Proof. change 0 with (inject_Z 0). rewrite <- Zle_Qle. lia. Qed.

Lemma inject_length_snoc {A} (l : list A) (x : A) :
  inject_Z (Z.of_nat (length (l ++ [x]))) == inject_Z (Z.of_nat (length l)) + 1.
Proof.
  rewrite length_app, Nat2Z.inj_add, inject_Z_plus. reflexivity.
Qed.

Hypothesis variates_nonneg : forall n rate, 0 < rate -> 0 <= expovariate n rate.

Lemma initial_time_inv d : 0 <= d -> time_inv (initial_state counters d).
Proof.
  intros Hd. constructor; cbn; auto; try lra.
Qed.

(** When the arrival is not later than the next completion, it is not later
    than any pending completion. *)
Lemma arrival_before_all s :
  horizon_ok (busy_heap s) ->
  xle_bool (Fin (next_arrival s)) (next_completion s) = true ->
  Forall (fun e => next_arrival s <= fst e) (busy_heap s).
Proof.
  intros Hheap Hle. unfold next_completion in Hle.
  destruct (busy_heap s) as [|m h] eqn:Hh; [constructor|].
  cbn [xle_bool] in Hle. apply Qle_bool_iff in Hle.
  apply Forall_forall. intros e He. apply list_elem_of_In in He.
  destruct (horizon_root_least (m :: h) m Hheap eq_refl e He) as [Hme _]. lra.
Qed.

Lemma transition_time_inv x y :
  transition x y -> loop_inv (fst (fst x)) (snd (fst x)) ->
  time_inv (snd (fst x)) -> time_inv (snd (fst y)).
Proof.
  intros Htr. destruct Htr as [s n Hserved Hid Hle | s n m h' Hserved Harr Hpop Hroot Hperm Hh'
    | s n fs idx c q h' Hfree Hqueue Hpush Hperm Hh' | s n Hidle]; cbn [fst snd];
    intros Hinv [Ht Hheap Hnext Hq Hass Hbusy Hsum].
  - pose proof (variates_nonneg n arrival_rate arrival_rate_valid) as Hd.
    pose proof (Hnext Hid) as Htn.
    constructor; cbn.
    + lra.
    + apply (arrival_before_all s (inv_heap Hinv) Hle).
    + intros _. lra.
    + apply Forall_app. split; [|repeat constructor; cbn; lra].
      eapply Forall_impl; [exact Hq|]. cbn. intros; lra.
    + assumption.
    + unfold idle in *. cbn.
      pose proof (inject_nat_nonneg (length (free_servers s))). nra.
    + assumption.
  - assert (Htm : t s <= fst m).
    { apply (Forall_lookup_1 _ _ _ _ Hheap Hroot). }
    assert (Hrest : Forall (fun e => fst m <= fst e) h').
    { apply Forall_forall. intros e He.
      assert (Hin : In e (busy_heap s)).
      { apply list_elem_of_In. rewrite Hperm. now right. }
      apply (horizon_root_least _ m (inv_heap Hinv) Hroot e Hin). }
    assert (Hsumh : Qsum (map fst (busy_heap s)) == fst m + Qsum (map fst h')).
    { rewrite (Qsum_perm _ (map fst (m :: h'))) by (now apply Permutation_map).
      reflexivity. }
    constructor; cbn.
    + lra.
    + assumption.
    + intros Hid. unfold is_arrival, next_completion in Harr.
      destruct (busy_heap s) as [|m' h] eqn:Hh; [discriminate|].
      cbn in Hroot. inversion Hroot; subst m'.
      apply andb_false_iff in Harr. destruct Harr as [Harr|Harr].
      * cbn [xle_bool] in Harr. apply Qle_bool_false in Harr. lra.
      * apply Z.ltb_ge in Harr. lia.
    + eapply Forall_impl; [exact Hq|]. cbn. intros; lra.
    + assumption.
    + unfold idle in *. cbn. rewrite inject_length_snoc.
      pose proof (inject_nat_nonneg (length (free_servers s))). nra.
    + assumption.
  - pose proof (variates_nonneg n service_rate service_rate_valid) as Hd.
    rewrite Hqueue in Hq. apply Forall_cons in Hq. destruct Hq as [Hc Hq].
    constructor; cbn.
    + assumption.
    + rewrite Hperm. constructor; [cbn; lra | assumption].
    + assumption.
    + assumption.
    + apply Forall_app. split; [assumption|]. repeat constructor; cbn; lra.
    + unfold idle in *. cbn. rewrite Hfree, inject_length_snoc in Hbusy.
      rewrite (Qsum_perm _ (map fst ((t s + expovariate n service_rate, idx) :: busy_heap s)))
        by (now apply Permutation_map).
      cbn. lra.
    + rewrite map_app, Qsum_app, <- Hsum. unfold service_time. cbn. ring.
  - constructor; assumption.
Qed.

Lemma reachable_time_inv n0 x : reachable n0 x -> time_inv (snd (fst x)).
Proof.
  intros Hreach.
  apply (rtc_ind_r (R:=step_to) (fun x => time_inv (snd (fst x))) (initial_config n0));
    [| |exact Hreach].
  - apply initial_time_inv. now apply variates_nonneg.
  - intros y z Hxy Hyz IH.
    assert (Hinv : loop_inv (fst (fst y)) (snd (fst y))) by (now apply (reachable_inv n0)).
    apply (transition_time_inv y z); [|assumption|assumption].
    now apply step_to_transition.
Qed.
(** ** Congestion milestones *)

Lemma transition_miles (R : Q -> Q -> Prop) x y :
  (forall a b c, R a b -> R b c -> R a c) ->
  (forall n b, R b (b + expovariate n arrival_rate)) ->
  transition x y -> miles_inv R (snd (fst x)) -> miles_inv R (snd (fst y)).
Proof.
  intros Rtrans Rdraw Htr.
  destruct Htr as [s n Hserved Hid Hle | s n m h' Hserved Harr Hpop Hroot Hperm Hh'
    | s n fs idx c q h' Hfree Hqueue Hpush Hperm Hh' | s n Hidle]; cbn [fst snd];
    intros [Hnext Hinc]; try (split; assumption).
  unfold miles_inv, arrival_state. cbn.
  assert (Hold : Forall (fun m => R (fst m) (next_arrival s + expovariate n arrival_rate))
                   (queue_max_times s)).
  { eapply Forall_impl; [exact Hnext|]. cbn. intros m Hm.
    apply (Rtrans _ _ _ Hm). apply Rdraw. }
  destruct (max_queue s <? _)%Z; split; try assumption.
  - apply Forall_app. split; [assumption|]. repeat constructor. cbn. apply Rdraw.
  - apply increasing_snoc; assumption.
Qed.

Lemma reachable_miles (R : Q -> Q -> Prop) n0 x :
  (forall a b c, R a b -> R b c -> R a c) ->
  (forall n b, R b (b + expovariate n arrival_rate)) ->
  reachable n0 x -> miles_inv R (snd (fst x)).
Proof.
  intros Rtrans Rdraw Hreach.
  apply (rtc_ind_r (R:=step_to) (fun x => miles_inv R (snd (fst x))) (initial_config n0));
    [| |exact Hreach].
  - split; [constructor | apply increasing_nil].
  - intros y z Hxy Hyz IH.
    assert (Hinv : loop_inv (fst (fst y)) (snd (fst y))) by (now apply (reachable_inv n0)).
    apply (transition_miles R y z); try assumption.
    now apply step_to_transition.
Qed.

(** ** The whole run *)

Local Abbreviation final_state_ :=
  (final_state expovariate clients arrival_rate service_rate counters).
Local Abbreviation simulate_queue_ :=
  (simulate_queue expovariate clients arrival_rate service_rate counters).

Lemma final_state_eq n0 :
  final_state_ n0
  = run_ (loop_fuel clients)
      (LoopHead, initial_state counters (expovariate n0 arrival_rate)) (S n0).
Proof.
  unfold final_state.
  destruct (Z.ltb_spec counters 1); [lia|].
  destruct (Z.ltb_spec clients 1); [lia|].
  rewrite (proj2 (Qle_bool_false arrival_rate 0) arrival_rate_valid).
  rewrite (proj2 (Qle_bool_false service_rate 0) service_rate_valid).
  cbn [orb]. unfold bind. now rewrite exp_time_pos.
Qed.

(** The loop is left, by a reachable configuration in which every client
    has arrived and been served and nothing is pending. *)
Lemma final_state_ok n0 :
  exists s n',
    final_state_ n0 = (Ok s, n') /\ reachable n0 (LoopHead, s, n') /\
    served s = clients /\ client_id s = clients /\ queue s = [] /\ busy_heap s = [].
Proof.
  rewrite final_state_eq.
  destruct (run_ok (loop_fuel clients) LoopHead
              (initial_state counters (expovariate n0 arrival_rate)) (S n0))
    as (s & n' & Hrun & Hsteps & Hdone).
  - apply initial_inv.
  - unfold loop_fuel. cbn. lia.
  - exists s, n'. split; [assumption|]. split; [exact Hsteps|].
    pose proof (reachable_inv n0 _ Hsteps) as Hinv. cbn [fst snd] in Hinv.
    pose proof (inv_count Hinv). pose proof (inv_client Hinv).
    repeat split; try lia.
    + destruct (queue s); [reflexivity | cbn in *; lia].
    + destruct (busy_heap s); [reflexivity | cbn in *; lia].
Qed.

Lemma simulate_queue_eq n0 s n' :
  final_state_ n0 = (Ok s, n') ->
  simulate_queue_ n0
  = (Ok (make_result clients arrival_rate service_rate counters s), n').
Proof. intros H. unfold simulate_queue, bind. now rewrite H. Qed.

(** More fuel does not change what a run gives. *)
Lemma run_more fuel fuel' cfg n s n' :
  run_ fuel cfg n = (Ok s, n') -> (fuel <= fuel')%nat -> run_ fuel' cfg n = (Ok s, n').
Proof.
  revert fuel' cfg n. induction fuel as [|fuel IH]; intros fuel' cfg n Hrun Hle;
    [discriminate|].
  destruct fuel' as [|fuel']; [lia|].
  cbn [run] in *. unfold bind in *.
  destruct (step_ cfg n) as [[[cfg'|]| |] n1]; try assumption.
  apply IH; [assumption | lia].
Qed.
(** A step of the inner loop that stays in it is an assignment: the last
    free server goes to the head of the queue. *)
Lemma assignment_step n0 s n y :
  reachable n0 (AssignHead, s, n) -> step_to (AssignHead, s, n) y ->
  fst (fst y) = AssignHead ->
  exists fs idx c q h',
    free_servers s = fs ++ [idx] /\ queue s = c :: q /\
    h' ≡ₚ (t s + expovariate n service_rate, idx) :: busy_heap s /\
    y = (AssignHead, assign_state s fs c q (expovariate n service_rate) h', S n).
Proof.
  intros Hreach Hstep Hpc.
  apply reachable_inv in Hreach.
  apply step_to_transition in Hstep; [|assumption].
  inversion Hstep as [| |s0 n1 fs idx c q h' Hfree Hqueue Hpush Hperm Hh'|]; subst.
  - exists fs, idx, c, q, h'. auto.
  - discriminate.
Qed.

(** A step of the outer loop that serves somebody is a completion: the root
    of the event horizon is popped and its server joins the free list at
    the end. *)
Lemma completion_step n0 s n y :
  reachable n0 (LoopHead, s, n) -> step_to (LoopHead, s, n) y ->
  served (snd (fst y)) <> served s ->
  exists m h',
    busy_heap s !! 0%nat = Some m /\ busy_heap s ≡ₚ m :: h' /\
    y = (AssignHead, completion_state s m h', n).
Proof.
  intros Hreach Hstep Hserved.
  apply reachable_inv in Hreach.
  apply step_to_transition in Hstep; [|assumption].
  inversion Hstep as [|s0 n1 m h' Hs Harr Hpop Hroot Hperm Hh'| |]; subst.
  - now cbn in Hserved.
  - exists m, h'. auto.
Qed.

(** The ghost field [assigned] is only written: steps from two states that
    differ in it alone have the same outcome, up to that field. *)
Lemma step_forget pc s n :
  forget_step (step_ (pc, forget s) n) = forget_step (step_ (pc, s) n).
Proof.
  destruct pc; unfold step; cbn [forget served free_servers queue].
  - destruct (served s <? clients)%Z; [|reflexivity].
    unfold bind, event, is_arrival, next_completion.
    cbn [forget busy_heap next_arrival client_id].
    destruct (xle_bool _ _ && _).
    + unfold arrival_event, bind, exp_time.
      destruct (Qle_bool arrival_rate 0); reflexivity.
    + unfold completion_event, bind, lift. cbn [forget busy_heap].
      destruct (heappop tuple_lt (busy_heap s)) as [[[t' idx] h']| |]; reflexivity.
  - destruct (truthy (free_servers s) && truthy (queue s)); [|reflexivity].
    unfold assign, bind, lift. cbn [forget free_servers queue].
    destruct (list_pop (free_servers s)) as [[fs idx]| |]; try reflexivity.
    destruct (list_pop0 (queue s)) as [[c q]| |]; try reflexivity.
    unfold exp_time. destruct (Qle_bool service_rate 0); [reflexivity|].
    cbn [forget t busy_heap service_end].
    destruct (heappush tuple_lt (busy_heap s) _); reflexivity.
Qed.

Lemma run_forget fuel pc s1 s2 n :
  forget s1 = forget s2 ->
  forget_run (run_ fuel (pc, s1) n) = forget_run (run_ fuel (pc, s2) n).
Proof.
  revert pc s1 s2 n. induction fuel as [|fuel IH]; intros pc s1 s2 n Hs; [reflexivity|].
  cbn [run]. unfold bind.
  pose proof (step_forget pc s1 n) as H1. pose proof (step_forget pc s2 n) as H2.
  rewrite Hs, H2 in H1. clear H2.
  destruct (step_ (pc, s1) n) as [[[[pc1 s1']|]| |] n1];
    destruct (step_ (pc, s2) n) as [[[[pc2 s2']|]| |] n2];
    cbn [forget_step] in H1; try discriminate; inversion H1; subst; try reflexivity.
  - apply IH. unfold forget. f_equal; congruence.
  - cbn. now rewrite Hs.
Qed.

Lemma make_result_forget s :
  make_result clients arrival_rate service_rate counters (forget s)
  = make_result clients arrival_rate service_rate counters s.
Proof. reflexivity. Qed.

Lemma Qsum_nonneg l : Forall (fun x => 0 <= x) l -> 0 <= Qsum l.
Proof.
  induction 1 as [|x l Hx _ IH]; cbn [Qsum]; lra.
Qed.
End EventLoop.

(** * Properties of the simulator *)

Lemma valid_not_invalid clients arrival_rate service_rate counters :
  valid_input clients arrival_rate service_rate counters <->
  ~ invalid_input clients arrival_rate service_rate counters.
Proof.
  unfold valid_input, invalid_input. split.
  - intros (H1 & H2 & H3 & H4) [H|[H|[H|H]]]; try lia; lra.
  - intros Hn. repeat split.
    + destruct (Z.le_gt_cases 1 clients); [assumption | exfalso; apply Hn; left; lia].
    + destruct (Qlt_le_dec 0 arrival_rate); [assumption | exfalso; apply Hn; auto].
    + destruct (Qlt_le_dec 0 service_rate); [assumption | exfalso; apply Hn; auto].
    + destruct (Z.le_gt_cases 1 counters); [assumption | exfalso; apply Hn; right; left; lia].
Qed.

Lemma invalid_input_dec clients arrival_rate service_rate counters :
  invalid_input clients arrival_rate service_rate counters \/
  ~ invalid_input clients arrival_rate service_rate counters.
Proof.
  unfold invalid_input.
  destruct (Z.lt_ge_cases clients 1); [auto|].
  destruct (Z.lt_ge_cases counters 1); [auto|].
  destruct (Qlt_le_dec 0 arrival_rate); [|auto].
  destruct (Qlt_le_dec 0 service_rate); [|auto].
  right. intros [H'|[H'|[H'|H']]]; try lia; lra.
Qed.

(** C1.  For every valid input and every variate stream (non-negative or
    not), [simulate_queue] returns a result and its [served] is the target
    count; the loop gives the same final state on any larger fuel. *)
Theorem simulate_queue_serves_all
    (expovariate : nat -> Q -> Q) (clients : Z) (arrival_rate service_rate : Q)
    (counters : Z) (n0 : nat) :
  valid_input clients arrival_rate service_rate counters ->
  exists s r n',
    simulate_queue expovariate clients arrival_rate service_rate counters n0 = (Ok r, n') /\
    SimResult.served r = clients /\
    r = make_result clients arrival_rate service_rate counters s /\
    forall fuel, (loop_fuel clients <= fuel)%nat ->
      run expovariate clients arrival_rate service_rate fuel
        (LoopHead, initial_state counters (expovariate n0 arrival_rate)) (S n0)
      = (Ok s, n').
Proof.
  intros (Hcl & Har & Hsr & Hco).
  destruct (final_state_ok expovariate clients arrival_rate service_rate counters
              Hco Hcl Har Hsr n0) as (s & n' & Hfin & _ & Hserved & _).
  exists s, (make_result clients arrival_rate service_rate counters s), n'.
  split; [now apply simulate_queue_eq|]. split; [exact Hserved|]. split; [reflexivity|].
  intros fuel Hfuel. rewrite final_state_eq in Hfin by assumption.
  now apply (run_more _ _ _ _ _ _ _ _ _ _ Hfin).
Qed.

Lemma simulate_queue_serves_all_witness :
  exists r n',
    simulate_queue (fixed_variates [1; 0; 5; 0] 1) 3 1 1 1 0%nat = (Ok r, n') /\
    SimResult.served r = 3%Z.
Proof.
  destruct (simulate_queue_serves_all (fixed_variates [1; 0; 5; 0] 1) 3 1 1 1 0%nat)
    as (s & r & n' & Hrun & Hserved & _).
  - repeat split; try lia; reflexivity.
  - exists r, n'. split; assumption.
Defined.

(** C9.  [simulate_queue] raises if and only if the target count or the
    server count is below 1 or a rate is not positive; it then raises
    [ValueError] before any variate is drawn, and on every other input it
    returns a result. *)
Theorem simulate_queue_raises_iff_invalid
    (expovariate : nat -> Q -> Q) (clients : Z) (arrival_rate service_rate : Q)
    (counters : Z) (n0 : nat) :
  ((exists e n',
      simulate_queue expovariate clients arrival_rate service_rate counters n0
      = (Raise e, n'))
   <-> invalid_input clients arrival_rate service_rate counters) /\
  (invalid_input clients arrival_rate service_rate counters ->
   exists msg,
     simulate_queue expovariate clients arrival_rate service_rate counters n0
     = (Raise (ValueError msg), n0)) /\
  (~ invalid_input clients arrival_rate service_rate counters ->
   exists r n',
     simulate_queue expovariate clients arrival_rate service_rate counters n0
     = (Ok r, n')).
Proof.
  assert (Hbad : invalid_input clients arrival_rate service_rate counters ->
    exists msg,
      simulate_queue expovariate clients arrival_rate service_rate counters n0
      = (Raise (ValueError msg), n0)).
  { intros Hinv. unfold simulate_queue, final_state, bind.
    destruct (Z.ltb_spec counters 1) as [Hco|Hco]; [eexists; reflexivity|].
    destruct (Z.ltb_spec clients 1) as [Hcl|Hcl]; [eexists; reflexivity|].
    destruct (Qle_bool arrival_rate 0) eqn:Har; [eexists; reflexivity|].
    destruct (Qle_bool service_rate 0) eqn:Hsr; [eexists; reflexivity|].
    apply Qle_bool_false in Har, Hsr.
    destruct Hinv as [H|[H|[H|H]]]; try lia; lra. }
  assert (Hgood : ~ invalid_input clients arrival_rate service_rate counters ->
    exists r n',
      simulate_queue expovariate clients arrival_rate service_rate counters n0
      = (Ok r, n')).
  { intros Hval. apply valid_not_invalid in Hval.
    destruct Hval as (Hcl & Har & Hsr & Hco).
    destruct (final_state_ok expovariate clients arrival_rate service_rate counters
                Hco Hcl Har Hsr n0) as (s & n' & Hfin & _).
    apply simulate_queue_eq in Hfin. eauto. }
  split; [|split; assumption].
  split.
  - intros (e & n' & Hraise).
    destruct (invalid_input_dec clients arrival_rate service_rate counters) as [H|H];
      [assumption|].
    destruct (Hgood H) as (r & n'' & Hok). rewrite Hok in Hraise. discriminate.
  - intros Hinv. destruct (Hbad Hinv) as (msg & Hraise). eauto.
Qed.

Lemma simulate_queue_raises_iff_invalid_witness :
  exists msg,
    simulate_queue (fixed_variates [] 1) 0 1 1 1 7%nat = (Raise (ValueError msg), 7%nat).
Proof.
  apply (proj1 (proj2 (simulate_queue_raises_iff_invalid (fixed_variates [] 1) 0 1 1 1 7%nat))).
  left. lia.
Defined.

(** C2.  When the next arrival is due exactly at the earliest pending
    completion time and fewer than [clients] arrivals were generated, the
    iteration is an ARRIVAL: time moves to the arrival, the client joins the
    queue and the peak check sees the longer queue, while the completion
    stays pending and its server stays busy. *)
Theorem tie_processes_arrival_first
    (expovariate : nat -> Q -> Q) (clients : Z) (arrival_rate service_rate : Q)
    (s : State) (n : nat) (tc : Q) (idx : Z) :
  0 < arrival_rate ->
  (served s < clients)%Z -> (client_id s < clients)%Z ->
  In (tc, idx) (busy_heap s) ->
  (forall e, In e (busy_heap s) -> tc <= fst e) ->
  next_arrival s == tc ->
  exists s',
    step expovariate clients arrival_rate service_rate (LoopHead, s) n
    = (Ok (Some (AssignHead, s')), S n) /\
    t s' = next_arrival s /\
    client_id s' = (client_id s + 1)%Z /\
    queue s' = queue s ++ [mkClient (client_id s + 1) (next_arrival s) 0 0] /\
    max_queue s' = Z.max (max_queue s) (Z.of_nat (length (queue s'))) /\
    ((max_queue s < Z.of_nat (length (queue s')))%Z ->
     queue_max_times s'
     = queue_max_times s ++ [(next_arrival s, Z.of_nat (length (queue s')))]) /\
    busy_heap s' = busy_heap s /\ In (tc, idx) (busy_heap s') /\
    free_servers s' = free_servers s /\ served s' = served s.
Proof.
  intros Har Hserved Hid Hin Hmin Htie.
  exists (arrival_state s (expovariate n arrival_rate)).
  assert (Harr : is_arrival clients s = true).
  { unfold is_arrival. apply andb_true_iff. split; [|now apply Z.ltb_lt].
    unfold next_completion. destruct (busy_heap s) as [|m h]; [reflexivity|].
    cbn [xle_bool]. apply Qle_bool_iff. rewrite Htie. apply Hmin. now left. }
  split.
  { unfold step. rewrite (proj2 (Z.ltb_lt _ _) Hserved).
    unfold bind, event. rewrite Harr. now rewrite arrival_event_eq. }
  cbn.
  destruct (Z.ltb_spec (max_queue s)
              (Z.of_nat (length (queue s ++ [mkClient (client_id s + 1) (next_arrival s) 0 0]))))
    as [Hlt|Hge]; repeat split; auto; try lia.
Qed.

Lemma tie_processes_arrival_first_witness :
  exists s',
    step (fixed_variates [] 1) 2 1 1
      (LoopHead, mkState 1 3 [] [(3, 0%Z)] [] 0 1 [0] 1 [(1, 1%Z)] 2 [mkClient 1 1 1 3]) 5%nat
    = (Ok (Some (AssignHead, s')), 6%nat) /\
    queue s' = [mkClient 2 3 0 0] /\ busy_heap s' = [(3, 0%Z)].
Proof.
  destruct (tie_processes_arrival_first (fixed_variates [] 1) 2 1 1
              (mkState 1 3 [] [(3, 0%Z)] [] 0 1 [0] 1 [(1, 1%Z)] 2 [mkClient 1 1 1 3])
              5%nat 3 0%Z) as (s' & Hstep & _ & _ & Hq & _ & _ & Hh & _).
  - reflexivity.
  - cbn. lia.
  - cbn. lia.
  - cbn. now left.
  - cbn. intros e [<-|[]]. cbn. lra.
  - reflexivity.
  - exists s'. auto.
Defined.

Lemma NoDup_map_of_nat (l : list nat) : NoDup l -> NoDup (map Z.of_nat l).
Proof.
  induction 1 as [|x l Hx Hl IH]; cbn [map]; constructor; [|assumption].
  intros Hin. apply list_elem_of_In, in_map_iff in Hin.
  destruct Hin as (y & Hy & Hin). apply Nat2Z.inj in Hy. subst y.
  apply Hx. now apply list_elem_of_In.
Qed.

Lemma NoDup_range n : NoDup (range n).
Proof. apply NoDup_map_of_nat, NoDup_seq. Qed.

Lemma range_snoc n : (1 <= n)%Z -> range n = range (n - 1) ++ [(n - 1)%Z].
Proof.
  intros Hn. unfold range.
  replace (Z.to_nat n) with (S (Z.to_nat (n - 1))) by lia.
  rewrite seq_S, map_app. cbn [map].
  do 2 f_equal. lia.
Qed.

Lemma advance_steps expovariate clients arrival_rate service_rate k x y :
  advance expovariate clients arrival_rate service_rate k x = Some y ->
  rtc (step_to expovariate clients arrival_rate service_rate) x y.
Proof.
  revert x. induction k as [|k IH]; intros x; cbn [advance].
  - intros E. inversion E; subst. apply rtc_refl.
  - destruct (step _ _ _ _ (fst x) (snd x)) as [[[c|]| |] n'] eqn:Hstep; try discriminate.
    intros Hadv. eapply rtc_l; [|apply IH; exact Hadv].
    unfold step_to. cbn [fst snd]. exact Hstep.
Qed.

(** C6.  In every configuration the loop goes through (before and after
    each event and each assignment) the pending completions and the free
    servers together number [counters], no server has two pending
    completions, none is free twice, none is both busy and free, and
    together they are exactly the servers [0 .. counters-1]. *)
Theorem servers_partitioned
    (expovariate : nat -> Q -> Q) (clients : Z) (arrival_rate service_rate : Q)
    (counters : Z) (n0 : nat) (pc : point) (s : State) (n : nat) :
  valid_input clients arrival_rate service_rate counters ->
  reachable expovariate clients arrival_rate service_rate counters n0 (pc, s, n) ->
  (Z.of_nat (length (busy_heap s)) + Z.of_nat (length (free_servers s)))%Z = counters /\
  NoDup (map snd (busy_heap s)) /\
  NoDup (free_servers s) /\
  (forall i, In i (map snd (busy_heap s)) -> ~ In i (free_servers s)) /\
  map snd (busy_heap s) ++ free_servers s ≡ₚ range counters.
Proof.
  intros (Hcl & Har & Hsr & Hco) Hreach.
  apply reachable_inv in Hreach; try assumption. cbn [fst snd] in Hreach.
  pose proof (inv_servers Hreach) as Hperm.
  assert (Hnd : NoDup (map snd (busy_heap s) ++ free_servers s)).
  { rewrite Hperm. apply NoDup_range. }
  apply NoDup_app in Hnd. destruct Hnd as (Hbusy & Hdisj & Hfree).
  split; [|split; [assumption|split; [assumption|split; [|assumption]]]].
  - apply Permutation_length in Hperm.
    rewrite length_app, length_map, range_length in Hperm. lia.
  - intros i Hi Hi'. apply (Hdisj i); now apply list_elem_of_In.
Qed.

Lemma servers_partitioned_witness :
  exists s n,
    advance (fixed_variates [1; 2; 2] 1) 2 1 1 2
      (initial_config (fixed_variates [1; 2; 2] 1) 1 3 0%nat) = Some (AssignHead, s, n) /\
    busy_heap s = [(3, 2%Z)] /\ free_servers s = [0%Z; 1%Z] /\
    map snd (busy_heap s) ++ free_servers s ≡ₚ range 3.
Proof.
  eexists _, _. split; [vm_compute; reflexivity|].
  split; [reflexivity|]. split; [reflexivity|].
  eapply (servers_partitioned (fixed_variates [1; 2; 2] 1) 2 1 1 3 0%nat).
  - repeat split; try lia; reflexivity.
  - apply advance_steps with (k := 2%nat). vm_compute. reflexivity.
Defined.

(** C8.  In every configuration of a run the root of [busy_heap], which is
    what line 138 peeks and what [heappop] returns, is a pending completion
    with the least time and, among those of that time, the least server
    index; when [busy_heap] is empty the peeked time is [inf] and every
    arrival time compares as not later. *)
Theorem horizon_yields_earliest
    (expovariate : nat -> Q -> Q) (clients : Z) (arrival_rate service_rate : Q)
    (counters : Z) (n0 : nat) (pc : point) (s : State) (n : nat) :
  valid_input clients arrival_rate service_rate counters ->
  reachable expovariate clients arrival_rate service_rate counters n0 (pc, s, n) ->
  (busy_heap s = [] ->
   heappop tuple_lt (busy_heap s) = Raise IndexError /\
   next_completion s = Inf /\
   forall a : Q, xle_bool (Fin a) (next_completion s) = true) /\
  (busy_heap s <> [] ->
   exists m h',
     busy_heap s !! 0%nat = Some m /\
     next_completion s = Fin (fst m) /\
     heappop tuple_lt (busy_heap s) = Ok (m, h') /\
     busy_heap s ≡ₚ m :: h' /\
     forall e, In e (busy_heap s) ->
       fst m <= fst e /\ (fst e == fst m -> (snd m <= snd e)%Z)).
Proof.
  intros (Hcl & Har & Hsr & Hco) Hreach.
  apply reachable_inv in Hreach; try assumption. cbn [fst snd] in Hreach.
  pose proof (inv_heap Hreach) as Hheap.
  split.
  - intros Hnil. unfold next_completion. rewrite Hnil. auto.
  - intros Hne.
    destruct (horizon_pop _ Hheap Hne) as (m & h' & Hpop & Hroot & _ & Hperm).
    exists m, h'. repeat split; try assumption.
    + unfold next_completion. destruct (busy_heap s); [discriminate|].
      cbn in Hroot. now inversion Hroot.
    + now apply (horizon_root_least (busy_heap s) m Hheap Hroot e).
    + now apply (horizon_root_least (busy_heap s) m Hheap Hroot e).
Qed.

Lemma two_pending_reachable :
  reachable (fixed_variates [1; 0; 2; 0; 2] 1) 3 1 1 3 0%nat (AssignHead, two_pending, 5%nat).
Proof. apply advance_steps with (k := 5%nat). vm_compute. reflexivity. Qed.

Lemma horizon_yields_earliest_witness :
  exists m h',
    heappop tuple_lt [(3, 1%Z); (3, 2%Z)] = Ok (m, h') /\
    forall e, In e [(3, 1%Z); (3, 2%Z)] ->
      fst m <= fst e /\ (fst e == fst m -> (snd m <= snd e)%Z).
Proof.
  destruct (horizon_yields_earliest (fixed_variates [1; 0; 2; 0; 2] 1) 3 1 1 3 0%nat
              AssignHead two_pending 5%nat) as [_ H].
  - repeat split; try lia; reflexivity.
  - apply two_pending_reachable.
  - destruct H as (m & h' & _ & _ & Hpop & _ & Hmin); [discriminate|].
    exists m, h'. split; [exact Hpop | exact Hmin].
Defined.

(** C10.  An assignment pops the last entry of [free_servers]; a completion
    appends the freed server, so the assignment that follows it reuses that
    server; and from the initial state the first client is served by server
    [counters - 1]. *)
Theorem free_servers_lifo
    (expovariate : nat -> Q -> Q) (clients : Z) (arrival_rate service_rate : Q)
    (counters : Z) (n0 : nat) :
  valid_input clients arrival_rate service_rate counters ->
  (forall s n y,
     reachable expovariate clients arrival_rate service_rate counters n0 (AssignHead, s, n) ->
     step_to expovariate clients arrival_rate service_rate (AssignHead, s, n) y ->
     fst (fst y) = AssignHead ->
     exists fs idx,
       free_servers s = fs ++ [idx] /\ free_servers (snd (fst y)) = fs /\
       In (t s + expovariate n service_rate, idx) (busy_heap (snd (fst y)))) /\
  (forall s n y z,
     reachable expovariate clients arrival_rate service_rate counters n0 (LoopHead, s, n) ->
     step_to expovariate clients arrival_rate service_rate (LoopHead, s, n) y ->
     served (snd (fst y)) <> served s ->
     step_to expovariate clients arrival_rate service_rate y z ->
     fst (fst z) = AssignHead ->
     exists m,
       busy_heap s !! 0%nat = Some m /\
       free_servers (snd (fst y)) = free_servers s ++ [snd m] /\
       free_servers (snd (fst z)) = free_servers s /\
       In (fst m + expovariate n service_rate, snd m) (busy_heap (snd (fst z)))) /\
  (exists x1 x2,
     step_to expovariate clients arrival_rate service_rate
       (initial_config expovariate arrival_rate counters n0) x1 /\
     step_to expovariate clients arrival_rate service_rate x1 x2 /\
     free_servers (snd (fst x2)) = range (counters - 1) /\
     busy_heap (snd (fst x2))
     = [(expovariate n0 arrival_rate + expovariate (S (S n0)) service_rate,
         (counters - 1)%Z)]).
Proof.
  intros (Hcl & Har & Hsr & Hco).
  split; [|split].
  - intros s n y Hreach Hstep Hpc.
    destruct (assignment_step expovariate clients arrival_rate service_rate counters
                Hco Hcl Har Hsr n0 s n y Hreach Hstep Hpc)
      as (fs & idx & c & q & h' & Hfree & _ & Hperm & ->).
    exists fs, idx. cbn [fst snd assign_state free_servers busy_heap].
    repeat split; [assumption|]. apply list_elem_of_In. rewrite Hperm. now left.
  - intros s n y z Hreach Hstep Hserved Hstep' Hpc.
    destruct (completion_step expovariate clients arrival_rate service_rate counters
                Hco Hcl Har Hsr n0 s n y Hreach Hstep Hserved)
      as (m & h' & Hroot & _ & ->).
    assert (Hreach' : reachable expovariate clients arrival_rate service_rate counters n0
                        (AssignHead, completion_state s m h', n)).
    { eapply rtc_r; [exact Hreach | exact Hstep]. }
    destruct (assignment_step expovariate clients arrival_rate service_rate counters
                Hco Hcl Har Hsr n0 _ n z Hreach' Hstep' Hpc)
      as (fs & idx & c & q & h'' & Hfree & _ & Hperm & ->).
    cbn [completion_state free_servers t] in Hfree, Hperm.
    apply app_inj_tail in Hfree. destruct Hfree as [<- <-].
    exists m. cbn [fst snd assign_state completion_state free_servers busy_heap].
    repeat split; [assumption|]. apply list_elem_of_In. rewrite Hperm. now left.
  - set (d0 := expovariate n0 arrival_rate).
    set (s1 := arrival_state (initial_state counters d0) (expovariate (S n0) arrival_rate)).
    set (d2 := expovariate (S (S n0)) service_rate).
    exists (AssignHead, s1, S (S n0)).
    exists (AssignHead,
            assign_state s1 (range (counters - 1)) (mkClient 1 d0 0 0) [] d2
              [(d0 + d2, (counters - 1)%Z)], S (S (S n0))).
    unfold step_to, initial_config. cbn [fst snd]. fold d0.
    split; [|split; [|split; reflexivity]].
    + unfold step, bind, event, is_arrival, next_completion.
      cbn [initial_state served busy_heap client_id xle_bool andb].
      destruct (Z.ltb_spec 0 clients) as [_|Hbad]; [|lia].
      rewrite arrival_event_eq by assumption. reflexivity.
    + assert (Hfree : free_servers s1 = range (counters - 1) ++ [(counters - 1)%Z]).
      { cbn. apply (range_snoc counters Hco). }
      unfold step. rewrite Hfree.
      replace (truthy (range (counters - 1) ++ [(counters - 1)%Z])) with true
        by (destruct (range (counters - 1)); reflexivity).
      cbn [andb s1 arrival_state queue initial_state app truthy]. unfold bind.
      rewrite (assign_eq expovariate service_rate s1 (S (S n0)) (range (counters - 1))
                 (counters - 1)%Z (mkClient 1 d0 0 0) [] [(d0 + d2, (counters - 1)%Z)]);
        [reflexivity | assumption | assumption | reflexivity | reflexivity].
Qed.

Lemma free_servers_lifo_witness :
  exists x1 x2,
    step_to (fixed_variates [1; 2; 2] 1) 2 1 1
      (initial_config (fixed_variates [1; 2; 2] 1) 1 3 0%nat) x1 /\
    step_to (fixed_variates [1; 2; 2] 1) 2 1 1 x1 x2 /\
    busy_heap (snd (fst x2)) = [(1 + 2, 2%Z)].
Proof.
  destruct (free_servers_lifo (fixed_variates [1; 2; 2] 1) 2 1 1 3 0%nat)
    as (_ & _ & x1 & x2 & H1 & H2 & _ & H3).
  - repeat split; try lia; reflexivity.
  - exists x1, x2. auto.
Defined.

(** C3.  In a completed run the returned waits are those of the clients
    that were assigned a server, which are all [clients] of them, and for
    each one [wait >= 0] and [service_end >= service_start >= arrival];
    every assignment sets [service_start] to the current time [t], which is
    not before the client's arrival. *)
Theorem waits_nonnegative
    (expovariate : nat -> Q -> Q) (clients : Z) (arrival_rate service_rate : Q)
    (counters : Z) (n0 : nat) :
  valid_input clients arrival_rate service_rate counters ->
  nonneg_variates expovariate ->
  (exists s r n',
     simulate_queue expovariate clients arrival_rate service_rate counters n0 = (Ok r, n') /\
     final_state expovariate clients arrival_rate service_rate counters n0 = (Ok s, n') /\
     SimResult.waits r = map wait (assigned s) /\
     Z.of_nat (length (assigned s)) = clients /\
     Forall (fun c => 0 <= wait c /\ arrival c <= service_start c /\
                      service_start c <= service_end c) (assigned s) /\
     Forall (fun w => 0 <= w) (SimResult.waits r)) /\
  (forall s n y,
     reachable expovariate clients arrival_rate service_rate counters n0 (AssignHead, s, n) ->
     step_to expovariate clients arrival_rate service_rate (AssignHead, s, n) y ->
     fst (fst y) = AssignHead ->
     exists c q c',
       queue s = c :: q /\ assigned (snd (fst y)) = assigned s ++ [c'] /\
       cid c' = cid c /\ arrival c' = arrival c /\
       service_start c' = t s /\ arrival c <= t s).
Proof.
  intros (Hcl & Har & Hsr & Hco) Hnonneg.
  split.
  - destruct (final_state_ok expovariate clients arrival_rate service_rate counters
                Hco Hcl Har Hsr n0) as (s & n' & Hfin & Hreach & Hserved & _ & _ & Hheap).
    pose proof (reachable_inv _ _ _ _ _ Hco Hcl Har Hsr n0 _ Hreach) as Hinv.
    pose proof (reachable_time_inv _ _ _ _ _ Hco Hcl Har Hsr Hnonneg n0 _ Hreach) as Htime.
    cbn [fst snd] in Hinv, Htime.
    assert (Hall : Forall (fun c => 0 <= wait c /\ arrival c <= service_start c /\
                                    service_start c <= service_end c) (assigned s)).
    { eapply Forall_impl; [exact (tinv_assigned Htime)|].
      cbn. unfold wait. intros c [H1 H2]. repeat split; lra. }
    exists s, (make_result clients arrival_rate service_rate counters s), n'.
    split; [now apply simulate_queue_eq|]. split; [assumption|].
    split; [exact (inv_waits Hinv)|].
    split; [pose proof (inv_assigned Hinv) as Hn; rewrite Hheap in Hn; cbn in Hn; lia|].
    split; [assumption|].
    cbn [make_result SimResult.waits]. rewrite (inv_waits Hinv).
    apply Forall_map. eapply Forall_impl; [exact Hall|]. cbn. tauto.
  - intros s n y Hreach Hstep Hpc.
    pose proof (reachable_time_inv _ _ _ _ _ Hco Hcl Har Hsr Hnonneg n0 _ Hreach) as Htime.
    cbn [fst snd] in Htime.
    destruct (assignment_step expovariate clients arrival_rate service_rate counters
                Hco Hcl Har Hsr n0 s n y Hreach Hstep Hpc)
      as (fs & idx & c & q & h' & _ & Hqueue & _ & ->).
    exists c, q, (start_service c (t s) (expovariate n service_rate)).
    repeat split; try assumption; try reflexivity.
    pose proof (tinv_queue Htime) as Hq. rewrite Hqueue in Hq.
    now apply Forall_cons in Hq.
Qed.

Lemma fixed_variates_nonneg l d :
  Forall (fun x => 0 <= x) l -> 0 <= d -> nonneg_variates (fixed_variates l d).
Proof.
  intros Hl Hd n rate _. unfold fixed_variates.
  revert n. induction Hl as [|x l Hx _ IH]; intros [|n]; cbn; auto.
Qed.

Lemma waits_nonnegative_witness :
  exists r n',
    simulate_queue (fixed_variates [1; 0; 5; 0] 1) 3 1 1 1 0%nat = (Ok r, n') /\
    Forall (fun w => 0 <= w) (SimResult.waits r).
Proof.
  destruct (waits_nonnegative (fixed_variates [1; 0; 5; 0] 1) 3 1 1 1 0%nat)
    as [(s & r & n' & Hrun & _ & _ & _ & _ & Hwaits) _].
  - repeat split; try lia; reflexivity.
  - apply fixed_variates_nonneg; [repeat constructor; discriminate | discriminate].
  - exists r, n'. split; assumption.
Defined.

Section FloatUtilization.
Import PrimFloat.
Local Open Scope float_scope.

(** C5, as stated, fails on the floats of the program.  Six servers, six
    clients that all arrive at time 0 (first arrival and inter-arrival
    times 0) and a service time of 0.005 each: every service ends at 0.005,
    which is the total time, while [busy_time_sum], six rounded additions
    of 0.005, is [0.030000000000000002] and exceeds [6 * 0.005]; the
    utilization returned is [1.0000000000000002]. *)
Lemma utilization_exceeds_one_on_floats :
  Forall (fun d => (0 <=? d) = true)
    [0; 0; 0.005; 0; 0.005; 0; 0.005; 0; 0.005; 0; 0.005; 0; 0.005] /\
  exists r n',
    Float64.simulate_queue
      (Float64.fixed_variates
         [0; 0; 0.005; 0; 0.005; 0; 0.005; 0; 0.005; 0; 0.005; 0; 0.005] 0)
      6 1 1 6 0%nat = (Ok r, n') /\
    Float64.SimResult.served r = 6%Z /\
    Float64.SimResult.total_time r = 0.005 /\
    (0 <? Float64.SimResult.total_time r) = true /\
    Float64.SimResult.utilization r = 1.0000000000000002 /\
    (Float64.SimResult.utilization r <=? 1) = false.
Proof.
  split; [repeat constructor|].
  eexists _, _. split; [vm_compute; reflexivity|].
  cbn. repeat split.
Qed.
End FloatUtilization.

(** C5, amended.  In exact arithmetic, which is that of the model on
    rationals: in a completed run the sum of the service durations handed
    out is [busy_time_sum]; when the total time is positive the utilization
    is in [[0, 1]] and [counters * total_time * utilization] is that sum;
    when the total time is zero the utilization is zero.  On the floats of
    the program the upper bound, like the product, holds up to rounding
    only. *)
Theorem utilization_bounds
    (expovariate : nat -> Q -> Q) (clients : Z) (arrival_rate service_rate : Q)
    (counters : Z) (n0 : nat) :
  valid_input clients arrival_rate service_rate counters ->
  nonneg_variates expovariate ->
  exists s r n',
    simulate_queue expovariate clients arrival_rate service_rate counters n0 = (Ok r, n') /\
    final_state expovariate clients arrival_rate service_rate counters n0 = (Ok s, n') /\
    SimResult.total_time r = t s /\
    Z.of_nat (length (assigned s)) = clients /\
    busy_time_sum s == Qsum (map service_time (assigned s)) /\
    (0 < SimResult.total_time r ->
     0 <= SimResult.utilization r /\ SimResult.utilization r <= 1 /\
     inject_Z counters * SimResult.total_time r * SimResult.utilization r
     == busy_time_sum s) /\
    (SimResult.total_time r == 0 -> SimResult.utilization r = 0).
Proof.
  intros (Hcl & Har & Hsr & Hco) Hnonneg.
  destruct (final_state_ok expovariate clients arrival_rate service_rate counters
              Hco Hcl Har Hsr n0) as (s & n' & Hfin & Hreach & Hserved & _ & _ & Hheap).
  pose proof (reachable_inv _ _ _ _ _ Hco Hcl Har Hsr n0 _ Hreach) as Hinv.
  pose proof (reachable_time_inv _ _ _ _ _ Hco Hcl Har Hsr Hnonneg n0 _ Hreach) as Htime.
  cbn [fst snd] in Hinv, Htime.
  exists s, (make_result clients arrival_rate service_rate counters s), n'.
  split; [now apply simulate_queue_eq|]. split; [assumption|]. split; [reflexivity|].
  split; [pose proof (inv_assigned Hinv) as Hn; rewrite Hheap in Hn; cbn in Hn; lia|].
  split; [exact (tinv_busy_sum Htime)|].
  assert (Hidle : idle s = inject_Z counters).
  { unfold idle. f_equal.
    pose proof (inv_servers Hinv) as Hperm. rewrite Hheap in Hperm. cbn in Hperm.
    apply Permutation_length in Hperm. rewrite range_length in Hperm. lia. }
  assert (Hupper : busy_time_sum s <= inject_Z counters * t s).
  { pose proof (tinv_busy Htime) as Hb. rewrite Hheap, Hidle in Hb. cbn in Hb. lra. }
  assert (Hlower : 0 <= busy_time_sum s).
  { rewrite (tinv_busy_sum Htime). apply Qsum_nonneg, Forall_map.
    eapply Forall_impl; [exact (tinv_assigned Htime)|].
    cbn. unfold service_time. intros c [_ H]. lra. }
  assert (Hc : 0 < inject_Z counters).
  { change 0 with (inject_Z 0). rewrite <- Zlt_Qlt. lia. }
  cbn [make_result SimResult.total_time SimResult.utilization].
  split.
  - intros HT. rewrite (proj2 (Qlt_bool_iff 0 (t s)) HT).
    assert (HcT : 0 < inject_Z counters * t s) by nra.
    split; [|split].
    + apply Qle_shift_div_l; [assumption | lra].
    + apply Qle_shift_div_r; [assumption | lra].
    + field. split; intros E; rewrite E in *; lra.
  - intros HT. destruct (Qlt_bool 0 (t s)) eqn:E; [|reflexivity].
    apply Qlt_bool_iff in E. lra.
Qed.

Lemma utilization_bounds_witness :
  exists r n',
    simulate_queue (fixed_variates [1; 0; 5; 0] 1) 3 1 1 1 0%nat = (Ok r, n') /\
    SimResult.utilization r <= 1.
Proof.
  destruct (utilization_bounds (fixed_variates [1; 0; 5; 0] 1) 3 1 1 1 0%nat)
    as (s & r & n' & Hrun & Hfin & HT & _ & _ & Hpos & _).
  - repeat split; try lia; reflexivity.
  - apply fixed_variates_nonneg; [repeat constructor; discriminate | discriminate].
  - exists r, n'. split; [assumption|].
    apply Hpos. rewrite HT. vm_compute in Hfin. inversion Hfin; subst. reflexivity.
Defined.

(** C7, as stated, fails: with one server, three clients and two
    inter-arrival times of zero, the milestones are [(1, 1)] and [(1, 2)],
    at the same time. *)
Lemma milestone_times_can_repeat :
  valid_input 3 1 1 1 /\
  nonneg_variates (fixed_variates [1; 0; 5; 0] 1) /\
  exists r n',
    simulate_queue (fixed_variates [1; 0; 5; 0] 1) 3 1 1 1 0%nat = (Ok r, n') /\
    SimResult.queue_max_times r = [(1, 1%Z); (1, 2%Z)] /\
    ~ increasing (fun a b => fst a < fst b /\ (snd a < snd b)%Z)
        (SimResult.queue_max_times r).
Proof.
  split; [repeat split; try lia; reflexivity|].
  split; [apply fixed_variates_nonneg; [repeat constructor; discriminate | discriminate]|].
  eexists _, _. split; [vm_compute; reflexivity|].
  split; [reflexivity|].
  intros Hinc. destruct (Hinc 0%nat (1, 1%Z) (1, 2%Z) eq_refl eq_refl) as [Hlt _].
  cbn in Hlt. lra.
Qed.

(** C7, amended.  Between consecutive milestones of the returned
    [queue_max_times] the queue length increases strictly and the time does
    not decrease. *)
Theorem milestones_increase
    (expovariate : nat -> Q -> Q) (clients : Z) (arrival_rate service_rate : Q)
    (counters : Z) (n0 : nat) :
  valid_input clients arrival_rate service_rate counters ->
  nonneg_variates expovariate ->
  exists r n',
    simulate_queue expovariate clients arrival_rate service_rate counters n0 = (Ok r, n') /\
    increasing (fun a b => fst a <= fst b /\ (snd a < snd b)%Z)
      (SimResult.queue_max_times r).
Proof.
  intros (Hcl & Har & Hsr & Hco) Hnonneg.
  destruct (final_state_ok expovariate clients arrival_rate service_rate counters
              Hco Hcl Har Hsr n0) as (s & n' & Hfin & Hreach & _).
  pose proof (reachable_inv _ _ _ _ _ Hco Hcl Har Hsr n0 _ Hreach) as Hinv.
  cbn [fst snd] in Hinv.
  exists (make_result clients arrival_rate service_rate counters s), n'.
  split; [now apply simulate_queue_eq|].
  cbn [make_result SimResult.queue_max_times].
  assert (Htimes : miles_inv Qle s).
  { apply (reachable_miles expovariate clients arrival_rate service_rate counters
             Hco Hcl Har Hsr Qle n0 (LoopHead, s, n')); [| |assumption].
    - intros a b c Hab Hbc. lra.
    - intros n b. pose proof (Hnonneg n arrival_rate Har). lra. }
  destruct Htimes as [_ Htimes].
  intros i a b Ha Hb. split; [now apply (Htimes i) | now apply (inv_peaks Hinv i)].
Qed.

Lemma milestones_increase_witness :
  exists r n',
    simulate_queue (fixed_variates [1; 0; 5; 0] 1) 3 1 1 1 0%nat = (Ok r, n') /\
    increasing (fun a b => fst a <= fst b /\ (snd a < snd b)%Z)
      (SimResult.queue_max_times r).
Proof.
  destruct (milestones_increase (fixed_variates [1; 0; 5; 0] 1) 3 1 1 1 0%nat)
    as (r & n' & Hrun & Hinc).
  - repeat split; try lia; reflexivity.
  - apply fixed_variates_nonneg; [repeat constructor; discriminate | discriminate].
  - exists r, n'. split; assumption.
Defined.

Section FloatMilestones.
Import PrimFloat.
Local Open Scope float_scope.

(** Why the amended claim promises no strict increase of the times even
    when every variate is positive: on the floats of the program an
    inter-arrival time below half the spacing of the floats around [t] is
    absorbed by [t + exp_time(arrival_rate)].  Here [1 + 1e-17] is [1], and
    two milestones are at time 1. *)
Lemma milestone_times_repeat_by_absorption :
  Forall (fun d => (0 <? d) = true) [1; 1e-17; 5; 1e-17; 1; 1; 1] /\
  exists r n',
    Float64.simulate_queue (Float64.fixed_variates [1; 1e-17; 5; 1e-17; 1; 1; 1] 1)
      3 1 1 1 0%nat = (Ok r, n') /\
    n' = 7%nat /\
    Float64.SimResult.queue_max_times r = [(1, 1%Z); (1, 2%Z)].
Proof.
  split; [repeat constructor|].
  eexists _, _. split; [vm_compute; reflexivity|].
  cbn. repeat split.
Qed.
End FloatMilestones.

(** * More properties of the event loop *)

Lemma ids_snoc k : (0 <= k)%Z -> ids (k + 1) = ids k ++ [(k + 1)%Z].
Proof.
  intros Hk. unfold ids.
  replace (Z.to_nat (k + 1)) with (S (Z.to_nat k)) by lia.
  rewrite seq_S, map_app. cbn [map]. do 2 f_equal. lia.
Qed.

Lemma ids_length k : length (ids k) = Z.to_nat k.
Proof. unfold ids. now rewrite length_map, length_seq. Qed.

Lemma increasing_map {A B} (f : A -> B) (R : B -> B -> Prop) (l : list A) :
  increasing R (map f l) <-> increasing (fun a b => R (f a) (f b)) l.
Proof.
  split; intros H i a b Ha Hb.
  - apply (H i); change (map f l) with (f <$> l); rewrite list_lookup_fmap.
    + now rewrite Ha.
    + now rewrite Hb.
  - change (map f l) with (f <$> l) in Ha, Hb. rewrite list_lookup_fmap in Ha, Hb.
    destruct (l !! i) as [a'|] eqn:Ha'; [|discriminate].
    destruct (l !! S i) as [b'|] eqn:Hb'; [|discriminate].
    cbn in Ha, Hb. inversion Ha; inversion Hb; subst. now apply (H i).
Qed.

Section LoopFacts.
Variable expovariate : nat -> Q -> Q.
Variables (clients : Z) (arrival_rate service_rate : Q) (counters : Z).

Local Abbreviation loop_inv := (loop_inv clients counters).
Local Abbreviation time_inv := (time_inv clients).
Local Abbreviation transition := (transition expovariate clients arrival_rate service_rate).
Local Abbreviation step_to := (step_to expovariate clients arrival_rate service_rate).
Local Abbreviation initial_config := (initial_config expovariate arrival_rate counters).
Local Abbreviation reachable :=
  (reachable expovariate clients arrival_rate service_rate counters).
Local Abbreviation final_state_ :=
  (final_state expovariate clients arrival_rate service_rate counters).
Local Abbreviation simulate_queue_ :=
  (simulate_queue expovariate clients arrival_rate service_rate counters).

Hypothesis counters_valid : (1 <= counters)%Z.
Hypothesis clients_valid : (1 <= clients)%Z.
Hypothesis arrival_rate_valid : 0 < arrival_rate.
Hypothesis service_rate_valid : 0 < service_rate.

Lemma reached_inv n0 x : reachable n0 x -> loop_inv (fst (fst x)) (snd (fst x)).
Proof.
  apply (reachable_inv expovariate clients arrival_rate service_rate counters);
    assumption.
Qed.

(** What holds at the start and is kept by the four moves holds in every
    configuration of a run. *)
Lemma reachable_invariant (P : point * State * nat -> Prop) n0 :
  P (initial_config n0) ->
  (forall x y, reachable n0 x -> transition x y -> P x -> P y) ->
  forall x, reachable n0 x -> P x.
Proof.
  intros Hinit Hkeep x Hreach.
  enough (H : reachable n0 x /\ P x) by apply H.
  apply (rtc_ind_r (R:=step_to) (fun x => reachable n0 x /\ P x) (initial_config n0));
    [| |exact Hreach].
  - split; [apply rtc_refl | assumption].
  - intros y z Hy Hyz [Hry Py].
    split; [eapply rtc_r; [exact Hry | exact Hyz]|].
    apply (Hkeep y z Hry); [|assumption].
    apply (step_to_transition expovariate clients arrival_rate service_rate counters);
      try assumption.
    now apply reached_inv with (n0 := n0).
Qed.

(** The run as a whole: its final state is reached from the start. *)
Lemma run_completes n0 :
  exists s n',
    simulate_queue_ n0
    = (Ok (make_result clients arrival_rate service_rate counters s), n') /\
    reachable n0 (LoopHead, s, n') /\
    served s = clients /\ client_id s = clients /\ queue s = [] /\ busy_heap s = [].
Proof.
  destruct (final_state_ok expovariate clients arrival_rate service_rate counters
              counters_valid clients_valid arrival_rate_valid service_rate_valid n0)
    as (s & n' & Hfin & Hrest).
  exists s, n'. split; [now apply simulate_queue_eq | exact Hrest].
Qed.

Lemma reachable_draws n0 x : reachable n0 x -> draws_inv n0 x.
Proof.
  apply reachable_invariant.
  - unfold draws_inv. cbn. lia.
  - intros x0 y _ Htr. unfold draws_inv.
    destruct Htr as [s n Hserved Hid Hle | s n m h' Hserved Harr Hpop Hroot Hperm Hh'
      | s n fs idx c q h' Hfree Hqueue Hpush Hperm Hh' | s n Hidle]; cbn; try lia.
    rewrite length_app. cbn. lia.
Qed.

Lemma reachable_fcfs n0 x : reachable n0 x -> fcfs_inv (snd (fst x)).
Proof.
  apply (reachable_invariant (fun x => fcfs_inv (snd (fst x)))).
  - split; cbn; [lia | reflexivity].
  - intros x0 y _ Htr.
    destruct Htr as [s n Hserved Hid Hle | s n m h' Hserved Harr Hpop Hroot Hperm Hh'
      | s n fs idx c q h' Hfree Hqueue Hpush Hperm Hh' | s n Hidle]; cbn [fst snd];
      intros [H0 Hids]; split; cbn; try assumption; try lia.
    + rewrite (assoc_L app), map_app, Hids, ids_snoc by assumption. reflexivity.
    + rewrite Hqueue in Hids. rewrite <- Hids, <- (assoc_L app), !map_app. reflexivity.
Qed.

Lemma ids_nil_inv {A} (l : list A) (f : A -> Z) : map f l = ids 0 -> l = [].
Proof. destruct l; [reflexivity | discriminate]. Qed.

Lemma reachable_peak n0 x :
  reachable n0 x -> peak_inv (expovariate n0 arrival_rate) (snd (fst x)).
Proof.
  apply (reachable_invariant (fun x => peak_inv (expovariate n0 arrival_rate) (snd (fst x)))).
  - unfold peak_inv. cbn. repeat split; try lia; try reflexivity.
  - intros x0 y _ Htr.
    destruct Htr as [s n Hserved Hid Hle | s n m h' Hserved Harr Hpop Hroot Hperm Hh'
      | s n fs idx c q h' Hfree Hqueue Hpush Hperm Hh' | s n Hidle]; cbn [fst snd];
      intros (Hmap & Hlen & Hmax & Hfirst & Hpos); try exact (conj Hmap (conj Hlen (conj Hmax (conj Hfirst Hpos)))).
    + unfold peak_inv, arrival_state. cbn. rewrite length_app. cbn [length].
      replace (Z.of_nat (length (queue s) + 1)) with (Z.of_nat (length (queue s)) + 1)%Z by lia.
      destruct (Z.ltb_spec (max_queue s) (Z.of_nat (length (queue s)) + 1)) as [Hlt|Hge].
      * assert (Heq : Z.of_nat (length (queue s)) = max_queue s) by lia.
        rewrite Heq. repeat split; try lia.
        -- rewrite map_app, Hmap, ids_snoc by lia. reflexivity.
        -- destruct (Z.eq_dec (client_id s) 0%Z) as [Hz|Hnz].
           ++ assert (Hm0 : max_queue s = 0%Z) by lia.
              rewrite Hm0 in Hmap. apply ids_nil_inv in Hmap.
              rewrite Hmap, Hm0, (Hfirst Hz). reflexivity.
           ++ destruct Hpos as [_ Hhd]; [lia|].
              destruct (queue_max_times s); [discriminate | exact Hhd].
      * assert (Hnz : (1 <= client_id s)%Z).
        { destruct (Z.eq_dec (client_id s) 0%Z) as [Hz|Hnz]; lia. }
        destruct (Hpos Hnz) as [Hm1 Hhd].
        repeat split; try assumption; try lia.
    + unfold peak_inv, assign_state. cbn. rewrite Hqueue in Hlen. cbn in Hlen.
      repeat split; try assumption; try lia; now apply Hpos.
Qed.
Lemma reachable_plenty n0 x :
  (clients <= counters)%Z ->
  reachable n0 x -> plenty_inv (fst (fst x)) (snd (fst x)).
Proof.
  intros Hplenty Hreach.
  apply (reachable_invariant (fun x => plenty_inv (fst (fst x)) (snd (fst x))) n0);
    [| |exact Hreach].
  - unfold plenty_inv. cbn. repeat split; auto. lia.
  - intros x0 y Hx0 Htr. apply reached_inv in Hx0.
    destruct Htr as [s n Hserved Hid Hle | s n m h' Hserved Harr Hpop Hroot Hperm Hh'
      | s n fs idx c q h' Hfree Hqueue Hpush Hperm Hh' | s n Hidle]; cbn [fst snd] in *;
      intros (Hhead & Hq & Hw & Hmax).
    + pose proof (Hhead eq_refl) as Hnil.
      unfold plenty_inv, arrival_state. cbn. rewrite Hnil. cbn.
      split; [discriminate|]. split; [|split; [assumption|]].
      * right. eexists. split; [reflexivity|]. split; [reflexivity|].
        intros Hfree.
        pose proof (inv_servers Hx0) as Hperm. pose proof (inv_count Hx0) as Hcount.
        pose proof (inv_served Hx0) as Hs0.
        rewrite Hfree, app_nil_r in Hperm. apply Permutation_length in Hperm.
        rewrite length_map, range_length in Hperm.
        rewrite Hnil in Hcount. cbn in Hcount. lia.
      * destruct (max_queue s <? Z.of_nat 1)%Z; lia.
    + pose proof (Hhead eq_refl) as Hnil.
      unfold plenty_inv, completion_state. cbn.
      split; [discriminate|]. split; [now left|]. split; assumption.
    + unfold plenty_inv, assign_state. cbn.
      destruct Hq as [Hq|(c0 & Hq & Harr & _)]; [congruence|].
      rewrite Hqueue in Hq. inversion Hq; subst c0 q.
      split; [discriminate|]. split; [now left|]. split; [|assumption].
      apply Forall_app. split; [assumption|]. repeat constructor.
      unfold wait, start_service. cbn. rewrite Harr. ring.
    + unfold plenty_inv. cbn. split; [|split; [|split]]; try assumption.
      intros _. destruct Hq as [Hq|(c0 & Hq & _ & Hfree)]; [assumption|].
      destruct Hidle as [Hidle|Hidle]; [contradiction | assumption].
Qed.

(** ** Under non-negative variates *)

Hypothesis variates_nonneg : forall n rate, 0 < rate -> 0 <= expovariate n rate.

Lemma reached_time_inv n0 x : reachable n0 x -> time_inv (snd (fst x)).
Proof.
  apply (reachable_time_inv expovariate clients arrival_rate service_rate counters);
    assumption.
Qed.

(** A move never takes the clock back. *)
Lemma transition_clock n0 x y :
  reachable n0 x -> transition x y -> t (snd (fst x)) <= t (snd (fst y)).
Proof.
  intros Hreach Htr.
  pose proof (reached_time_inv n0 x Hreach) as Htime.
  destruct Htr as [s n Hserved Hid Hle | s n m h' Hserved Harr Hpop Hroot Hperm Hh'
    | s n fs idx c q h' Hfree Hqueue Hpush Hperm Hh' | s n Hidle]; cbn [fst snd] in *.
  - cbn. apply (tinv_next Htime Hid).
  - cbn. apply (Forall_lookup_1 _ _ _ _ (tinv_heap Htime) Hroot).
  - cbn. lra.
  - lra.
Qed.

Lemma reachable_order n0 x : reachable n0 x -> order_inv (snd (fst x)).
Proof.
  apply (reachable_invariant (fun x => order_inv (snd (fst x)))).
  - unfold order_inv. cbn. repeat split; auto using increasing_nil.
    all: apply increasing_nil.
  - intros x0 y Hx0 Htr.
    pose proof (transition_clock n0 x0 y Hx0 Htr) as Hclock.
    destruct Htr as [s n Hserved Hid Hle | s n m h' Hserved Harr Hpop Hroot Hperm Hh'
      | s n fs idx c q h' Hfree Hqueue Hpush Hperm Hh' | s n Hidle]; cbn [fst snd] in *;
      intros (Harrs & Harrt & Hstarts & Hstartt); try (repeat split; assumption).
    + unfold order_inv, arrival_state. cbn in *.
      assert (Harrt' : Forall (fun c => arrival c <= next_arrival s) (assigned s ++ queue s)).
      { eapply Forall_impl; [exact Harrt|]. cbn. intros; lra. }
      rewrite (assoc_L app). repeat split.
      * rewrite map_app. apply increasing_snoc; [assumption|]. now apply Forall_map.
      * apply Forall_app. split; [assumption|]. repeat constructor. cbn. lra.
      * assumption.
      * eapply Forall_impl; [exact Hstartt|]. cbn. intros; lra.
    + unfold order_inv, completion_state. cbn in *. repeat split; try assumption.
      * eapply Forall_impl; [exact Harrt|]. cbn. intros; lra.
      * eapply Forall_impl; [exact Hstartt|]. cbn. intros; lra.
    + unfold order_inv, assign_state. cbn in *.
      rewrite Hqueue in Harrs, Harrt.
      assert (E : map arrival ((assigned s ++ [start_service c (t s) (expovariate n service_rate)]) ++ q)
                  = map arrival (assigned s ++ c :: q)).
      { rewrite <- (assoc_L app), !map_app. reflexivity. }
      repeat split.
      * now rewrite E.
      * rewrite <- (assoc_L app). cbn [app].
        apply Forall_app in Harrt. destruct Harrt as [Ha Hq].
        apply Forall_cons in Hq. destruct Hq as [Hc Hq].
        apply Forall_app. split; [assumption|]. constructor; assumption.
      * rewrite map_app. apply increasing_snoc; [assumption|]. now apply Forall_map.
      * apply Forall_app. split; [assumption|]. repeat constructor. cbn. lra.
Qed.

Lemma reachable_ends n0 x : reachable n0 x -> ends_inv clients (snd (fst x)).
Proof.
  apply (reachable_invariant (fun x => ends_inv clients (snd (fst x)))).
  - unfold ends_inv. cbn. repeat split; auto. lia.
  - intros x0 y Hx0 Htr.
    pose proof (transition_clock n0 x0 y Hx0 Htr) as Hclock.
    destruct Htr as [s n Hserved Hid Hle | s n m h' Hserved Harr Hpop Hroot Hperm Hh'
      | s n fs idx c q h' Hfree Hqueue Hpush Hperm Hh' | s n Hidle]; cbn [fst snd] in *;
      intros (Hends & Hpend & Hlast); try (repeat split; assumption).
    + unfold ends_inv, arrival_state. cbn in *. repeat split.
      * eapply Forall_impl; [exact Hends|]. cbn. intros c [H|H]; [left; lra | now right].
      * assumption.
      * intros; lia.
    + assert (Hpend' : Forall (fun e => exists c, In c (assigned s) /\ service_end c = fst e)
                         (m :: h')) by (now rewrite <- Hperm).
      apply Forall_cons in Hpend'. destruct Hpend' as [Hm Hpend'].
      unfold ends_inv, completion_state. cbn in *. repeat split.
      * eapply Forall_impl; [exact Hends|]. cbn. intros c [H|H]; [left; lra|].
        assert (H' : In (service_end c) (map fst (m :: h'))).
        { apply list_elem_of_In. rewrite <- Hperm. now apply list_elem_of_In. }
        destruct H' as [H'|H']; [left; rewrite <- H'; lra | now right].
      * assumption.
      * intros _. exact Hm.
    + unfold ends_inv, assign_state. cbn in *.
      set (c' := start_service c (t s) (expovariate n service_rate)) in *.
      repeat split.
      * apply Forall_app. split.
        -- eapply Forall_impl; [exact Hends|]. cbn. intros c0 [H|H]; [now left|].
           right. apply list_elem_of_In. rewrite Hperm. cbn. right. now apply list_elem_of_In.
        -- constructor; [|constructor]. right. apply list_elem_of_In. rewrite Hperm. now left.
      * rewrite Hperm. constructor.
        -- exists c'. split; [apply in_or_app; right; now left | reflexivity].
        -- eapply Forall_impl; [exact Hpend|]. cbn. intros e (c0 & Hin & He).
           exists c0. split; [apply in_or_app; now left | assumption].
      * intros Hall. destruct (Hlast Hall) as (c0 & Hin & He).
        exists c0. split; [apply in_or_app; now left | assumption].
Qed.

Lemma reachable_serial n0 x :
  counters = 1%Z -> reachable n0 x -> serial_inv (snd (fst x)).
Proof.
  intros Hone Hreach.
  apply (reachable_invariant (fun x => serial_inv (snd (fst x))) n0); [| |exact Hreach].
  - unfold serial_inv. cbn. split; [apply increasing_nil | constructor].
  - intros x0 y Hx0 Htr.
    pose proof (transition_clock n0 x0 y Hx0 Htr) as Hclock.
    pose proof (reachable_ends n0 x0 Hx0) as (Hends & _ & _).
    pose proof (reached_inv n0 x0 Hx0) as Hinv.
    pose proof (inv_servers Hinv) as Hsrv. apply Permutation_length in Hsrv.
    rewrite length_app, length_map, range_length, Hone in Hsrv.
    destruct Htr as [s n Hserved Hid Hle | s n m h' Hserved Harr Hpop Hroot Hperm Hh'
      | s n fs idx c q h' Hfree Hqueue Hpush Hperm Hh' | s n Hidle]; cbn [fst snd] in *;
      intros (Hser & Hidlet); try (split; assumption).
    + unfold serial_inv, arrival_state. cbn in *. split; [assumption|].
      intros Hfree. eapply Forall_impl; [exact (Hidlet Hfree)|]. cbn. intros; lra.
    + unfold serial_inv, completion_state. cbn in *. split; [assumption|].
      intros _. apply Permutation_length in Hperm as Hlen. cbn in Hlen.
      assert (Hnil : h' = []) by (destruct h'; [reflexivity | cbn in Hlen; lia]).
      subst h'.
      eapply Forall_impl; [exact Hends|]. cbn. intros c [H|H]; [lra|].
      assert (H' : In (service_end c) (map fst [m])).
      { apply list_elem_of_In. rewrite <- Hperm. now apply list_elem_of_In. }
      destruct H' as [H'|[]]. rewrite <- H'. lra.
    + unfold serial_inv, assign_state. cbn in *. split.
      * apply increasing_snoc; [assumption|]. apply Hidlet.
        rewrite Hfree. now destruct fs.
      * intros Hfs. exfalso. rewrite Hfree, length_app in Hsrv. cbn in Hsrv.
        destruct fs; [congruence | cbn in Hsrv; lia].
Qed.
(** No client arrives before time 0. *)
Lemma reachable_arrivals n0 x :
  reachable n0 x ->
  Forall (fun c => 0 <= arrival c) (assigned (snd (fst x)) ++ queue (snd (fst x))).
Proof.
  apply (reachable_invariant
           (fun x => Forall (fun c => 0 <= arrival c)
                       (assigned (snd (fst x)) ++ queue (snd (fst x))))).
  - constructor.
  - intros x0 y Hx0 Htr. apply reached_time_inv in Hx0.
    destruct Htr as [s n Hserved Hid Hle | s n m h' Hserved Harr Hpop Hroot Hperm Hh'
      | s n fs idx c q h' Hfree Hqueue Hpush Hperm Hh' | s n Hidle]; cbn [fst snd] in *;
      intros Hall; try exact Hall.
    + unfold arrival_state. cbn. rewrite (assoc_L app).
      apply Forall_app. split; [assumption|]. repeat constructor. cbn.
      pose proof (tinv_t Hx0). pose proof (tinv_next Hx0 Hid). lra.
    + unfold assign_state. cbn. rewrite Hqueue in Hall.
      rewrite <- (assoc_L app). cbn [app].
      apply Forall_app in Hall. destruct Hall as [Ha Hq].
      apply Forall_cons in Hq. destruct Hq as [Hc Hq].
      apply Forall_app. split; [assumption|]. constructor; assumption.
Qed.
End LoopFacts.

(** X1.  On a valid input a run draws exactly [2 * clients + 1] variates:
    one before the loop, one after each arrival and one for each service. *)
Theorem simulate_queue_draws
    (expovariate : nat -> Q -> Q) (clients : Z) (arrival_rate service_rate : Q)
    (counters : Z) (n0 : nat) :
  valid_input clients arrival_rate service_rate counters ->
  exists r n',
    simulate_queue expovariate clients arrival_rate service_rate counters n0 = (Ok r, n') /\
    Z.of_nat n' = (Z.of_nat n0 + 2 * clients + 1)%Z.
Proof.
  intros (Hcl & Har & Hsr & Hco).
  destruct (run_completes expovariate clients arrival_rate service_rate counters
              Hco Hcl Har Hsr n0) as (s & n' & Hrun & Hreach & Hserved & Hid & _ & Hheap).
  eexists _, n'. split; [exact Hrun|].
  pose proof (reachable_draws _ _ _ _ _ Hco Hcl Har Hsr n0 _ Hreach) as Hdraws.
  pose proof (reachable_inv _ _ _ _ _ Hco Hcl Har Hsr n0 _ Hreach) as Hinv.
  unfold draws_inv in Hdraws. cbn [fst snd] in Hdraws, Hinv.
  pose proof (inv_assigned Hinv) as Hn. rewrite Hheap in Hn. cbn in Hn.
  rewrite (inv_waits Hinv), length_map in Hdraws. lia.
Qed.

Lemma simulate_queue_draws_witness :
  exists r,
    simulate_queue (fixed_variates [1; 0; 5; 0] 1) 3 1 1 1 4%nat = (Ok r, 11%nat).
Proof.
  destruct (simulate_queue_draws (fixed_variates [1; 0; 5; 0] 1) 3 1 1 1 4%nat)
    as (r & n' & Hrun & Hn).
  - repeat split; try lia; reflexivity.
  - exists r. replace 11%nat with n' by lia. exact Hrun.
Defined.

(** X2.  Clients get a server in the order of their ids (FCFS): in a
    completed run the k-th assignment, hence the k-th recorded wait, is
    client k's, and arrival times and service starts do not decrease along
    that order. *)
Theorem customers_served_in_order
    (expovariate : nat -> Q -> Q) (clients : Z) (arrival_rate service_rate : Q)
    (counters : Z) (n0 : nat) :
  valid_input clients arrival_rate service_rate counters ->
  nonneg_variates expovariate ->
  exists s r n',
    simulate_queue expovariate clients arrival_rate service_rate counters n0 = (Ok r, n') /\
    final_state expovariate clients arrival_rate service_rate counters n0 = (Ok s, n') /\
    SimResult.waits r = map wait (assigned s) /\
    map cid (assigned s) = ids clients /\
    increasing Qle (map arrival (assigned s)) /\
    increasing Qle (map service_start (assigned s)).
Proof.
  intros (Hcl & Har & Hsr & Hco) Hnonneg.
  destruct (final_state_ok expovariate clients arrival_rate service_rate counters
              Hco Hcl Har Hsr n0) as (s & n' & Hfin & Hreach & _ & Hid & Hqueue & _).
  pose proof (reachable_inv _ _ _ _ _ Hco Hcl Har Hsr n0 _ Hreach) as Hinv.
  pose proof (reachable_fcfs _ _ _ _ _ Hco Hcl Har Hsr n0 _ Hreach) as [_ Hids].
  pose proof (reachable_order _ _ _ _ _ Hco Hcl Har Hsr Hnonneg n0 _ Hreach)
    as (Harr & _ & Hstart & _).
  cbn [fst snd] in *. rewrite Hqueue, app_nil_r in Hids, Harr. rewrite Hid in Hids.
  exists s, (make_result clients arrival_rate service_rate counters s), n'.
  split; [now apply simulate_queue_eq|]. split; [assumption|].
  split; [exact (inv_waits Hinv)|]. auto.
Qed.

Lemma customers_served_in_order_witness :
  exists s n',
    final_state (fixed_variates [1; 0; 5; 0] 1) 3 1 1 1 0%nat = (Ok s, n') /\
    map cid (assigned s) = [1; 2; 3]%Z.
Proof.
  destruct (customers_served_in_order (fixed_variates [1; 0; 5; 0] 1) 3 1 1 1 0%nat)
    as (s & r & n' & _ & Hfin & _ & Hids & _).
  - repeat split; try lia; reflexivity.
  - apply fixed_variates_nonneg; [repeat constructor; discriminate | discriminate].
  - exists s, n'. split; [assumption | exact Hids].
Defined.

(** X3.  The congestion milestones record the queue lengths 1, 2, ...,
    [max_queue] once each, so there are [max_queue] of them; the first is
    at the first arrival, and [1 <= max_queue <= clients]. *)
Theorem milestones_count_up
    (expovariate : nat -> Q -> Q) (clients : Z) (arrival_rate service_rate : Q)
    (counters : Z) (n0 : nat) :
  valid_input clients arrival_rate service_rate counters ->
  exists r n',
    simulate_queue expovariate clients arrival_rate service_rate counters n0 = (Ok r, n') /\
    map snd (SimResult.queue_max_times r) = ids (SimResult.max_queue r) /\
    Z.of_nat (length (SimResult.queue_max_times r)) = SimResult.max_queue r /\
    (1 <= SimResult.max_queue r <= clients)%Z /\
    head (SimResult.queue_max_times r) = Some (expovariate n0 arrival_rate, 1%Z).
Proof.
  intros (Hcl & Har & Hsr & Hco).
  destruct (run_completes expovariate clients arrival_rate service_rate counters
              Hco Hcl Har Hsr n0) as (s & n' & Hrun & Hreach & _ & Hid & _).
  pose proof (reachable_peak _ _ _ _ _ Hco Hcl Har Hsr n0 _ Hreach)
    as (Hmap & _ & Hmax & _ & Hpos).
  cbn [fst snd] in *. destruct Hpos as [H1 Hhd]; [lia|].
  eexists _, n'. split; [exact Hrun|].
  cbn [make_result SimResult.queue_max_times SimResult.max_queue].
  split; [assumption|]. split; [|split; [lia | assumption]].
  apply (f_equal length) in Hmap. rewrite length_map, ids_length in Hmap. lia.
Qed.

Lemma milestones_count_up_witness :
  exists r n',
    simulate_queue (fixed_variates [1; 0; 5; 0] 1) 3 1 1 1 0%nat = (Ok r, n') /\
    map snd (SimResult.queue_max_times r) = ids (SimResult.max_queue r).
Proof.
  destruct (milestones_count_up (fixed_variates [1; 0; 5; 0] 1) 3 1 1 1 0%nat)
    as (r & n' & Hrun & Hmap & _).
  - repeat split; try lia; reflexivity.
  - exists r, n'. split; assumption.
Defined.

Lemma Qsum_zero l : Forall (fun w => w == 0) l -> Qsum l == 0.
Proof.
  induction 1 as [|x l Hx _ IH]; cbn [Qsum]; [reflexivity | rewrite Hx, IH; ring].
Qed.

(** X4.  With at least as many servers as clients nobody waits: every wait
    and the mean wait are zero, the queue never holds more than the client
    that has just arrived, and the only milestone is the first arrival. *)
Theorem no_wait_with_enough_servers
    (expovariate : nat -> Q -> Q) (clients : Z) (arrival_rate service_rate : Q)
    (counters : Z) (n0 : nat) :
  valid_input clients arrival_rate service_rate counters ->
  (clients <= counters)%Z ->
  exists r n',
    simulate_queue expovariate clients arrival_rate service_rate counters n0 = (Ok r, n') /\
    Forall (fun w => w == 0) (SimResult.waits r) /\
    SimResult.avg_wait r == 0 /\
    SimResult.max_queue r = 1%Z /\
    SimResult.queue_max_times r = [(expovariate n0 arrival_rate, 1%Z)].
Proof.
  intros (Hcl & Har & Hsr & Hco) Hplenty.
  destruct (run_completes expovariate clients arrival_rate service_rate counters
              Hco Hcl Har Hsr n0) as (s & n' & Hrun & Hreach & _ & Hid & _).
  pose proof (reachable_plenty _ _ _ _ _ Hco Hcl Har Hsr n0 _ Hplenty Hreach)
    as (_ & _ & Hw & Hmax).
  pose proof (reachable_peak _ _ _ _ _ Hco Hcl Har Hsr n0 _ Hreach)
    as (Hmap & _ & _ & _ & Hpos).
  cbn [fst snd] in *. destruct Hpos as [H1 Hhd]; [lia|].
  assert (Hone : max_queue s = 1%Z) by lia.
  eexists _, n'. split; [exact Hrun|].
  cbn [make_result SimResult.waits SimResult.avg_wait SimResult.max_queue
       SimResult.queue_max_times].
  split; [assumption|]. split; [|split; [assumption|]].
  - destruct (truthy (waits s)); [|reflexivity].
    unfold mean. rewrite (Qsum_zero _ Hw). unfold Qdiv. ring.
  - rewrite Hone in Hmap.
    destruct (queue_max_times s) as [|m [|m' l]]; try discriminate.
    cbn in Hhd. now inversion Hhd.
Qed.

Lemma no_wait_with_enough_servers_witness :
  exists r n',
    simulate_queue (fixed_variates [1; 0; 5; 0] 1) 1 1 1 1 0%nat = (Ok r, n') /\
    Forall (fun w => w == 0) (SimResult.waits r).
Proof.
  destruct (no_wait_with_enough_servers (fixed_variates [1; 0; 5; 0] 1) 1 1 1 1 0%nat)
    as (r & n' & Hrun & Hw & _).
  - repeat split; try lia; reflexivity.
  - lia.
  - exists r, n'. split; assumption.
Defined.

(** X5.  [total_time] is the time the last client finishes: no service
    ends after it and one ends exactly then. *)
Theorem total_time_is_last_service_end
    (expovariate : nat -> Q -> Q) (clients : Z) (arrival_rate service_rate : Q)
    (counters : Z) (n0 : nat) :
  valid_input clients arrival_rate service_rate counters ->
  nonneg_variates expovariate ->
  exists s r n',
    simulate_queue expovariate clients arrival_rate service_rate counters n0 = (Ok r, n') /\
    final_state expovariate clients arrival_rate service_rate counters n0 = (Ok s, n') /\
    Forall (fun c => service_end c <= SimResult.total_time r) (assigned s) /\
    exists c, In c (assigned s) /\ service_end c = SimResult.total_time r.
Proof.
  intros (Hcl & Har & Hsr & Hco) Hnonneg.
  destruct (final_state_ok expovariate clients arrival_rate service_rate counters
              Hco Hcl Har Hsr n0) as (s & n' & Hfin & Hreach & Hserved & _ & _ & Hheap).
  pose proof (reachable_ends _ _ _ _ _ Hco Hcl Har Hsr Hnonneg n0 _ Hreach)
    as (Hends & _ & Hlast).
  cbn [fst snd] in *.
  exists s, (make_result clients arrival_rate service_rate counters s), n'.
  split; [now apply simulate_queue_eq|]. split; [assumption|].
  cbn [make_result SimResult.total_time]. split.
  - eapply Forall_impl; [exact Hends|]. cbn. rewrite Hheap.
    intros c [H|[]]. exact H.
  - apply Hlast. lia.
Qed.

Lemma total_time_is_last_service_end_witness :
  exists r n',
    simulate_queue (fixed_variates [1; 0; 5; 0] 1) 3 1 1 1 0%nat = (Ok r, n') /\
    SimResult.total_time r = 8.
Proof.
  destruct (total_time_is_last_service_end (fixed_variates [1; 0; 5; 0] 1) 3 1 1 1 0%nat)
    as (s & r & n' & Hrun & _ & _ & _).
  - repeat split; try lia; reflexivity.
  - apply fixed_variates_nonneg; [repeat constructor; discriminate | discriminate].
  - exists r, n'. split; [assumption|].
    vm_compute in Hrun. inversion Hrun; subst. reflexivity.
Defined.

(** X6.  For every client of a completed run, the time in the system
    [system_time] is at least the wait, which is not negative, and at
    most [total_time]: no client arrives before time 0 and each has left
    when the run ends. *)
Theorem system_time_bounds
    (expovariate : nat -> Q -> Q) (clients : Z) (arrival_rate service_rate : Q)
    (counters : Z) (n0 : nat) :
  valid_input clients arrival_rate service_rate counters ->
  nonneg_variates expovariate ->
  exists s r n',
    simulate_queue expovariate clients arrival_rate service_rate counters n0 = (Ok r, n') /\
    final_state expovariate clients arrival_rate service_rate counters n0 = (Ok s, n') /\
    Z.of_nat (length (assigned s)) = clients /\
    Forall (fun c =>
              0 <= arrival c /\
              0 <= wait c /\ wait c <= system_time c /\
              system_time c <= SimResult.total_time r) (assigned s).
Proof.
  intros (Hcl & Har & Hsr & Hco) Hnonneg.
  destruct (final_state_ok expovariate clients arrival_rate service_rate counters
              Hco Hcl Har Hsr n0) as (s & n' & Hfin & Hreach & Hserved & _ & Hqueue & Hheap).
  pose proof (reachable_ends _ _ _ _ _ Hco Hcl Har Hsr Hnonneg n0 _ Hreach)
    as (Hends & _ & _).
  pose proof (reachable_time_inv _ _ _ _ _ Hco Hcl Har Hsr Hnonneg n0 _ Hreach) as Htime.
  pose proof (reachable_arrivals _ _ _ _ _ Hco Hcl Har Hsr Hnonneg n0 _ Hreach) as Harr.
  pose proof (reachable_inv _ _ _ _ _ Hco Hcl Har Hsr n0 _ Hreach) as Hinv.
  cbn [fst snd] in *.
  exists s, (make_result clients arrival_rate service_rate counters s), n'.
  split; [now apply simulate_queue_eq|]. split; [assumption|].
  split; [pose proof (inv_assigned Hinv) as Hn; rewrite Hheap in Hn; cbn in Hn; lia|].
  cbn [make_result SimResult.total_time].
  pose proof (tinv_assigned Htime) as Hass. rewrite Hheap in Hends.
  rewrite Hqueue, app_nil_r in Harr.
  rewrite Forall_forall in Hends, Hass, Harr. apply Forall_forall. intros c Hc.
  destruct (Hass c Hc) as [H1 H2]. destruct (Hends c Hc) as [H3|[]].
  pose proof (Harr c Hc) as H0.
  unfold system_time, wait. repeat split; lra.
Qed.

Lemma system_time_bounds_witness :
  exists s r n',
    simulate_queue (fixed_variates [1; 0; 5; 0] 1) 3 1 1 1 0%nat = (Ok r, n') /\
    final_state (fixed_variates [1; 0; 5; 0] 1) 3 1 1 1 0%nat = (Ok s, n') /\
    Forall (fun c => wait c <= system_time c /\
                     system_time c <= SimResult.total_time r) (assigned s).
Proof.
  destruct (system_time_bounds (fixed_variates [1; 0; 5; 0] 1) 3 1 1 1 0%nat)
    as (s & r & n' & Hrun & Hfin & _ & Hall).
  - repeat split; try lia; reflexivity.
  - apply fixed_variates_nonneg; [repeat constructor; discriminate | discriminate].
  - exists s, r, n'. split; [assumption|]. split; [assumption|].
    eapply Forall_impl; [exact Hall|]. cbn. intros c (_ & _ & H1 & H2). now split.
Defined.

Lemma seq_offset (a n j : nat) :
  map Z.of_nat (seq (j + a) n)
  = map (fun k => (Z.of_nat a + Z.of_nat k)%Z) (seq j n).
Proof.
  revert j. induction n as [|n IH]; intros j; [reflexivity|].
  cbn [seq map]. f_equal; [lia|]. apply (IH (S j)).
Qed.

(** X7.  At every point of a run each client generated so far is served,
    in service or queued, exactly one of the three; no more than [clients]
    are ever generated, and the waits recorded are those of the clients
    served or in service. *)
Theorem customers_accounted_for
    (expovariate : nat -> Q -> Q) (clients : Z) (arrival_rate service_rate : Q)
    (counters : Z) (n0 : nat) (pc : point) (s : State) (n : nat) :
  valid_input clients arrival_rate service_rate counters ->
  reachable expovariate clients arrival_rate service_rate counters n0 (pc, s, n) ->
  client_id s
  = (served s + Z.of_nat (length (busy_heap s)) + Z.of_nat (length (queue s)))%Z /\
  (0 <= served s)%Z /\ (client_id s <= clients)%Z /\
  Z.of_nat (length (waits s)) = (served s + Z.of_nat (length (busy_heap s)))%Z /\
  map cid (queue s)
  = map (fun k => (served s + Z.of_nat (length (busy_heap s)) + Z.of_nat k)%Z)
      (seq 1 (length (queue s))).
Proof.
  intros (Hcl & Har & Hsr & Hco) Hreach.
  pose proof (reachable_inv _ _ _ _ _ Hco Hcl Har Hsr n0 _ Hreach) as Hinv.
  pose proof (reachable_fcfs _ _ _ _ _ Hco Hcl Har Hsr n0 _ Hreach) as [_ Hids].
  cbn [fst snd] in *.
  pose proof (inv_count Hinv) as Hcount. pose proof (inv_assigned Hinv) as Hass.
  split; [assumption|]. split; [exact (inv_served Hinv)|].
  split; [exact (inv_client Hinv)|].
  split; [rewrite (inv_waits Hinv), length_map; assumption|].
  rewrite map_app in Hids. unfold ids in Hids.
  replace (Z.to_nat (client_id s)) with (length (assigned s) + length (queue s))%nat
    in Hids by lia.
  rewrite seq_app, map_app in Hids.
  apply app_inj_1 in Hids; [|now rewrite !length_map, length_seq].
  destruct Hids as [_ Hq]. rewrite Hq, <- Hass. apply seq_offset.
Qed.

Lemma customers_accounted_for_witness :
  client_id two_pending
  = (served two_pending + Z.of_nat (length (busy_heap two_pending))
     + Z.of_nat (length (queue two_pending)))%Z.
Proof.
  apply (customers_accounted_for (fixed_variates [1; 0; 2; 0; 2] 1) 3 1 1 3 0%nat
           AssignHead two_pending 5%nat).
  - repeat split; try lia; reflexivity.
  - apply two_pending_reachable.
Defined.

(** X8.  Whenever the loop is about to pick an event, no client is waiting
    while a server is free. *)
Theorem no_idle_server_while_waiting
    (expovariate : nat -> Q -> Q) (clients : Z) (arrival_rate service_rate : Q)
    (counters : Z) (n0 : nat) (s : State) (n : nat) :
  valid_input clients arrival_rate service_rate counters ->
  reachable expovariate clients arrival_rate service_rate counters n0 (LoopHead, s, n) ->
  free_servers s = [] \/ queue s = [].
Proof.
  intros (Hcl & Har & Hsr & Hco) Hreach.
  pose proof (reachable_inv _ _ _ _ _ Hco Hcl Har Hsr n0 _ Hreach) as Hinv.
  exact (inv_idle Hinv eq_refl).
Qed.

Lemma no_idle_server_while_waiting_witness :
  exists s n,
    advance (fixed_variates [1; 2; 2] 1) 2 1 1 3
      (initial_config (fixed_variates [1; 2; 2] 1) 1 1 0%nat) = Some (LoopHead, s, n) /\
    (free_servers s = [] \/ queue s = []).
Proof.
  eexists _, _. split; [vm_compute; reflexivity|].
  eapply (no_idle_server_while_waiting (fixed_variates [1; 2; 2] 1) 2 1 1 1 0%nat).
  - repeat split; try lia; reflexivity.
  - apply advance_steps with (k := 3%nat). vm_compute. reflexivity.
Defined.

(** X9.  The simulated clock starts at 0 and no step of the loop takes it
    back. *)
Theorem clock_never_goes_back
    (expovariate : nat -> Q -> Q) (clients : Z) (arrival_rate service_rate : Q)
    (counters : Z) (n0 : nat) (x y : point * State * nat) :
  valid_input clients arrival_rate service_rate counters ->
  nonneg_variates expovariate ->
  reachable expovariate clients arrival_rate service_rate counters n0 x ->
  step_to expovariate clients arrival_rate service_rate x y ->
  0 <= t (snd (fst x)) /\ t (snd (fst x)) <= t (snd (fst y)).
Proof.
  intros (Hcl & Har & Hsr & Hco) Hnonneg Hreach Hstep.
  pose proof (reachable_inv _ _ _ _ _ Hco Hcl Har Hsr n0 _ Hreach) as Hinv.
  pose proof (reachable_time_inv _ _ _ _ _ Hco Hcl Har Hsr Hnonneg n0 _ Hreach) as Htime.
  split; [exact (tinv_t Htime)|].
  apply (transition_clock expovariate clients arrival_rate service_rate counters
           Hco Hcl Har Hsr Hnonneg n0 x y Hreach).
  now apply (step_to_transition expovariate clients arrival_rate service_rate counters).
Qed.

Lemma clock_never_goes_back_witness :
  0 <= t (initial_state 1 1) /\
  t (initial_state 1 1) <= t (arrival_state (initial_state 1 1) 2).
Proof.
  apply (clock_never_goes_back (fixed_variates [1; 2; 2] 1) 2 1 1 1 0%nat
           (initial_config (fixed_variates [1; 2; 2] 1) 1 1 0%nat)
           (AssignHead, arrival_state (initial_state 1 1) 2, 2%nat)).
  - repeat split; try lia; reflexivity.
  - apply fixed_variates_nonneg; [repeat constructor; discriminate | discriminate].
  - apply rtc_refl.
  - vm_compute. reflexivity.
Defined.

(** X10.  With a single server the services do not overlap: each client's
    service starts when or after the previous client's has ended. *)
Theorem single_server_serves_one_at_a_time
    (expovariate : nat -> Q -> Q) (clients : Z) (arrival_rate service_rate : Q)
    (n0 : nat) :
  valid_input clients arrival_rate service_rate 1 ->
  nonneg_variates expovariate ->
  exists s n',
    final_state expovariate clients arrival_rate service_rate 1 n0 = (Ok s, n') /\
    increasing (fun a b => service_end a <= service_start b) (assigned s).
Proof.
  intros (Hcl & Har & Hsr & Hco) Hnonneg.
  destruct (final_state_ok expovariate clients arrival_rate service_rate 1
              Hco Hcl Har Hsr n0) as (s & n' & Hfin & Hreach & _).
  pose proof (reachable_serial _ _ _ _ _ Hco Hcl Har Hsr Hnonneg n0 _ eq_refl Hreach)
    as [Hser _].
  exists s, n'. split; assumption.
Qed.

Lemma single_server_serves_one_at_a_time_witness :
  exists s n',
    final_state (fixed_variates [1; 0; 5; 0] 1) 3 1 1 1 0%nat = (Ok s, n') /\
    increasing (fun a b => service_end a <= service_start b) (assigned s).
Proof.
  apply (single_server_serves_one_at_a_time (fixed_variates [1; 0; 5; 0] 1) 3 1 1 0%nat).
  - repeat split; try lia; reflexivity.
  - apply fixed_variates_nonneg; [repeat constructor; discriminate | discriminate].
Defined.

(** * More properties of [pct] and of the callers *)

Lemma Sorted_lookup_le (s : list Q) (i j : nat) (a b : Q) :
  Sorted Qle s -> (i <= j)%nat -> s !! i = Some a -> s !! j = Some b -> a <= b.
Proof.
  intros Hs. apply Sorted_StronglySorted in Hs; [|intros x y z; apply Qle_trans].
  revert i j. induction Hs as [|x l Hl IH Hx]; intros i j Hij Ha Hb.
  - now rewrite lookup_nil in Ha.
  - destruct i as [|i], j as [|j]; cbn in Ha, Hb; try lia.
    + inversion Ha; inversion Hb; subst. apply Qle_refl.
    + inversion Ha; subst. apply (Forall_lookup_1 _ _ _ _ Hx Hb).
    + apply (IH i j); [lia | assumption | assumption].
Qed.

(** The value of [pct] when both ranks fall inside the sorted sample. *)
Lemma pct_value (values : list Q) (p slo shi : Q) :
  let s := sorted values in
  let k := (p / 100) * inject_Z (Z.of_nat (length values) - 1) in
  values <> [] -> (0 <= Qfloor k)%Z ->
  s !! Z.to_nat (Qfloor k) = Some slo ->
  s !! Z.to_nat (Qceiling k) = Some shi ->
  exists v, pct values p = Ok v /\ v == slo + (shi - slo) * (k - inject_Z (Qfloor k)).
Proof.
  intros s k Hne Hlo Hslo Hshi.
  assert (Hhi : (0 <= Qceiling k)%Z).
  { pose proof (Qle_floor_ceiling k) as H. rewrite <- Zle_Qle in H.
    exact (Z.le_trans _ _ _ Hlo H). }
  unfold pct. rewrite (proj2 (truthy_true values) Hne). cbn [negb].
  rewrite sorted_length. fold s. fold k.
  rewrite !getitem_Z_nonneg by lia.
  rewrite (getitem_Some _ _ _ Hslo), (getitem_Some _ _ _ Hshi).
  destruct (Z.eqb_spec (Qfloor k) (Qceiling k)) as [E|E].
  - exists slo. split; [reflexivity|].
    rewrite <- E in Hshi. rewrite Hslo in Hshi. inversion Hshi; subst. ring.
  - cbn [rbind]. eexists. split; reflexivity.
Qed.

(** The fractional part of a rank, and how far its ceiling is. *)
Lemma rank_fraction (k : Q) :
  0 <= k - inject_Z (Qfloor k) /\ k - inject_Z (Qfloor k) < 1 /\
  (Qceiling k <= Qfloor k + 1)%Z /\
  (Qfloor k = Qceiling k -> k == inject_Z (Qfloor k)).
Proof.
  pose proof (Qfloor_le k) as H1. pose proof (Qlt_floor k) as H2.
  pose proof (Qceiling_lt k) as H3. pose proof (Qle_ceiling k) as H4.
  rewrite inject_Z_plus in H2. unfold Z.sub in H3. rewrite inject_Z_plus in H3.
  change (inject_Z 1) with 1 in H2. change (inject_Z (Z.opp 1)) with (-(1)) in H3.
  repeat split; try lra.
  - assert (H : inject_Z (Qceiling k) < inject_Z (Qfloor k + 2)).
    { rewrite inject_Z_plus. change (inject_Z 2) with 2. lra. }
    rewrite <- Zlt_Qlt in H. lia.
  - intros E. rewrite <- E in H4. lra.
Qed.

(** [pct] lies between the two order statistics it interpolates. *)
Lemma pct_between_ranks (values : list Q) (p : Q) :
  let s := sorted values in
  let k := (p / 100) * inject_Z (Z.of_nat (length values) - 1) in
  values <> [] -> 0 <= p <= 100 ->
  exists v slo shi,
    pct values p = Ok v /\
    s !! Z.to_nat (Qfloor k) = Some slo /\ s !! Z.to_nat (Qceiling k) = Some shi /\
    v == slo + (shi - slo) * (k - inject_Z (Qfloor k)) /\
    slo <= v /\ v <= shi.
Proof.
  intros s k Hne Hp.
  assert (Hlen : (0 < length values)%nat) by (destruct values; [congruence | cbn; lia]).
  destruct (rank_bounds p (length values) Hp Hlen) as (Hlo & Hlohi & Hhi).
  fold k in Hlo, Hlohi, Hhi.
  destruct (lookup_lt_is_Some_2 s (Z.to_nat (Qfloor k))) as [slo Hslo].
  { unfold s. rewrite sorted_length. lia. }
  destruct (lookup_lt_is_Some_2 s (Z.to_nat (Qceiling k))) as [shi Hshi].
  { unfold s. rewrite sorted_length. lia. }
  destruct (pct_value values p slo shi Hne Hlo Hslo Hshi) as (v & Hv & Ev).
  fold k in Ev.
  assert (Hle : slo <= shi).
  { apply (Sorted_lookup_le s (Z.to_nat (Qfloor k)) (Z.to_nat (Qceiling k)));
      [apply sorted_Sorted | lia | assumption | assumption]. }
  destruct (rank_fraction k) as (Hf0 & Hf1 & _).
  exists v, slo, shi. repeat split; try assumption; rewrite Ev; nra.
Qed.

Lemma sorted_ends (values : list Q) :
  values <> [] ->
  exists mn mx,
    sorted values !! 0%nat = Some mn /\
    sorted values !! (length values - 1)%nat = Some mx /\
    In mn values /\ In mx values /\
    Forall (fun x => mn <= x /\ x <= mx) values.
Proof.
  intros Hne.
  assert (Hlen : (0 < length (sorted values))%nat).
  { rewrite sorted_length. destruct values; [congruence | cbn; lia]. }
  destruct (lookup_lt_is_Some_2 (sorted values) 0%nat Hlen) as [mn Hmn].
  destruct (lookup_lt_is_Some_2 (sorted values) (length values - 1)%nat) as [mx Hmx].
  { rewrite sorted_length in *. lia. }
  exists mn, mx. split; [assumption|]. split; [assumption|].
  assert (Hin : forall x, x ∈ sorted values -> In x values).
  { intros x Hx. apply list_elem_of_In. now rewrite <- (sorted_perm values). }
  split; [apply Hin; now apply list_elem_of_lookup_2 in Hmn|].
  split; [apply Hin; now apply list_elem_of_lookup_2 in Hmx|].
  apply Forall_forall. intros x Hx.
  rewrite <- (sorted_perm values) in Hx.
  apply list_elem_of_lookup in Hx. destruct Hx as [i Hi].
  pose proof (lookup_lt_Some _ _ _ Hi) as Hi'. rewrite sorted_length in Hi'.
  split.
  - apply (Sorted_lookup_le (sorted values) 0 i); auto using sorted_Sorted. lia.
  - apply (Sorted_lookup_le (sorted values) i (length values - 1)); auto using sorted_Sorted.
    lia.
Qed.

(** X11.  For a non-empty sample and [p] in [[0, 100]], [pct] returns a
    value between the smallest and the largest sample; it is the smallest
    for [p = 0] and the largest for [p = 100]. *)
Theorem pct_within_sample (values : list Q) (p : Q) :
  values <> [] -> 0 <= p <= 100 ->
  exists v mn mx,
    pct values p = Ok v /\
    In mn values /\ In mx values /\
    Forall (fun x => mn <= x /\ x <= mx) values /\
    mn <= v /\ v <= mx /\
    (p == 0 -> v == mn) /\ (p == 100 -> v == mx).
Proof.
  intros Hne Hp.
  destruct (sorted_ends values Hne) as (mn & mx & Hmn & Hmx & Hinmn & Hinmx & Hall).
  destruct (pct_between_ranks values p Hne Hp) as (v & slo & shi & Hv & Hslo & Hshi & Ev & Hlo & Hhi).
  set (k := p / 100 * inject_Z (Z.of_nat (length values) - 1)) in *.
  assert (Hlen : (0 < length values)%nat) by (destruct values; [congruence | cbn; lia]).
  destruct (rank_bounds p (length values) Hp Hlen) as (Hf0 & Hfc & Hc).
  fold k in Hf0, Hfc, Hc.
  exists v, mn, mx. split; [assumption|]. split; [assumption|]. split; [assumption|].
  split; [assumption|].
  assert (Hmnslo : mn <= slo).
  { apply (Sorted_lookup_le (sorted values) 0 (Z.to_nat (Qfloor k)));
      auto using sorted_Sorted. lia. }
  assert (Hshimx : shi <= mx).
  { apply (Sorted_lookup_le (sorted values) (Z.to_nat (Qceiling k)) (length values - 1));
      auto using sorted_Sorted. lia. }
  split; [lra|]. split; [lra|]. split.
  - intros Hp0.
    assert (Ek : k == 0) by (unfold k; rewrite Hp0; unfold Qdiv; ring).
    rewrite (Qfloor_comp _ _ Ek) in Hslo. rewrite (Qceiling_comp _ _ Ek) in Hshi.
    change (Z.to_nat (Qfloor 0)) with 0%nat in Hslo.
    change (Z.to_nat (Qceiling 0)) with 0%nat in Hshi.
    rewrite Hmn in Hslo, Hshi. inversion Hslo; inversion Hshi; subst.
    rewrite Ev. ring.
  - intros Hp1.
    assert (Ek : k == inject_Z (Z.of_nat (length values) - 1)).
    { unfold k. rewrite Hp1. field. }
    rewrite (Qfloor_comp _ _ Ek), Qfloor_Z in Hslo.
    rewrite (Qceiling_comp _ _ Ek), Qceiling_Z in Hshi.
    replace (Z.to_nat (Z.of_nat (length values) - 1)) with (length values - 1)%nat
      in Hslo, Hshi by lia.
    rewrite Hmx in Hslo, Hshi. inversion Hslo; inversion Hshi; subst.
    rewrite Ev. ring.
Qed.

Lemma pct_within_sample_witness :
  exists v, pct [3; 1; 2] 25 = Ok v /\ 1 <= v /\ v <= 3.
Proof.
  destruct (pct_within_sample [3; 1; 2] 25) as (v & mn & mx & Hv & Hmn & Hmx & _ & H1 & H2 & _).
  - discriminate.
  - split; discriminate.
  - exists v. split; [assumption|]. split.
    + destruct Hmn as [<-|[<-|[<-|[]]]]; lra.
    + destruct Hmx as [<-|[<-|[<-|[]]]]; lra.
Defined.

(** The interpolation of [pct] does not decrease with the rank. *)
Lemma rank_monotone (s : list Q) (kp kq a b c d : Q) :
  Sorted Qle s -> (0 <= Qfloor kp)%Z -> kp <= kq ->
  s !! Z.to_nat (Qfloor kp) = Some a -> s !! Z.to_nat (Qceiling kp) = Some b ->
  s !! Z.to_nat (Qfloor kq) = Some c -> s !! Z.to_nat (Qceiling kq) = Some d ->
  a + (b - a) * (kp - inject_Z (Qfloor kp)) <= c + (d - c) * (kq - inject_Z (Qfloor kq)).
Proof.
  intros Hs Hp0 Hk Ha Hb Hc Hd.
  pose proof (Qfloor_resp_le _ _ Hk) as Hfl.
  destruct (rank_fraction kp) as (Hp1 & Hp2 & Hp3 & _).
  destruct (rank_fraction kq) as (Hq1 & Hq2 & Hq3 & _).
  assert (Hpc : (Qfloor kp <= Qceiling kp)%Z).
  { rewrite Zle_Qle. apply Qle_floor_ceiling. }
  assert (Hqc : (Qfloor kq <= Qceiling kq)%Z).
  { rewrite Zle_Qle. apply Qle_floor_ceiling. }
  assert (Hab : a <= b).
  { apply (Sorted_lookup_le s (Z.to_nat (Qfloor kp)) (Z.to_nat (Qceiling kp)));
      auto. lia. }
  assert (Hcd : c <= d).
  { apply (Sorted_lookup_le s (Z.to_nat (Qfloor kq)) (Z.to_nat (Qceiling kq)));
      auto. lia. }
  destruct (Z.le_gt_cases (Qceiling kp) (Qfloor kq)) as [Hcase|Hcase].
  - assert (Hbc : b <= c).
    { apply (Sorted_lookup_le s (Z.to_nat (Qceiling kp)) (Z.to_nat (Qfloor kq)));
        auto. lia. }
    nra.
  - assert (Efl : Qfloor kp = Qfloor kq) by lia.
    assert (Ecp : Qceiling kp = (Qfloor kq + 1)%Z) by lia.
    assert (Hnp : inject_Z (Qfloor kq) < kp).
    { pose proof (Qfloor_le kp) as H'. rewrite Efl in H'.
      destruct (Qlt_le_dec (inject_Z (Qfloor kq)) kp) as [Hlt|Hge]; [assumption|].
      assert (E : kp == inject_Z (Qfloor kq)) by lra.
      rewrite (Qceiling_comp _ _ E), Qceiling_Z in Ecp. lia. }
    assert (Ecq : Qceiling kq = (Qfloor kq + 1)%Z).
    { pose proof (Qle_ceiling kq) as H.
      assert (H' : inject_Z (Qfloor kq) < inject_Z (Qceiling kq)) by lra.
      rewrite <- Zlt_Qlt in H'. lia. }
    rewrite Efl in Ha |- *. rewrite Ecp in Hb. rewrite Ecq in Hd.
    rewrite Ha in Hc. inversion Hc; subst c. rewrite Hb in Hd. inversion Hd; subst d.
    nra.
Qed.

(** The ranks of [p <= q] are in that order. *)
Lemma rank_le (p q : Q) (n : nat) :
  (0 < n)%nat -> p <= q ->
  p / 100 * inject_Z (Z.of_nat n - 1) <= q / 100 * inject_Z (Z.of_nat n - 1).
Proof.
  intros Hn Hpq.
  assert (Hm : 0 <= inject_Z (Z.of_nat n - 1)).
  { change 0 with (inject_Z 0). rewrite <- Zle_Qle. lia. }
  apply Qmult_le_compat_r; [|assumption].
  apply Qmult_le_compat_r; [assumption | discriminate].
Qed.

(** X12.  [pct] does not decrease with [p]: for [0 <= p <= q <= 100] the
    [p]-th percentile of a non-empty sample is at most the [q]-th. *)
Theorem pct_monotone (values : list Q) (p q : Q) :
  values <> [] -> 0 <= p -> p <= q -> q <= 100 ->
  exists v w, pct values p = Ok v /\ pct values q = Ok w /\ v <= w.
Proof.
  intros Hne Hp Hpq Hq.
  destruct (pct_between_ranks values p Hne) as (v & a & b & Hv & Ha & Hb & Ev & _);
    [split; lra|].
  destruct (pct_between_ranks values q Hne) as (w & c & d & Hw & Hc & Hd & Ew & _);
    [split; lra|].
  exists v, w. split; [assumption|]. split; [assumption|].
  assert (Hlen : (0 < length values)%nat) by (destruct values; [congruence | cbn; lia]).
  destruct (rank_bounds p (length values)) as (Hp0 & _ & _); [split; lra | assumption|].
  rewrite Ev, Ew.
  apply (rank_monotone (sorted values)); auto using sorted_Sorted.
  now apply rank_le.
Qed.

Lemma pct_monotone_witness :
  exists v w, pct [3; 1; 2] 25 = Ok v /\ pct [3; 1; 2] 90 = Ok w /\ v <= w.
Proof.
  apply (pct_monotone [3; 1; 2] 25 90); discriminate.
Defined.

Lemma getitem_Z_beyond {A} (l : list A) (i : Z) :
  (Z.of_nat (length l) <= i)%Z -> getitem_Z l i = Raise IndexError.
Proof.
  intros Hi. rewrite getitem_Z_nonneg by lia. unfold getitem.
  rewrite lookup_ge_None_2 by lia. reflexivity.
Qed.

(** X13.  [pct] does not check [p]: on a sample of two or more values every
    [p] above 100 raises [IndexError]. *)
Theorem pct_above_100_raises (values : list Q) (p : Q) :
  (2 <= length values)%nat -> 100 < p -> pct values p = Raise IndexError.
Proof.
  intros Hlen Hp.
  assert (Hne : values <> []) by (destruct values; [cbn in Hlen; lia | discriminate]).
  unfold pct. rewrite (proj2 (truthy_true values) Hne). cbn [negb].
  rewrite sorted_length.
  set (m := (Z.of_nat (length values) - 1)%Z).
  set (k := p / 100 * inject_Z m).
  assert (Hm : 1 <= inject_Z m).
  { change 1 with (inject_Z 1). rewrite <- Zle_Qle. unfold m. lia. }
  assert (Hk : inject_Z m < k).
  { unfold k. assert (H1 : 1 < p / 100) by (apply Qlt_shift_div_l; lra). nra. }
  assert (Hfl : (m <= Qfloor k)%Z).
  { rewrite <- (Qfloor_Z m). apply Qfloor_resp_le. lra. }
  assert (Hce : (m < Qceiling k)%Z).
  { pose proof (Qle_ceiling k) as H.
    assert (H' : inject_Z m < inject_Z (Qceiling k)) by lra.
    now rewrite <- Zlt_Qlt in H'. }
  assert (Hbeyond : getitem_Z (sorted values) (Qceiling k) = Raise IndexError).
  { apply getitem_Z_beyond. rewrite sorted_length. unfold m in Hce. lia. }
  destruct (Z.eqb_spec (Qfloor k) (Qceiling k)) as [E|E].
  - rewrite E. exact Hbeyond.
  - destruct (Z.eq_dec (Qfloor k) m) as [Em|Em].
    + rewrite Hbeyond.
      destruct (lookup_lt_is_Some_2 (sorted values) (Z.to_nat (Qfloor k))) as [slo Hslo].
      { rewrite sorted_length, Em. unfold m. lia. }
      rewrite getitem_Z_nonneg by (rewrite Em; unfold m; lia).
      now rewrite (getitem_Some _ _ _ Hslo).
    + rewrite (getitem_Z_beyond (sorted values) (Qfloor k)); [reflexivity|].
      rewrite sorted_length. unfold m in *. lia.
Qed.

Lemma pct_above_100_raises_witness : pct [1; 2; 3; 4] 101 = Raise IndexError.
Proof.
  apply pct_above_100_raises; [cbn; lia | reflexivity].
Defined.

(** X14.  Nor does it reject a negative [p]: while the rank
    [k = (p / 100) * (len - 1)] stays above -1, the index -1 wraps to the
    largest sample and [pct] returns [max + (min - max) * (k + 1)]: a value
    that moves from the smallest sample towards the largest one as [p]
    goes down from 0. *)
Theorem pct_negative_wraps (values : list Q) (p : Q) :
  let k := (p / 100) * inject_Z (Z.of_nat (length values) - 1) in
  (2 <= length values)%nat -> p < 0 -> -(1) < k ->
  exists v mn mx,
    pct values p = Ok v /\
    In mn values /\ In mx values /\
    Forall (fun x => mn <= x /\ x <= mx) values /\
    v == mx + (mn - mx) * (k + 1).
Proof.
  intros k Hlen Hp Hk.
  assert (Hne : values <> []) by (destruct values; [cbn in Hlen; lia | discriminate]).
  destruct (sorted_ends values Hne) as (mn & mx & Hmn & Hmx & Hinmn & Hinmx & Hall).
  assert (Hm : 1 <= inject_Z (Z.of_nat (length values) - 1)).
  { change 1 with (inject_Z 1). rewrite <- Zle_Qle. lia. }
  assert (Hk0 : k < 0).
  { unfold k. assert (H1 : p / 100 < 0).
    { apply Qlt_shift_div_r; lra. }
    nra. }
  destruct (rank_fraction k) as (Hf0 & Hf1 & Hc1 & _).
  pose proof (Qle_ceiling k) as Hc2. pose proof (Qceiling_lt k) as Hc3.
  unfold Z.sub in Hc3. rewrite inject_Z_plus in Hc3.
  change (inject_Z (Z.opp 1)) with (-(1)) in Hc3.
  assert (Efl : Qfloor k = (-1)%Z).
  { assert (H1 : inject_Z (Qfloor k) < inject_Z 0) by (change (inject_Z 0) with 0; lra).
    assert (H2 : inject_Z (-2) < inject_Z (Qfloor k)).
    { change (inject_Z (-2)) with (-(2)). lra. }
    rewrite <- Zlt_Qlt in H1, H2. lia. }
  assert (Ece : Qceiling k = 0%Z).
  { assert (H1 : inject_Z (Qceiling k) < inject_Z 1) by (change (inject_Z 1) with 1; lra).
    assert (H2 : inject_Z (-1) < inject_Z (Qceiling k)).
    { change (inject_Z (-1)) with (-(1)). lra. }
    rewrite <- Zlt_Qlt in H1, H2. lia. }
  exists (mx + (mn - mx) * (k - inject_Z (-1))), mn, mx.
  split; [|split; [assumption|split; [assumption|split; [assumption|]]]].
  - unfold pct. rewrite (proj2 (truthy_true values) Hne). cbn [negb].
    rewrite sorted_length. fold k. rewrite Efl, Ece. cbn [Z.eqb].
    unfold getitem_Z. rewrite sorted_length. cbn [Z.leb Z.compare].
    destruct (Z.leb_spec (- Z.of_nat (length values)) (-1)) as [_|Hbad]; [|lia].
    replace (Z.to_nat (Z.of_nat (length values) + -1)) with (length values - 1)%nat by lia.
    change (Z.to_nat 0) with 0%nat.
    rewrite (getitem_Some _ _ _ Hmx), (getitem_Some _ _ _ Hmn). reflexivity.
  - change (inject_Z (-1)) with (-(1)). ring.
Qed.

Lemma pct_negative_wraps_witness :
  exists v, pct [1; 2; 3] (-10) = Ok v /\ v == 7 # 5.
Proof.
  destruct (pct_negative_wraps [1; 2; 3] (-10)) as (v & mn & mx & Hv & _ & _ & _ & _).
  - cbn. lia.
  - reflexivity.
  - reflexivity.
  - exists v. split; [assumption|].
    vm_compute in Hv. inversion Hv; subst. reflexivity.
Defined.

Lemma max_from_spec (x : Q) (l : list Q) :
  In (max_from x l) (x :: l) /\ Forall (fun y => y <= max_from x l) (x :: l).
Proof.
  revert x. induction l as [|y l IH]; intros x; cbn [max_from].
  - split; [now left | repeat constructor; apply Qle_refl].
  - destruct (IH (if Qlt_bool x y then y else x)) as [Hin Hall].
    apply Forall_cons in Hall. destruct Hall as [Hz Hall].
    destruct (Qlt_bool x y) eqn:E.
    + apply Qlt_bool_iff in E. split.
      * destruct Hin as [Hin|Hin]; [right; left; exact Hin | right; right; exact Hin].
      * constructor; [lra|]. constructor; assumption.
    + apply Qlt_bool_false in E. split.
      * destruct Hin as [Hin|Hin]; [left; exact Hin | right; right; exact Hin].
      * constructor; [assumption|]. constructor; [lra | assumption].
Qed.

(** X15.  The wait statistics of [format_result] never fail: they are
    skipped for an empty wait list, and otherwise the maximum is one of the
    waits, no wait exceeds it, and [p50 <= p90 <= p95 <= p99 <= max]. *)
Theorem format_result_stats_ordered (res : SimResult) :
  (SimResult.waits res = [] -> format_result_stats res = Ok None) /\
  (SimResult.waits res <> [] ->
   exists mx p50 p90 p95 p99,
     format_result_stats res = Ok (Some (mx, p50, p90, p95, p99)) /\
     In mx (SimResult.waits res) /\
     Forall (fun w => w <= mx) (SimResult.waits res) /\
     p50 <= p90 /\ p90 <= p95 /\ p95 <= p99 /\ p99 <= mx).
Proof.
  unfold format_result_stats. split.
  - intros ->. reflexivity.
  - intros Hne. rewrite (proj2 (truthy_true _) Hne).
    set (ws := SimResult.waits res) in *.
    assert (Hlen : (0 < length ws)%nat) by (destruct ws; [congruence | cbn; lia]).
    assert (Hmax : exists mx, py_max ws = Ok mx /\ In mx ws /\ Forall (fun w => w <= mx) ws).
    { destruct ws as [|x l]; [congruence|]. exists (max_from x l).
      split; [reflexivity | apply max_from_spec]. }
    destruct Hmax as (mx & -> & Hin & Hall). cbn [rbind].
    destruct (pct_between_ranks ws 50 Hne) as (p50 & a1 & b1 & -> & Ha1 & Hb1 & E1 & _);
      [split; discriminate|].
    destruct (pct_between_ranks ws 90 Hne) as (p90 & a2 & b2 & -> & Ha2 & Hb2 & E2 & _);
      [split; discriminate|].
    destruct (pct_between_ranks ws 95 Hne) as (p95 & a3 & b3 & -> & Ha3 & Hb3 & E3 & _);
      [split; discriminate|].
    destruct (pct_between_ranks ws 99 Hne) as (p99 & a4 & b4 & -> & Ha4 & Hb4 & E4 & _ & Hp99);
      [split; discriminate|].
    cbn [rbind]. exists mx, p50, p90, p95, p99.
    split; [reflexivity|]. split; [assumption|]. split; [assumption|].
    destruct (rank_bounds 50 (length ws)) as (H50 & _); [split; discriminate | assumption|].
    destruct (rank_bounds 90 (length ws)) as (H90 & _); [split; discriminate | assumption|].
    destruct (rank_bounds 95 (length ws)) as (H95 & _); [split; discriminate | assumption|].
    repeat split.
    + rewrite E1, E2. apply (rank_monotone (sorted ws)); auto using sorted_Sorted.
      apply rank_le; [assumption | discriminate].
    + rewrite E2, E3. apply (rank_monotone (sorted ws)); auto using sorted_Sorted.
      apply rank_le; [assumption | discriminate].
    + rewrite E3, E4. apply (rank_monotone (sorted ws)); auto using sorted_Sorted.
      apply rank_le; [assumption | discriminate].
    + apply (Qle_trans _ b4); [assumption|].
      rewrite Forall_forall in Hall. apply Hall.
      apply list_elem_of_lookup_2 in Hb4. now rewrite (sorted_perm ws) in Hb4.
Qed.

Lemma format_result_stats_ordered_witness :
  exists mx p50 p90 p95 p99,
    format_result_stats (SimResult.mk 1 3 1 1 8 (11 # 3) 2 3 (7 # 8) [0; 5; 6] [])
    = Ok (Some (mx, p50, p90, p95, p99)) /\ p50 <= p99 /\ p99 <= mx.
Proof.
  destruct (format_result_stats_ordered
              (SimResult.mk 1 3 1 1 8 (11 # 3) 2 3 (7 # 8) [0; 5; 6] [])) as [_ H].
  destruct H as (mx & p50 & p90 & p95 & p99 & Hs & _ & _ & H1 & H2 & H3 & H4).
  - discriminate.
  - exists mx, p50, p90, p95, p99. split; [assumption|]. split; [lra | assumption].
Defined.

(** ** [compare_scenarios] *)

Section CompareFacts.
Variable expovariate : nat -> Q -> Q.
Variables (clients : Z) (arrival_rate service_rate : Q).

Local Abbreviation simulate_ :=
  (simulate_queue expovariate clients arrival_rate service_rate).
Local Abbreviation run_scenarios_ :=
  (run_scenarios expovariate clients arrival_rate service_rate).
Local Abbreviation D := (draws_per_run clients).

Lemma simulate_queue_rejects_counters counters n :
  (counters < 1)%Z ->
  simulate_ counters n = (Raise (ValueError "counters must be >= 1"), n).
Proof.
  intros Hc. unfold simulate_queue, final_state, bind.
  destruct (Z.ltb_spec counters 1); [reflexivity | lia].
Qed.

Lemma simulate_queue_rejects_rest counters n :
  (clients < 1)%Z \/ arrival_rate <= 0 \/ service_rate <= 0 ->
  exists msg, simulate_ counters n = (Raise (ValueError msg), n).
Proof.
  intros Hbad. unfold simulate_queue, final_state, bind.
  destruct (counters <? 1)%Z; [eexists; reflexivity|].
  destruct (Z.ltb_spec clients 1) as [Hcl|Hcl]; [eexists; reflexivity|].
  destruct (Qle_bool arrival_rate 0) eqn:Har; [eexists; reflexivity|].
  destruct (Qle_bool service_rate 0) eqn:Hsr; [eexists; reflexivity|].
  apply Qle_bool_false in Har, Hsr.
  destruct Hbad as [H|[H|H]]; [lia | lra | lra].
Qed.

Hypothesis clients_valid : (1 <= clients)%Z.
Hypothesis arrival_rate_valid : 0 < arrival_rate.
Hypothesis service_rate_valid : 0 < service_rate.

(** A run on a valid input, with where it leaves the random source. *)
Lemma simulate_queue_ok counters n :
  (1 <= counters)%Z ->
  exists r,
    simulate_ counters n = (Ok r, (n + D)%nat) /\
    SimResult.counters r = counters /\ SimResult.served r = clients.
Proof.
  intros Hco.
  destruct (run_completes expovariate clients arrival_rate service_rate counters
              Hco clients_valid arrival_rate_valid service_rate_valid n)
    as (s & n' & Hrun & Hreach & Hserved & Hid & _ & Hheap).
  pose proof (reachable_draws _ _ _ _ _ Hco clients_valid arrival_rate_valid
                service_rate_valid n _ Hreach) as Hdraws.
  pose proof (reachable_inv _ _ _ _ _ Hco clients_valid arrival_rate_valid
                service_rate_valid n _ Hreach) as Hinv.
  unfold draws_inv in Hdraws. cbn [fst snd] in Hdraws, Hinv.
  pose proof (inv_assigned Hinv) as Hn. rewrite Hheap in Hn. cbn in Hn.
  rewrite (inv_waits Hinv), length_map in Hdraws.
  eexists. replace (n + D)%nat with n' by (unfold draws_per_run; lia).
  split; [exact Hrun|]. split; [reflexivity | exact Hserved].
Qed.

(** The first loop: every scenario is run where the one before stopped,
    and the dict ends with, for each [c] of the list, the result of the
    last run made for [c]. *)
Lemma run_scenarios_ok (l : list Z) :
  Forall (fun c => (1 <= c)%Z) l ->
  forall results n,
  exists results',
    run_scenarios_ l results n = (Ok results', (n + length l * D)%nat) /\
    forall c,
      (~ In c l -> results' !! c = results !! c) /\
      (In c l ->
       exists k r,
         l !! k = Some c /\ (forall j, (k < j)%nat -> l !! j <> Some c) /\
         simulate_ c (n + k * D)%nat = (Ok r, (n + S k * D)%nat) /\
         results' !! c = Some r).
Proof.
  induction 1 as [|c0 l Hc0 Hl IH]; intros results n.
  - exists results. cbn. split; [f_equal; lia|]. intros c. split; [reflexivity | intros []].
  - destruct (simulate_queue_ok c0 n Hc0) as (r0 & Hrun & _).
    destruct (IH (<[c0:=r0]> results) (n + D)%nat) as (results' & Hrest & Hlook).
    exists results'. split.
    + cbn [run_scenarios]. unfold bind. rewrite Hrun, Hrest. f_equal. cbn [length]. lia.
    + intros c. destruct (Hlook c) as [Hout Hin]. split.
      * intros Hnot. rewrite Hout by (intros H'; apply Hnot; now right).
        apply lookup_insert_ne. intros ->. apply Hnot. now left.
      * intros Hc. destruct (in_dec Z.eq_dec c l) as [Hcl|Hcl].
        -- destruct (Hin Hcl) as (k & r & Hk & Hlast & Hsim & Hres).
           exists (S k), r. split; [exact Hk|]. split.
           ++ intros [|j] Hj; [lia|]. cbn. apply Hlast. lia.
           ++ split; [|assumption].
              replace (n + S k * D)%nat with (n + D + k * D)%nat by lia.
              replace (n + S (S k) * D)%nat with (n + D + S k * D)%nat by lia.
              exact Hsim.
        -- assert (c = c0) as -> by (destruct Hc as [->|Hc]; [reflexivity | contradiction]).
           exists 0%nat, r0. split; [reflexivity|]. split.
           ++ intros [|j] Hj; [lia|]. cbn. intros Hj'.
              apply Hcl. apply list_elem_of_In. now apply list_elem_of_lookup_2 in Hj'.
           ++ split.
              ** replace (n + 0 * D)%nat with n by lia.
                 replace (n + 1 * D)%nat with (n + D)%nat by lia. exact Hrun.
              ** rewrite (Hout Hcl). apply lookup_insert_eq.
Qed.

(** The second loop finds every key the first loop has set. *)
Lemma scenario_rows_ok (l : list Z) (results : gmap Z SimResult) :
  (forall c, In c l -> is_Some (results !! c)) ->
  exists rows,
    scenario_rows l results = Some rows /\ map fst rows = l /\
    forall i c r, rows !! i = Some (c, r) -> results !! c = Some r.
Proof.
  induction l as [|c0 l IH]; intros Hall.
  - exists []. cbn. repeat split. intros i c r H. now rewrite lookup_nil in H.
  - destruct (Hall c0) as [r0 Hr0]; [now left|].
    destruct IH as (rows & Hrows & Hfst & Hlook); [intros c Hc; apply Hall; now right|].
    exists ((c0, r0) :: rows). cbn [scenario_rows]. rewrite Hr0, Hrows.
    split; [reflexivity|]. split; [cbn; now rewrite Hfst|].
    intros [|i] c r Hi; cbn in Hi.
    + now inversion Hi; subst.
    + now apply (Hlook i).
Qed.
End CompareFacts.

Section CompareRuns.
Variable expovariate : nat -> Q -> Q.
Variables (clients : Z) (arrival_rate service_rate : Q).

Local Abbreviation simulate_ :=
  (simulate_queue expovariate clients arrival_rate service_rate).
Local Abbreviation run_scenarios_ :=
  (run_scenarios expovariate clients arrival_rate service_rate).
Local Abbreviation compare_ :=
  (compare_scenarios expovariate clients arrival_rate service_rate).
Local Abbreviation D := (draws_per_run clients).

Hypothesis clients_valid : (1 <= clients)%Z.
Hypothesis arrival_rate_valid : 0 < arrival_rate.
Hypothesis service_rate_valid : 0 < service_rate.

(** Both loops together: one row per entry of the list, each with the
    result of the last run made for its number of servers. *)
Lemma compare_scenarios_ok (l : list Z) (n0 : nat) :
  Forall (fun c => (1 <= c)%Z) l ->
  exists rows,
    compare_ l n0 = (Ok (Some rows), (n0 + length l * D)%nat) /\
    map fst rows = l /\
    forall i c r,
      rows !! i = Some (c, r) ->
      exists k,
        l !! k = Some c /\ (forall j, (k < j)%nat -> l !! j <> Some c) /\
        simulate_ c (n0 + k * D)%nat = (Ok r, (n0 + S k * D)%nat).
Proof.
  intros Hl.
  destruct (run_scenarios_ok expovariate clients arrival_rate service_rate
              clients_valid arrival_rate_valid service_rate_valid l Hl ∅ n0)
    as (results & Hrun & Hlook).
  destruct (scenario_rows_ok l results) as (rows & Hrows & Hfst & Hrow).
  { intros c Hc. destruct (proj2 (Hlook c) Hc) as (k & r & _ & _ & _ & Hr). now exists r. }
  exists rows. split; [|split; [exact Hfst|]].
  - unfold compare_scenarios, bind, ret. now rewrite Hrun, Hrows.
  - intros i c r Hi. pose proof (Hrow i c r Hi) as Hres.
    assert (In c l) as Hc.
    { rewrite <- Hfst. apply list_elem_of_In.
      change c with (fst (c, r)). apply list_elem_of_fmap_2.
      now apply list_elem_of_lookup_2 in Hi. }
    destruct (proj2 (Hlook c) Hc) as (k & r' & Hk & Hlast & Hsim & Hr').
    exists k. rewrite Hres in Hr'. inversion Hr'; subst r'. auto.
Qed.

(** The first loop stops at the first rejected scenario. *)
Lemma run_scenarios_stops (l1 l2 : list Z) (c : Z) :
  Forall (fun c => (1 <= c)%Z) l1 -> (c < 1)%Z ->
  forall results n,
    run_scenarios_ (l1 ++ c :: l2) results n =
    (Raise (ValueError "counters must be >= 1"), (n + length l1 * D)%nat).
Proof.
  intros Hl1 Hc. induction Hl1 as [|c0 l1 Hc0 Hl1 IH]; intros results n.
  - cbn [app run_scenarios length]. unfold bind.
    rewrite simulate_queue_rejects_counters by exact Hc. f_equal. lia.
  - destruct (simulate_queue_ok expovariate clients arrival_rate service_rate
                clients_valid arrival_rate_valid service_rate_valid c0 n Hc0)
      as (r0 & Hrun & _).
    cbn [app run_scenarios length]. unfold bind. rewrite Hrun, IH. f_equal. lia.
Qed.
End CompareRuns.

(** X16.  [compare_scenarios] on valid customers and rates and a list of
    server counts that are all at least 1 runs to the end: it reports one
    row per entry of the list, in the order of the list (no [KeyError]),
    each row holds a result for that number of servers in which every
    customer has been served, and the runs together draw
    [2 * clients + 1] variates per entry. *)
Theorem compare_scenarios_rows
    (expovariate : nat -> Q -> Q) (clients : Z) (arrival_rate service_rate : Q)
    (counters_list : list Z) (n0 : nat) :
  (1 <= clients)%Z -> 0 < arrival_rate -> 0 < service_rate ->
  Forall (fun c => (1 <= c)%Z) counters_list ->
  exists rows,
    compare_scenarios expovariate clients arrival_rate service_rate counters_list n0 =
      (Ok (Some rows), (n0 + length counters_list * draws_per_run clients)%nat) /\
    map fst rows = counters_list /\
    Forall (fun row => SimResult.counters (snd row) = fst row /\
                       SimResult.served (snd row) = clients) rows.
Proof.
  intros Hcl Har Hsr Hl.
  destruct (compare_scenarios_ok expovariate clients arrival_rate service_rate
              Hcl Har Hsr counters_list n0 Hl) as (rows & Hrun & Hfst & Hrow).
  exists rows. split; [exact Hrun|]. split; [exact Hfst|].
  apply Forall_lookup_2. intros i [c r] Hi.
  destruct (Hrow i c r Hi) as (k & Hk & _ & Hsim).
  assert (1 <= c)%Z as Hc.
  { rewrite Forall_forall in Hl. apply Hl. now apply list_elem_of_lookup_2 in Hk. }
  destruct (simulate_queue_ok expovariate clients arrival_rate service_rate
              Hcl Har Hsr c (n0 + k * draws_per_run clients)%nat Hc)
    as (r' & Hsim' & Hco & Hse).
  rewrite Hsim in Hsim'. inversion Hsim'; subst r'. now split.
Qed.

Lemma compare_scenarios_rows_witness :
  exists rows,
    compare_scenarios (fixed_variates [1; 0; 5; 0] 1) 3 1 1 [2; 1; 2]%Z 0%nat =
      (Ok (Some rows), 21%nat) /\
    map fst rows = [2; 1; 2]%Z /\
    Forall (fun row => SimResult.counters (snd row) = fst row /\
                       SimResult.served (snd row) = 3%Z) rows.
Proof.
  apply (compare_scenarios_rows (fixed_variates [1; 0; 5; 0] 1) 3 1 1 [2; 1; 2]%Z 0%nat);
    try lia; try reflexivity.
  repeat constructor; lia.
Defined.

(** X17.  The results are kept in a dict keyed by the number of servers, so
    when the list names a number twice the later run overwrites the
    earlier one: every row shows the result of the LAST run made for its
    number of servers (the run that starts after the variates of the
    entries before it), and two rows for the same number are identical. *)
Theorem compare_scenarios_last_run_wins
    (expovariate : nat -> Q -> Q) (clients : Z) (arrival_rate service_rate : Q)
    (counters_list : list Z) (n0 : nat) :
  (1 <= clients)%Z -> 0 < arrival_rate -> 0 < service_rate ->
  Forall (fun c => (1 <= c)%Z) counters_list ->
  exists rows n',
    compare_scenarios expovariate clients arrival_rate service_rate counters_list n0 =
      (Ok (Some rows), n') /\
    (forall i c r,
       rows !! i = Some (c, r) ->
       exists k,
         counters_list !! k = Some c /\
         (forall j, (k < j)%nat -> counters_list !! j <> Some c) /\
         fst (simulate_queue expovariate clients arrival_rate service_rate c
                (n0 + k * draws_per_run clients)%nat) = Ok r) /\
    (forall i j c r r',
       rows !! i = Some (c, r) -> rows !! j = Some (c, r') -> r = r').
Proof.
  intros Hcl Har Hsr Hl.
  destruct (compare_scenarios_ok expovariate clients arrival_rate service_rate
              Hcl Har Hsr counters_list n0 Hl) as (rows & Hrun & Hfst & Hrow).
  exists rows, (n0 + length counters_list * draws_per_run clients)%nat.
  split; [exact Hrun|]. split.
  - intros i c r Hi. destruct (Hrow i c r Hi) as (k & Hk & Hlast & Hsim).
    exists k. rewrite Hsim. auto.
  - intros i j c r r' Hi Hj.
    destruct (Hrow i c r Hi) as (k & Hk & Hlast & Hsim).
    destruct (Hrow j c r' Hj) as (k' & Hk' & Hlast' & Hsim').
    assert (k = k') as <-.
    { destruct (lt_eq_lt_dec k k') as [[H|H]|H]; [|exact H|].
      - now destruct (Hlast k' H).
      - now destruct (Hlast' k H). }
    rewrite Hsim in Hsim'. now inversion Hsim'.
Qed.

Lemma compare_scenarios_last_run_wins_witness :
  exists rows n',
    compare_scenarios (fixed_variates [1; 0; 5; 0] 1) 3 1 1 [2; 1; 2]%Z 0%nat =
      (Ok (Some rows), n') /\
    (forall i c r,
       rows !! i = Some (c, r) ->
       exists k,
         [2; 1; 2]%Z !! k = Some c /\
         (forall j, (k < j)%nat -> [2; 1; 2]%Z !! j <> Some c) /\
         fst (simulate_queue (fixed_variates [1; 0; 5; 0] 1) 3 1 1 c
                (0 + k * draws_per_run 3)%nat) = Ok r) /\
    (forall i j c r r',
       rows !! i = Some (c, r) -> rows !! j = Some (c, r') -> r = r').
Proof.
  apply (compare_scenarios_last_run_wins
           (fixed_variates [1; 0; 5; 0] 1) 3 1 1 [2; 1; 2]%Z 0%nat);
    try lia; try reflexivity.
  repeat constructor; lia.
Defined.

(** X18.  [compare_scenarios] does not validate its list beforehand: with
    valid customers and rates it runs the scenarios before the first
    number of servers below 1, drawing their variates, and then the
    [ValueError] of that scenario ends the call before anything is
    reported; with an invalid number of customers or an invalid rate the
    first scenario already raises, with no variate drawn. *)
Theorem compare_scenarios_stops_at_first_rejected
    (expovariate : nat -> Q -> Q) (clients : Z) (arrival_rate service_rate : Q)
    (before after : list Z) (c : Z) (n0 : nat) :
  Forall (fun c => (1 <= c)%Z) before ->
  ((1 <= clients)%Z /\ 0 < arrival_rate /\ 0 < service_rate ->
   (c < 1)%Z ->
   compare_scenarios expovariate clients arrival_rate service_rate
     (before ++ c :: after) n0 =
   (Raise (ValueError "counters must be >= 1"),
    (n0 + length before * draws_per_run clients)%nat)) /\
  ((clients < 1)%Z \/ arrival_rate <= 0 \/ service_rate <= 0 ->
   exists msg,
     compare_scenarios expovariate clients arrival_rate service_rate
       (c :: after) n0 = (Raise (ValueError msg), n0)).
Proof.
  intros Hbefore. split.
  - intros (Hcl & Har & Hsr) Hc. unfold compare_scenarios, bind.
    now rewrite (run_scenarios_stops expovariate clients arrival_rate service_rate
                   Hcl Har Hsr before after c Hbefore Hc).
  - intros Hbad.
    destruct (simulate_queue_rejects_rest expovariate clients arrival_rate
                service_rate c n0 Hbad) as (msg & Hsim).
    exists msg. unfold compare_scenarios. cbn [run_scenarios]. unfold bind.
    now rewrite Hsim.
Qed.

Lemma compare_scenarios_stops_at_first_rejected_witness :
  compare_scenarios (fixed_variates [1; 0; 5; 0] 1) 3 1 1 ([2; 1] ++ 0 :: [4])%Z 0%nat =
    (Raise (ValueError "counters must be >= 1"), 14%nat) /\
  exists msg,
    compare_scenarios (fixed_variates [1; 0; 5; 0] 1) 0 1 1 (2 :: [4])%Z 0%nat =
      (Raise (ValueError msg), 0%nat).
Proof.
  split.
  - apply (compare_scenarios_stops_at_first_rejected
             (fixed_variates [1; 0; 5; 0] 1) 3 1 1 [2; 1]%Z [4]%Z 0%Z 0%nat).
    + repeat constructor; lia.
    + repeat split; try lia; reflexivity.
    + lia.
  - apply (compare_scenarios_stops_at_first_rejected
             (fixed_variates [1; 0; 5; 0] 1) 0 1 1 []%Z [4]%Z 2%Z 0%nat).
    + constructor.
    + left. lia.
Defined.

(** ** The order of the checks *)

(** X19.  [simulate_queue] checks the number of servers first, then the
    number of customers, then the rates, and reports the first check that
    fails, with no variate drawn.  When the two rates are numbers (the
    rationals of this model: a NaN rate is the subject of X20), nothing
    else ends a call early: the guard of [exp_time] is never the one that
    fires, no list is indexed out of range, and the loop comes to its
    end. *)
Theorem simulate_queue_checks_in_order
    (expovariate : nat -> Q -> Q) (clients : Z) (arrival_rate service_rate : Q)
    (counters : Z) (n0 : nat) :
  let outcome :=
    simulate_queue expovariate clients arrival_rate service_rate counters n0 in
  ((counters < 1)%Z ->
   outcome = (Raise (ValueError "counters must be >= 1"), n0)) /\
  ((1 <= counters)%Z -> (clients < 1)%Z ->
   outcome = (Raise (ValueError "clients must be >= 1"), n0)) /\
  ((1 <= counters)%Z -> (1 <= clients)%Z ->
   arrival_rate <= 0 \/ service_rate <= 0 ->
   outcome = (Raise (ValueError "rates must be > 0"), n0)) /\
  fst outcome <> Raise (ValueError "Rate must be > 0") /\
  fst outcome <> Raise IndexError /\
  fst outcome <> Timeout.
Proof.
  intros outcome.
  assert (H1 : (counters < 1)%Z ->
               outcome = (Raise (ValueError "counters must be >= 1"), n0)).
  { intros Hco. subst outcome. unfold simulate_queue, final_state, bind.
    destruct (Z.ltb_spec counters 1); [reflexivity | lia]. }
  assert (H2 : (1 <= counters)%Z -> (clients < 1)%Z ->
               outcome = (Raise (ValueError "clients must be >= 1"), n0)).
  { intros Hco Hcl. subst outcome. unfold simulate_queue, final_state, bind.
    destruct (Z.ltb_spec counters 1); [lia|].
    destruct (Z.ltb_spec clients 1); [reflexivity | lia]. }
  assert (H3 : (1 <= counters)%Z -> (1 <= clients)%Z ->
               arrival_rate <= 0 \/ service_rate <= 0 ->
               outcome = (Raise (ValueError "rates must be > 0"), n0)).
  { intros Hco Hcl Hrate. subst outcome. unfold simulate_queue, final_state, bind.
    destruct (Z.ltb_spec counters 1); [lia|].
    destruct (Z.ltb_spec clients 1); [lia|].
    destruct (Qle_bool arrival_rate 0) eqn:Har; [reflexivity|].
    destruct (Qle_bool service_rate 0) eqn:Hsr; [reflexivity|].
    apply Qle_bool_false in Har, Hsr. destruct Hrate; lra. }
  split; [exact H1|]. split; [exact H2|]. split; [exact H3|].
  destruct (Z.lt_ge_cases counters 1) as [Hco|Hco];
    [rewrite (H1 Hco); cbn; repeat split; discriminate|].
  destruct (Z.lt_ge_cases clients 1) as [Hcl|Hcl];
    [rewrite (H2 Hco Hcl); cbn; repeat split; discriminate|].
  destruct (Qlt_le_dec 0 arrival_rate) as [Har|Har];
    [|rewrite (H3 Hco Hcl (or_introl Har)); cbn; repeat split; discriminate].
  destruct (Qlt_le_dec 0 service_rate) as [Hsr|Hsr];
    [|rewrite (H3 Hco Hcl (or_intror Hsr)); cbn; repeat split; discriminate].
  destruct (final_state_ok expovariate clients arrival_rate service_rate counters
              Hco Hcl Har Hsr n0) as (s & n' & Hfin & _).
  apply simulate_queue_eq in Hfin. subst outcome. rewrite Hfin. cbn.
  repeat split; discriminate.
Qed.

Lemma simulate_queue_checks_in_order_witness :
  simulate_queue (fixed_variates [1; 0; 5; 0] 1) 0 0 1 0 4%nat
  = (Raise (ValueError "counters must be >= 1"), 4%nat) /\
  simulate_queue (fixed_variates [1; 0; 5; 0] 1) 0 0 1 2 4%nat
  = (Raise (ValueError "clients must be >= 1"), 4%nat) /\
  simulate_queue (fixed_variates [1; 0; 5; 0] 1) 3 0 1 2 4%nat
  = (Raise (ValueError "rates must be > 0"), 4%nat).
Proof.
  split; [|split].
  - apply (simulate_queue_checks_in_order (fixed_variates [1; 0; 5; 0] 1) 0 0 1 0 4%nat).
    lia.
  - apply (simulate_queue_checks_in_order (fixed_variates [1; 0; 5; 0] 1) 0 0 1 2 4%nat);
      lia.
  - apply (simulate_queue_checks_in_order (fixed_variates [1; 0; 5; 0] 1) 3 0 1 2 4%nat);
      try lia.
    left. apply Qle_refl.
Defined.

(** ** A rate that is not a number *)

Section NaNRate.
Import PrimFloat.
Local Open Scope float_scope.

(** X20.  A NaN arrival rate is not rejected: [nan <= 0] is false, so the
    checks of lines 95-96 and the guard of [exp_time] let it pass, and the
    first inter-arrival time, drawn at that rate, is NaN.  Then, whatever
    the numbers of customers and servers, the first test of line 141 fails
    ([nan <= inf] is false), the COMPLETION branch pops the empty
    [busy_heap], and the call ends in [IndexError] after one variate. *)
Theorem nan_arrival_rate_raises_index_error
    (expovariate : nat -> float -> float) (clients : Z) (service_rate : float)
    (counters : Z) (n0 : nat) :
  (1 <= counters)%Z -> (1 <= clients)%Z ->
  (service_rate <=? 0) = false ->
  expovariate n0 nan = nan ->
  Float64.simulate_queue expovariate clients nan service_rate counters n0
  = (Raise IndexError, S n0).
Proof.
  intros Hco Hcl Hsr Hnan.
  unfold Float64.simulate_queue, Float64.final_state, bind.
  destruct (Z.ltb_spec counters 1) as [H|_]; [lia|].
  destruct (Z.ltb_spec clients 1) as [H|_]; [lia|].
  rewrite Hsr. change (nan <=? 0) with false. cbn [orb].
  unfold Float64.exp_time at 1. change (nan <=? 0) with false. cbn iota.
  cbn beta. rewrite Hnan. unfold loop_fuel. cbn [Float64.run]. unfold bind at 1.
  unfold Float64.step, Float64.initial_state. cbn [Float64.served].
  destruct (Z.ltb_spec 0 clients) as [_|H]; [|lia].
  unfold bind at 1. unfold Float64.event, Float64.is_arrival, Float64.next_completion.
  cbn [Float64.next_arrival Float64.busy_heap].
  change (nan <=? infinity) with false. cbn [andb].
  reflexivity.
Qed.

Lemma nan_arrival_rate_raises_index_error_witness :
  Float64.simulate_queue (fun _ rate => 1 / rate) 3 nan 2 1 0%nat
  = (Raise IndexError, 1%nat).
Proof.
  apply (nan_arrival_rate_raises_index_error (fun _ rate => 1 / rate) 3 2 1 0%nat);
    try lia; reflexivity.
Defined.
End NaNRate.
